(** * DelphesSimulation: conversion of the Delphes candidate graph to the FCC event-data model

    Shallow embedding of the converters of
    [Sim/SimDelphesInterface/src/DelphesSimulation.cpp]:
    [ConvertMCParticles], [ConvertTracks], [ConvertTowers], [ConvertJets],
    [findJetPartMC] and [ConvertMET], and of the part of [execute] that
    calls them, followed by the properties of the specification that concern
    them and by further properties of the code: faults, handles, sizes and
    the origin of the vertices. The blocks that only print at debug level
    are left out, except for what the one of [ConvertTracks] reads before it
    prints; so are [initialize], [finalize] and the reading of the
    event, which are file and framework plumbing. *)

From Stdlib Require Import ZArith Lia.
From stdpp Require Import base option list gmap sorting strings.

Local Open Scope Z_scope.
Set Warnings "-clear-no-such-hyp".

(** ** Numbers

    The converters only copy floating-point payloads around, or hand them to
    ROOT's [TLorentzVector] methods.  The payload types and those methods are
    kept abstract: [Double] stands for the [double] components of a
    [TLorentzVector], [Float] for the [float] members of the event-data model,
    [narrow] for the implicit conversion on assignment and [int2float] for the
    conversion of an integer literal such as [-1]. *)

Record TLorentzVector (R : Type) := mkLV { Px : R; Py : R; Pz : R; E : R }.
Arguments mkLV {R}.
Arguments Px {R}.
Arguments Py {R}.
Arguments Pz {R}.
Arguments E {R}.

Class FloatModel := {
  Double : Type;
  Float : Type;
  narrow : Double → Float;
  int2float : Z → Float;
  lvM : TLorentzVector Double → Double;
  lvPt : TLorentzVector Double → Double;
  lvPhi : TLorentzVector Double → Double;
  lvNeg : TLorentzVector Double → TLorentzVector Double
}.

(** [int] is 32 bits wide; [TObject::GetUniqueID] returns a [UInt_t].
    [to_int] is the conversion of an out-of-range value to [int]. *)
Definition to_int (z : Z) : Z := (z + 2 ^ 31) `mod` 2 ^ 32 - 2 ^ 31.
Definition to_unsigned (z : Z) : Z := z `mod` 2 ^ 32.

(** The monadic [for] loop over the elements of a container; [None] is a
    fault (an access the C++ program has no defined result for, or an
    exception). *)
Fixpoint for_each {A S : Type} (body : A → S → option S) (l : list A) (s : S)
  : option S :=
  match l with
  | [] => Some s
  | x :: l' => s' ← body x s; for_each body l' s'
  end.

(** Iteration over a [std::set<int>] visits the elements in increasing order. *)
Definition set_order (s : gset Z) : list Z := merge_sort Z.le (elements s).

(** [for (int i = lo; i <= hi; i++)] *)
Definition int_range (lo hi : Z) : list Z := seqZ lo (hi - lo + 1).

(** [v[i]] on a [std::vector], [At]/[at] on a collection: defined inside the
    bounds only. *)
Definition zlookup {A : Type} (l : list A) (i : Z) : option A :=
  if decide (0 ≤ i) then l !! Z.to_nat i else None.

Definition zupdate {A : Type} (l : list A) (i : Z) (x : A) : list A :=
  if decide (0 ≤ i) then <[Z.to_nat i := x]> l else l.

(** [colMCParticles->size()] is compared with an [int]. The declaration of
    [size()] is in the generated data-model headers, which are not among the
    sources: its result type decides whether the comparison is done on [int]
    or, after the usual arithmetic conversions, on an unsigned type. *)
Inductive SizeType := size_int | size_unsigned.

Definition lt_size (ty : SizeType) (id : Z) (size : nat) : bool :=
  match ty with
  | size_int => bool_decide (id < Z.of_nat size)
  | size_unsigned => bool_decide (to_unsigned id < Z.of_nat size)
  end.

(** ** The candidate graph *)

Definition ptr := nat.

(** [ParticleStatus.h] is not among the sources either: the enumerators are
    known by name, their numeric values are not. *)
Inductive ParticleStatus := kBeam | kStable | kDecayed | kMatched | kUnmatched.

Section Converters.
Context `{FM : FloatModel}.

(** [Candidate] of Delphes, with the members the converters read.  The
    related candidates ([GetCandidates()]) are pointers into the factory's
    pool of candidates. *)
Record Candidate := mkCandidate {
  PID : Z;
  Status : Z;
  M1 : Z; M2 : Z; D1 : Z; D2 : Z;
  Charge : Z;
  Mass : Float;
  BTag : Z;
  TauTag : Z;
  Momentum : TLorentzVector Double;
  Position : TLorentzVector Double;
  UniqueID : Z;
  GetCandidates : list ptr
}.

(** The pool of candidates: what every stored pointer points to. *)
Definition Pool := ptr → Candidate.

(** [int id = refCand->GetUniqueID()-1;] the subtraction is done on
    [unsigned int], the result converted to [int]. *)
Definition refId (refCand : Candidate) : Z := to_int (to_unsigned (UniqueID refCand - 1)).

(** ** Messages *)
Definition warnTrack : string := "Can't build relation from Electron/Muon/ChHadron to MC particle!".
Definition warnTower : string := "Can't build one of the relations from Photon/NHadron to MC particle!".
Definition warnJet : string := "Can't build one of the relations from Jet to MC particle!".
Definition warnMET : string := "Can't save in a common FCC-EDM MET object both information from Delphes MET & scalarHT. Only MET will be saved!".

(** ** [findJetPartMC]

    The C++ function is recursive on the pointer structure, with no depth
    guard; the embedding takes fuel, and [None] means that the fuel did not
    suffice. The state is the set [idRefMCPart], passed by reference, and the
    log of warnings. *)
Fixpoint findJetPartMC (fuel : nat) (pool : Pool) (jetPart : ptr) (rangeMCPart : Z)
    (st : gset Z * list string) : option (gset Z * list string) :=
  match fuel with
  | O => None
  | S fuel' =>
      if decide (length (GetCandidates (pool jetPart)) = 0%nat)
      then Some (st.1, st.2 ++ [warnJet])
      else
        for_each
          (λ refCand st,
             let id := refId (pool refCand) in
             if decide (id < rangeMCPart)
             then Some ({[id]} ∪ st.1, st.2)
             else findJetPartMC fuel' pool refCand rangeMCPart st)
          (GetCandidates (pool jetPart)) st
  end.

(** ** The event-data model

    Handles of the data model ([particle], [vertex], [relation.Rec()], ...)
    are positions in the collection that owns the object; a handle that is
    not available is [None]. *)
Record Point := mkPoint { PointX : Float; PointY : Float; PointZ : Float }.
Record LorentzVector := mkP4 { P4Px : Float; P4Py : Float; P4Pz : Float; P4Mass : Float }.

(** [Bits] holds the enumerator that was cast into it, and [None] as long as
    it has the zero of the value-initialisation [fcc::BareParticle()]. *)
Record BareParticle := mkBareParticle {
  coreType : Z;
  coreStatus : Z;
  coreP4 : LorentzVector;
  coreCharge : Z;
  coreVertex : Point;
  coreBits : option ParticleStatus
}.

Record GenVertex := mkGenVertex { vtxPosition : Point; Ctau : Float }.
Record MCParticle := mkMCParticle {
  Core : BareParticle;
  StartVertex : option nat;
  EndVertex : option nat
}.
Record Particle := mkParticle { recCore : BareParticle }.
Record ParticleMCParticleAssociation := mkAssoc { Rec : option nat; Sim : option nat }.
Record BareJet := mkBareJet { Area : Float; jetP4 : LorentzVector }.
Record GenJet := mkGenJet { jetCore : BareJet }.
Record Tag := mkTag { Value : Float }.
Record GenJetTagAssociation := mkJetTag { tagJet : option nat; tagTag : option nat }.
Record GenJetParticleAssociation := mkJetMC { mcJet : option nat; mcParticle : option nat }.
Record MET := mkMET { Magnitude : Float; Phi : Float; ScalarSum : Float }.

(** [cand->Position.X()] and its siblings read the four components. *)
Definition candPoint (cand : Candidate) : Point :=
  mkPoint (narrow (Px (Position cand))) (narrow (Py (Position cand)))
          (narrow (Pz (Position cand))).

(** The common prefix of the three particle converters: the core filled from
    the candidate, [Bits] not yet touched. *)
Definition fillCore (cand : Candidate) : BareParticle :=
  mkBareParticle (PID cand) (to_unsigned (Status cand))
    (mkP4 (narrow (Px (Momentum cand))) (narrow (Py (Momentum cand)))
          (narrow (Pz (Momentum cand))) (narrow (lvM (Momentum cand))))
    (Charge cand) (candPoint cand) None.

Definition withBits (b : BareParticle) (s : ParticleStatus) : BareParticle :=
  mkBareParticle (coreType b) (coreStatus b) (coreP4 b) (coreCharge b)
    (coreVertex b) (Some s).

Context (size_type : SizeType).

(** [msgLevel() <= MSG::DEBUG]: whether the blocks that print at debug level
    run. *)
Context (msgDebug : bool).

(** ** [ConvertTracks] *)
Record TrackOut := mkTrackOut {
  colParticles : list Particle;
  ascColParticlesToMC : list ParticleMCParticleAssociation;
  trackLog : list string
}.

(** The debug block of lines 660-693. Before it prints, it reads the cores
    of [relation.Rec()] and of [relation.Sim()], whether or not the track was
    matched: reading through a handle that was never set is a fault. What the
    block prints is left out. *)
Definition trackDebug (relation : ParticleMCParticleAssociation) : option unit :=
  if msgDebug then
    _ ← Rec relation;
    _ ← Sim relation;
    Some ()
  else Some ().

(** One iteration of the loop over the input array. *)
Definition trackStep (pool : Pool) (colMC : list MCParticle) (cand : Candidate)
    (out : TrackOut) : option TrackOut :=
  let particle := length (colParticles out) in
  let barePart := fillCore cand in
  (* auto relation = ascColParticlesToMC->create(); *)
  let relation := mkAssoc None None in
  let unmatched :=
    mkTrackOut (colParticles out ++ [mkParticle (withBits barePart kUnmatched)])
               (ascColParticlesToMC out ++ [relation])
               (trackLog out ++ [warnTrack]) in
  match GetCandidates cand with
  | refCand :: _ =>
      let idRefMCPart := refId (pool refCand) in
      if lt_size size_type idRefMCPart (length colMC) then
        _ ← zlookup colMC idRefMCPart;
        _ ← trackDebug (mkAssoc (Some particle) (Some (Z.to_nat idRefMCPart)));
        Some (mkTrackOut
                (colParticles out ++ [mkParticle (withBits barePart kMatched)])
                (ascColParticlesToMC out
                   ++ [mkAssoc (Some particle) (Some (Z.to_nat idRefMCPart))])
                (trackLog out))
      else
        _ ← trackDebug relation;
        Some unmatched
  | [] =>
      _ ← trackDebug relation;
      Some unmatched
  end.

Definition ConvertTracks (pool : Pool) (Input : list Candidate)
    (colMC : list MCParticle) (out : TrackOut) : option TrackOut :=
  for_each (trackStep pool colMC) Input out.

(** ** [ConvertTowers] *)

(** The two nested loops that fill [idRefMCPart]. *)
Definition towerRefs (pool : Pool) (size : nat) (cand : Candidate)
    (st : gset Z * list string) : gset Z * list string :=
  foldl (λ st clsCand,
           foldl (λ st refCand,
                    let id := refId (pool refCand) in
                    if lt_size size_type id size then ({[id]} ∪ st.1, st.2)
                    else (st.1, st.2 ++ [warnTower]))
                 st (GetCandidates (pool clsCand)))
        st (GetCandidates cand).

(** The loop that saves the relations of one particle. *)
Definition saveRelations (colMC : list MCParticle) (particle : nat) (ids : list Z)
    (asc : list ParticleMCParticleAssociation)
  : option (list ParticleMCParticleAssociation) :=
  for_each (λ id asc,
              _ ← zlookup colMC id;
              Some (asc ++ [mkAssoc (Some particle) (Some (Z.to_nat id))]))
           ids asc.

Definition towerStep (pool : Pool) (colMC : list MCParticle) (cand : Candidate)
    (out : TrackOut) : option TrackOut :=
  let particle := length (colParticles out) in
  let st := towerRefs pool (length colMC) cand (∅, trackLog out) in
  asc ← saveRelations colMC particle (set_order st.1) (ascColParticlesToMC out);
  Some (mkTrackOut (colParticles out ++ [mkParticle (fillCore cand)]) asc st.2).

Definition ConvertTowers (pool : Pool) (Input : list Candidate)
    (colMC : list MCParticle) (out : TrackOut) : option TrackOut :=
  for_each (towerStep pool colMC) Input out.

(** ** [ConvertJets] *)
Record JetOut := mkJetOut {
  colJets : list GenJet;
  ascColJetsToMC : list GenJetParticleAssociation;
  colBTags : list Tag;
  ascColJetsToBTags : list GenJetTagAssociation;
  colTauTags : list Tag;
  ascColJetsToTauTags : list GenJetTagAssociation;
  jetLog : list string
}.

(** The loop over the jet constituents, lines 879-888. *)
Definition jetRefs (fuel : nat) (pool : Pool) (size : nat) (cand : Candidate)
    (st : gset Z * list string) : option (gset Z * list string) :=
  for_each (λ jetPart st, findJetPartMC fuel pool jetPart (to_int (Z.of_nat size)) st)
           (GetCandidates cand) st.

Definition saveJetRelations (colMC : list MCParticle) (jet : nat) (ids : list Z)
    (asc : list GenJetParticleAssociation) : option (list GenJetParticleAssociation) :=
  for_each (λ id asc,
              _ ← zlookup colMC id;
              Some (asc ++ [mkJetMC (Some jet) (Some (Z.to_nat id))]))
           ids asc.

Definition jetStep (fuel : nat) (pool : Pool) (colMC : list MCParticle)
    (cand : Candidate) (out : JetOut) : option JetOut :=
  let jet := length (colJets out) in
  let bareJet :=
    mkBareJet (int2float (-1))
      (mkP4 (narrow (Px (Momentum cand))) (narrow (Py (Momentum cand)))
            (narrow (Pz (Momentum cand))) (Mass cand)) in
  let bTag := length (colBTags out) in
  let tauTag := length (colTauTags out) in
  st ← jetRefs fuel pool (length colMC) cand (∅, jetLog out);
  asc ← saveJetRelations colMC jet (set_order st.1) (ascColJetsToMC out);
  Some (mkJetOut (colJets out ++ [mkGenJet bareJet]) asc
          (colBTags out ++ [mkTag (int2float (BTag cand))])
          (ascColJetsToBTags out ++ [mkJetTag (Some jet) (Some bTag)])
          (colTauTags out ++ [mkTag (int2float (TauTag cand))])
          (ascColJetsToTauTags out ++ [mkJetTag (Some jet) (Some tauTag)])
          st.2).

Definition ConvertJets (fuel : nat) (pool : Pool) (Input : list Candidate)
    (colMC : list MCParticle) (out : JetOut) : option JetOut :=
  for_each (jetStep fuel pool colMC) Input out.

(** ** [ConvertMET] *)
Definition metStep (saveSHT : bool) (InputSHT : list Candidate) (j : nat)
    (candMET : Candidate) (colMET : list MET) : option (list MET) :=
  if saveSHT then
    candSHT ← InputSHT !! j;
    Some (colMET ++ [mkMET (narrow (lvPt (Momentum candMET)))
                           (narrow (lvPhi (lvNeg (Momentum candMET))))
                           (narrow (lvPt (Momentum candSHT)))])
  else
    Some (colMET ++ [mkMET (narrow (lvPt (Momentum candMET)))
                           (narrow (lvPhi (lvNeg (Momentum candMET))))
                           (int2float (-1))]).

Fixpoint metLoop (saveSHT : bool) (InputSHT : list Candidate) (j : nat)
    (rest : list Candidate) (colMET : list MET) : option (list MET) :=
  match rest with
  | [] => Some colMET
  | candMET :: rest' =>
      colMET' ← metStep saveSHT InputSHT j candMET colMET;
      metLoop saveSHT InputSHT (S j) rest' colMET'
  end.

Definition ConvertMET (InputMET InputSHT : list Candidate)
    (out : list MET * list string) : option (list MET * list string) :=
  let saveSHT := bool_decide (length InputMET = length InputSHT) in
  let log := if saveSHT then out.2 else out.2 ++ [warnMET] in
  colMET ← metLoop saveSHT InputSHT 0 InputMET out.1;
  Some (colMET, log).

(** ** [ConvertMCParticles]

    The only caller passes [m_allPartOutArray] as [Input] and two new, empty
    collections. *)

(** The pre-pass of lines 456-473: the daughters of the two colliding
    particles, read off the mother ranges. (A mother range that leaves the
    array makes the main loop fault, whatever the pre-pass finds.) *)
Definition primaryDaughtersStep (j : nat) (cand : Candidate)
    (prim : gset Z * gset Z) : gset Z * gset Z :=
  if decide (M1 cand ≠ -1) then
    foldl (λ prim iMother,
             (if decide (iMother = 0) then {[Z.of_nat j]} ∪ prim.1 else prim.1,
              if decide (iMother = 1) then {[Z.of_nat j]} ∪ prim.2 else prim.2))
          prim (int_range (M1 cand) (M2 cand))
  else prim.

Fixpoint primaryDaughtersLoop (j : nat) (rest : list Candidate)
    (prim : gset Z * gset Z) : gset Z * gset Z :=
  match rest with
  | [] => prim
  | cand :: rest' => primaryDaughtersLoop (S j) rest' (primaryDaughtersStep j cand prim)
  end.

Definition primaryDaughters (Input : list Candidate) : gset Z * gset Z :=
  primaryDaughtersLoop 0 Input (∅, ∅).

Record MCState := mkMCState {
  vecPartProdVtxIDDecVtxID : list (Z * Z);
  colMCParticles : list MCParticle;
  colGenVertices : list GenVertex
}.

Definition setStartVertex (v : option nat) (p : MCParticle) : MCParticle :=
  mkMCParticle (Core p) v (EndVertex p).
Definition setEndVertex (v : option nat) (p : MCParticle) : MCParticle :=
  mkMCParticle (Core p) (StartVertex p) v.

Definition mcBits (cand : Candidate) : ParticleStatus :=
  if decide (M1 cand = -1) then kBeam
  else if decide (D1 cand = -1) then kStable
  else kDecayed.

(** Lines 521-523. *)
Definition propagateMothers (j : Z) (mothers : list Z) (vec : list (Z * Z))
  : option (list (Z * Z)) :=
  for_each (λ iMother vec,
              slot ← zlookup vec iMother;
              Some (if decide (slot.2 = -1) then zupdate vec iMother (slot.1, j)
                    else vec))
           mothers vec.

(** Lines 550-558 and 562-565. *)
Definition propagateDaughters (j : Z) (daughters : list Z) (vec : list (Z * Z))
  : option (list (Z * Z)) :=
  for_each (λ iDaughter vec,
              if decide (0 ≤ iDaughter) then
                slot ← zlookup vec iDaughter;
                Some (if decide (slot.1 = -1) then zupdate vec iDaughter (j, slot.2)
                      else vec)
              else Some vec)
           daughters vec.

(** Lines 503-524. *)
Definition productionVertex (j : nat) (cand : Candidate) (st : MCState)
  : option MCState :=
  if decide (M1 cand ≠ -1) then
    slot ← vecPartProdVtxIDDecVtxID st !! j;
    st1 ← (if decide (slot.1 ≠ -1) then
             p ← zlookup (colMCParticles st) slot.1;
             Some (mkMCState (vecPartProdVtxIDDecVtxID st)
                     (alter (setStartVertex (EndVertex p)) j (colMCParticles st))
                     (colGenVertices st))
           else
             let vertex := length (colGenVertices st) in
             Some (mkMCState
                     (<[j := (Z.of_nat j, slot.2)]> (vecPartProdVtxIDDecVtxID st))
                     (alter (setStartVertex (Some vertex)) j (colMCParticles st))
                     (colGenVertices st
                        ++ [mkGenVertex (candPoint cand) (narrow (E (Position cand)))])));
    vec ← propagateMothers (Z.of_nat j) (int_range (M1 cand) (M2 cand))
            (vecPartProdVtxIDDecVtxID st1);
    Some (mkMCState vec (colMCParticles st1) (colGenVertices st1))
  else Some st.

(** Lines 525-567. *)
Definition decayVertex (Input : list Candidate) (prim : gset Z * gset Z)
    (j : nat) (cand : Candidate) (st : MCState) : option MCState :=
  if decide (D1 cand ≠ -1) then
    slot ← vecPartProdVtxIDDecVtxID st !! j;
    st1 ← (if decide (slot.2 ≠ -1) then
             p ← zlookup (colMCParticles st) slot.2;
             Some (mkMCState (vecPartProdVtxIDDecVtxID st)
                     (alter (setEndVertex (StartVertex p)) j (colMCParticles st))
                     (colGenVertices st))
           else
             daughter ← zlookup Input (D1 cand);
             let vertex := length (colGenVertices st) in
             Some (mkMCState
                     (<[j := (slot.1, D1 cand)]> (vecPartProdVtxIDDecVtxID st))
                     (alter (setEndVertex (Some vertex)) j (colMCParticles st))
                     (colGenVertices st
                        ++ [mkGenVertex (candPoint daughter)
                              (narrow (E (Position cand)))])));
    vec ← (if decide (M1 cand = -1) then
             if decide (j = 0%nat)
             then propagateDaughters (Z.of_nat j) (set_order prim.1) (vecPartProdVtxIDDecVtxID st1)
             else if decide (j = 1%nat)
             then propagateDaughters (Z.of_nat j) (set_order prim.2) (vecPartProdVtxIDDecVtxID st1)
             else Some (vecPartProdVtxIDDecVtxID st1)
           else propagateDaughters (Z.of_nat j) (int_range (D1 cand) (D2 cand))
                  (vecPartProdVtxIDDecVtxID st1));
    Some (mkMCState vec (colMCParticles st1) (colGenVertices st1))
  else Some st.

(** The body of the main loop, lines 476-605, for index [j]. *)
Definition mcStep (Input : list Candidate) (prim : gset Z * gset Z) (j : nat)
    (st : MCState) : option MCState :=
  cand ← Input !! j;
  let barePart := withBits (fillCore cand) (mcBits cand) in
  let st0 :=
    mkMCState (vecPartProdVtxIDDecVtxID st)
      (colMCParticles st ++ [mkMCParticle barePart None None])
      (colGenVertices st) in
  st1 ← productionVertex j cand st0;
  decayVertex Input prim j cand st1.

(** The state after the first [n] iterations of the main loop. *)
Fixpoint mcLoop (Input : list Candidate) (prim : gset Z * gset Z) (n : nat)
    (st0 : MCState) : option MCState :=
  match n with
  | O => Some st0
  | S m => st ← mcLoop Input prim m st0; mcStep Input prim m st
  end.

Definition mcInit (Input : list Candidate) : MCState :=
  mkMCState (replicate (length Input) (-1, -1)) [] [].

Definition ConvertMCParticles (Input : list Candidate) : option MCState :=
  mcLoop Input (primaryDaughters Input) (length Input) (mcInit Input).

End Converters.

(** ** A model of the numbers for concrete events

    Exact integers stand for the payloads and the conversions are the
    identity; the vector methods are stand-ins, no example depends on what
    they compute. *)
#[export] Instance ZModel : FloatModel := {|
  Double := Z;
  Float := Z;
  narrow := λ d, d;
  int2float := λ z, z;
  lvM := λ v, 0;
  lvPt := λ v, Px v;
  lvPhi := λ v, Py v;
  lvNeg := λ v, mkLV (- Px v) (- Py v) (- Pz v) (- E v)
|}.

(** A generated particle: mother and daughter ranges, position [(x,y,z,t)]. *)
Definition genCand (m1 m2 d1 d2 : Z) (x y z t : Z) (uid : Z) : Candidate :=
  mkCandidate 0 0 m1 m2 d1 d2 0 0 0 0 (mkLV 0 0 0 0) (mkLV x y z t) uid [].

(** A reconstructed object: unique identifier and related candidates. *)
Definition recCand (uid : Z) (rel : list ptr) : Candidate :=
  mkCandidate 0 0 (-1) (-1) (-1) (-1) 0 0 0 0 (mkLV 0 0 0 0) (mkLV 0 0 0 0) uid rel.

(** The pool made of a list of candidates; a pointer past the end points to
    a candidate without relations. *)
Definition poolOf (l : list Candidate) : Pool :=
  λ p, default (recCand 0 []) (l !! p).

(** Two colliding particles (0, 1) produce candidate 2, which decays into
    candidates 3 and 4 at the point (5,5,5). *)
Definition ex_two_beams : list Candidate :=
  [ genCand (-1) (-1) 2 2 0 0 (-9) 0 1;
    genCand (-1) (-1) 2 2 0 0 9 0 2;
    genCand 0 1 3 4 0 0 0 0 3;
    genCand 2 2 (-1) (-1) 5 5 5 7 4;
    genCand 2 2 (-1) (-1) 5 5 5 7 5 ].

(** The same event with the decaying candidate stored after its daughters. *)
Definition ex_children_first : list Candidate :=
  [ genCand (-1) (-1) 4 4 0 0 (-9) 0 1;
    genCand (-1) (-1) 4 4 0 0 9 0 2;
    genCand 4 4 (-1) (-1) 5 5 5 7 3;
    genCand 4 4 (-1) (-1) 5 5 5 7 4;
    genCand 0 1 2 3 0 0 0 0 5 ].

(** Two daughters of candidate 0 that do not have the same position. *)
Definition ex_siblings_apart : list Candidate :=
  [ genCand (-1) (-1) 2 3 0 0 (-9) 0 1;
    genCand (-1) (-1) (-1) (-1) 0 0 9 0 2;
    genCand 0 0 (-1) (-1) 1 1 1 0 3;
    genCand 0 0 (-1) (-1) 2 2 2 0 4 ].

(** The beam scenario of the specification: both colliding particles
    declare the daughters 2 and 3, the mother range of candidate 2 lists
    index 0 only. In the first event the mother range of candidate 3 does
    not contain index 1; in the second it does. *)
Definition ex_scenario : list Candidate :=
  [ genCand (-1) (-1) 2 3 0 0 (-9) 0 1;
    genCand (-1) (-1) 2 3 0 0 9 0 2;
    genCand 0 0 (-1) (-1) 0 0 0 0 3;
    genCand 0 0 (-1) (-1) 0 0 0 0 4 ].
Definition ex_scenario_linked : list Candidate :=
  [ genCand (-1) (-1) 2 3 0 0 (-9) 0 1;
    genCand (-1) (-1) 2 3 0 0 9 0 2;
    genCand 0 0 (-1) (-1) 0 0 0 0 3;
    genCand 0 1 (-1) (-1) 0 0 0 0 4 ].

(** A pool for the reconstructed objects, over a collection of ten generated
    particles:
    0 a generated particle (index 5); 1 a pass-through node above it;
    2 a constituent linked to 0 directly, 3 one linked through 1;
    4 an intermediate object without relations, whose identifier lies outside
    the collection; 5, 6 two clusters that both relate to 0; 7 a cluster that
    relates to 4. *)
Definition ex_pool : Pool :=
  poolOf [ recCand 6 []; recCand 100 [0%nat]; recCand 101 [0%nat];
           recCand 102 [1%nat]; recCand 103 []; recCand 104 [0%nat];
           recCand 105 [0%nat]; recCand 106 [4%nat] ].

Definition ex_colMC : list MCParticle :=
  replicate 10 (mkMCParticle (fillCore (genCand 0 0 0 0 0 0 0 0 0)) None None).

Definition noTracks : TrackOut := mkTrackOut [] [] [].

(** ** The contract of the recursive resolver, in the words of the specification

    (a) a candidate without related candidates: one warning, nothing added;
    (b) otherwise, for each related candidate in turn: its index is added
    when it lies inside the range, and the resolver recurses into it when it
    does not. *)
Section Contract.
Context `{FM : FloatModel}.
Variable pool : Pool.
Variable rangeMCPart : Z.

Inductive resolver_contract :
    ptr → gset Z * list string → gset Z * list string → Prop :=
| contract_no_relation jetPart st :
    GetCandidates (pool jetPart) = [] →
    resolver_contract jetPart st (st.1, st.2 ++ [warnJet])
| contract_relations jetPart st st' :
    GetCandidates (pool jetPart) ≠ [] →
    resolver_contract_each (GetCandidates (pool jetPart)) st st' →
    resolver_contract jetPart st st'
with resolver_contract_each :
    list ptr → gset Z * list string → gset Z * list string → Prop :=
| contract_done st : resolver_contract_each [] st st
| contract_base refCand rest st st' :
    refId (pool refCand) < rangeMCPart →
    resolver_contract_each rest ({[refId (pool refCand)]} ∪ st.1, st.2) st' →
    resolver_contract_each (refCand :: rest) st st'
| contract_recurse refCand rest st st1 st' :
    ¬ refId (pool refCand) < rangeMCPart →
    resolver_contract refCand st st1 →
    resolver_contract_each rest st1 st' →
    resolver_contract_each (refCand :: rest) st st'.

(** The relation graph is acyclic when the candidates can be ranked so that
    every relation goes down. *)
Definition acyclic (rank : ptr → nat) : Prop :=
  ∀ p q, q ∈ GetCandidates (pool p) → (rank q < rank p)%nat.

End Contract.

(** ** The provenance of a tower, in the words of the specification

    One intermediate hop: the related candidates of the related clusters;
    the indices they resolve to, kept when they lie in the collection; the
    relations of the tower, one per distinct index. *)
Section TowerContract.
Context `{FM : FloatModel}.

Definition towerRefCands (pool : Pool) (cand : Candidate) : list ptr :=
  clsCand ← GetCandidates cand; GetCandidates (pool clsCand).

Definition towerResolved (pool : Pool) (cand : Candidate) : list Z :=
  (λ refCand, refId (pool refCand)) <$> towerRefCands pool cand.

Definition towerIds (pool : Pool) (size : nat) (cand : Candidate) : gset Z :=
  list_to_set (filter (λ id, 0 ≤ id < Z.of_nat size) (towerResolved pool cand)).

Definition towerSkipped (pool : Pool) (size : nat) (cand : Candidate) : nat :=
  length (filter (λ id, ¬ 0 ≤ id < Z.of_nat size) (towerResolved pool cand)).

Definition towerRelations (pool : Pool) (size : nat) (particle : nat)
    (cand : Candidate) : list ParticleMCParticleAssociation :=
  (λ id, mkAssoc (Some particle) (Some (Z.to_nat id)))
    <$> set_order (towerIds pool size cand).

End TowerContract.

(** ** Notions used in the statements *)

Section Notions.
Context `{FM : FloatModel}.
Variable Input : list Candidate.
Variable prim : gset Z * gset Z.

(** The two shapes of an output of [ConvertMET]. *)
Definition metOnly (candMET : Candidate) : MET :=
  mkMET (narrow (lvPt (Momentum candMET)))
        (narrow (lvPhi (lvNeg (Momentum candMET)))) (int2float (-1)).

Definition metPaired (candMET candSHT : Candidate) : MET :=
  mkMET (narrow (lvPt (Momentum candMET)))
        (narrow (lvPhi (lvNeg (Momentum candMET))))
        (narrow (lvPt (Momentum candSHT))).

(** The daughters that candidate [j] propagates its decay vertex to: its
    daughter range, or for the colliding particles the set found by the
    pre-pass. *)
Definition daughtersOf (cand : Candidate) (j : nat) : list Z :=
  if decide (M1 cand = -1) then
    if decide (j = 0%nat) then set_order prim.1
    else if decide (j = 1%nat) then set_order prim.2
    else []
  else int_range (D1 cand) (D2 cand).

(** What the visit of candidate [j] does to the slot pair of candidate [i]:
    a slot is written only when it is unset. *)
Definition slotAfterProduction (cand : Candidate) (j i : nat) (si : Z * Z) : Z * Z :=
  (if decide (M1 cand ≠ -1 ∧ i = j ∧ si.1 = -1) then Z.of_nat j else si.1,
   if decide (M1 cand ≠ -1 ∧ si.2 = -1 ∧ M1 cand ≤ Z.of_nat i ≤ M2 cand)
   then Z.of_nat j else si.2).

Definition slotAfterDecay (cand : Candidate) (j i : nat) (si : Z * Z) : Z * Z :=
  (if decide (D1 cand ≠ -1 ∧ si.1 = -1 ∧ Z.of_nat i ∈ daughtersOf cand j)
   then Z.of_nat j else si.1,
   if decide (D1 cand ≠ -1 ∧ i = j ∧ si.2 = -1) then D1 cand else si.2).

Definition slotAfterVisit (cand : Candidate) (j i : nat) (si : Z * Z) : Z * Z :=
  slotAfterDecay cand j i (slotAfterProduction cand j i si).

(** *** The loop invariant

    After [n] iterations: [n] particles exist, each with the core and with
    the vertices its candidate calls for; a set start slot names a visited
    candidate that owns a decay vertex and lists the slot's candidate as a
    daughter (or the candidate itself, once visited); a set end slot names a
    visited candidate that owns a production vertex and lists the slot's
    candidate as a mother (or the first daughter, once visited). *)
Record Inv (n : nat) (st : MCState) : Prop := mkInv {
  inv_parts : length (colMCParticles st) = n;
  inv_vec : length (vecPartProdVtxIDDecVtxID st) = length Input;
  inv_le : (n ≤ length Input)%nat;
  inv_particle : ∀ i p, colMCParticles st !! i = Some p →
    ∃ c, Input !! i = Some c
         ∧ Core p = withBits (fillCore c) (mcBits c)
         ∧ (M1 c = -1 → StartVertex p = None)
         ∧ (M1 c ≠ -1 → ∃ v, StartVertex p = Some v
                             ∧ (v < length (colGenVertices st))%nat)
         ∧ (D1 c = -1 → EndVertex p = None)
         ∧ (D1 c ≠ -1 → ∃ v, EndVertex p = Some v
                             ∧ (v < length (colGenVertices st))%nat);
  inv_first : ∀ i s, vecPartProdVtxIDDecVtxID st !! i = Some s → s.1 ≠ -1 →
    ∃ k ck, s.1 = Z.of_nat k ∧ (k < n)%nat ∧ Input !! k = Some ck
            ∧ ((k = i ∧ M1 ck ≠ -1)
               ∨ (D1 ck ≠ -1 ∧ Z.of_nat i ∈ daughtersOf ck k));
  inv_second : ∀ i s, vecPartProdVtxIDDecVtxID st !! i = Some s → s.2 ≠ -1 →
    ∃ k ck, (k < n)%nat ∧ Input !! k = Some ck
            ∧ ((s.2 = Z.of_nat k ∧ M1 ck ≠ -1 ∧ M1 ck ≤ Z.of_nat i ≤ M2 ck)
               ∨ (i = k ∧ s.2 = D1 ck ∧ D1 ck ≠ -1))
}.

(** Positions are consistent along the declared links when every candidate
    that has daughters has a first daughter in the array, and every candidate
    linked to a mother, by its own mother range or by the mother's daughter
    range, has the position of that mother's first daughter. *)
Definition positionsConsistent : Prop :=
  (∀ k ck, Input !! k = Some ck → D1 ck ≠ -1 → is_Some (zlookup Input (D1 ck)))
  ∧ (∀ i ci k ck d,
       Input !! i = Some ci → Input !! k = Some ck →
       M1 ci ≠ -1 → M1 ci ≤ Z.of_nat k ≤ M2 ci →
       zlookup Input (D1 ck) = Some d → candPoint ci = candPoint d)
  ∧ (∀ i ci k ck d,
       Input !! i = Some ci → Input !! k = Some ck →
       M1 ck ≠ -1 → D1 ck ≤ Z.of_nat i ≤ D2 ck →
       zlookup Input (D1 ck) = Some d → candPoint ci = candPoint d).

End Notions.

(** ** [execute]: filling the collections

    Lines 314-380 of [execute]. The collections are created empty; the arrays
    of reconstructed objects are imported from Delphes by name, and
    [ImportArray] gives a null pointer ([None]) for a name that Delphes does
    not know. A converter runs only for an array that exists; all of them
    read the same collection of generated particles. What comes before
    (reading the event, [ProcessTask]) and after (handing the collections to
    the data store) is input and output. *)
Section Execute.
Context `{FM : FloatModel}.
Context (size_type : SizeType) (msgDebug : bool).

Record DelphesArrays := mkArrays {
  allPartOutArray : option (list Candidate);
  muonOutArray : option (list Candidate);
  electronOutArray : option (list Candidate);
  chargedOutArray : option (list Candidate);
  neutralOutArray : option (list Candidate);
  photonOutArray : option (list Candidate);
  jetOutArray : option (list Candidate);
  metOutArray : option (list Candidate);
  shtOutArray : option (list Candidate)
}.

Record ArrayNames := mkNames {
  DelphesMuonsArrayName : string;
  DelphesElectronsArrayName : string;
  DelphesChargedArrayName : string;
  DelphesNeutralArrayName : string;
  DelphesPhotonsArrayName : string;
  DelphesJetsArrayName : string;
  DelphesMETsArrayName : string;
  DelphesSHTsArrayName : string
}.

(** The collections as they are put to the data store. [notSaved] holds the
    texts of lines 346-369: they are streamed to [warning()] with no end of
    line, so they are kept apart from [messages], the lines that the
    converters stream to [warning()]. *)
Record EventStore := mkEventStore {
  genParticles : list MCParticle;
  genVertices : list GenVertex;
  recMuons : list Particle;
  recMuonsToMC : list ParticleMCParticleAssociation;
  recElectrons : list Particle;
  recElectronsToMC : list ParticleMCParticleAssociation;
  recCharged : list Particle;
  recChargedToMC : list ParticleMCParticleAssociation;
  recNeutral : list Particle;
  recNeutralToMC : list ParticleMCParticleAssociation;
  recPhotons : list Particle;
  recPhotonsToMC : list ParticleMCParticleAssociation;
  recJets : list GenJet;
  recJetsToMC : list GenJetParticleAssociation;
  recBTags : list Tag;
  recJetsToBTags : list GenJetTagAssociation;
  recTauTags : list Tag;
  recJetsToTauTags : list GenJetTagAssociation;
  recMETs : list MET;
  notSaved : list string;
  messages : list string
}.

(** [if (array==nullptr) warning() << ... ;] *)
Definition missing (array : option (list Candidate)) (what name : string)
  : list string :=
  match array with
  | None => ["Can't save Delphes " +:+ what +:+ " array: " +:+ name
             +:+ " to FCCEDM. Doesn't exist!!!"]
  | Some _ => []
  end.

(** [if (array!=nullptr) Convert...(array, ...);] *)
Definition whenPresent {A S : Type} (array : option A)
    (convert : A → S → option S) (s : S) : option S :=
  match array with
  | Some Input => convert Input s
  | None => Some s
  end.

Definition fillCollections (fuel : nat) (pool : Pool) (names : ArrayNames)
    (arrays : DelphesArrays) : option EventStore :=
  let texts :=
    missing (muonOutArray arrays) "muon" (DelphesMuonsArrayName names)
    ++ missing (electronOutArray arrays) "electron" (DelphesElectronsArrayName names)
    ++ missing (chargedOutArray arrays) "charged hadron" (DelphesChargedArrayName names)
    ++ missing (neutralOutArray arrays) "neutral hadron" (DelphesNeutralArrayName names)
    ++ missing (photonOutArray arrays) "photon" (DelphesPhotonsArrayName names)
    ++ missing (jetOutArray arrays) "jet" (DelphesJetsArrayName names)
    ++ missing (metOutArray arrays) "MET" (DelphesMETsArrayName names)
    ++ missing (shtOutArray arrays) "Scalar HT" (DelphesSHTsArrayName names) in
  gen ← whenPresent (allPartOutArray arrays) (λ Input _, ConvertMCParticles Input)
          (mkMCState [] [] []);
  let colMC := colMCParticles gen in
  mu ← whenPresent (muonOutArray arrays)
         (λ Input, ConvertTracks size_type msgDebug pool Input colMC) (mkTrackOut [] [] []);
  el ← whenPresent (electronOutArray arrays)
         (λ Input, ConvertTracks size_type msgDebug pool Input colMC)
         (mkTrackOut [] [] (trackLog mu));
  ch ← whenPresent (chargedOutArray arrays)
         (λ Input, ConvertTracks size_type msgDebug pool Input colMC)
         (mkTrackOut [] [] (trackLog el));
  ne ← whenPresent (neutralOutArray arrays)
         (λ Input, ConvertTowers size_type pool Input colMC)
         (mkTrackOut [] [] (trackLog ch));
  ph ← whenPresent (photonOutArray arrays)
         (λ Input, ConvertTowers size_type pool Input colMC)
         (mkTrackOut [] [] (trackLog ne));
  je ← whenPresent (jetOutArray arrays)
         (λ Input, ConvertJets fuel pool Input colMC)
         (mkJetOut [] [] [] [] [] [] (trackLog ph));
  me ← match metOutArray arrays, shtOutArray arrays with
       | Some InputMET, Some InputSHT => ConvertMET InputMET InputSHT ([], jetLog je)
       | _, _ => Some ([], jetLog je)
       end;
  Some (mkEventStore
          (colMCParticles gen) (colGenVertices gen)
          (colParticles mu) (ascColParticlesToMC mu)
          (colParticles el) (ascColParticlesToMC el)
          (colParticles ch) (ascColParticlesToMC ch)
          (colParticles ne) (ascColParticlesToMC ne)
          (colParticles ph) (ascColParticlesToMC ph)
          (colJets je) (ascColJetsToMC je)
          (colBTags je) (ascColJetsToBTags je)
          (colTauTags je) (ascColJetsToTauTags je)
          me.1 texts me.2).

End Execute.

(** ** Further notions used in the statements *)

Section FurtherNotions.
Context `{FM : FloatModel}.

(** The index a track is matched to: the one its first related candidate
    resolves to, when that lies inside the collection. *)
Definition trackIndex (pool : Pool) (size : nat) (cand : Candidate) : option Z :=
  refCand ← head (GetCandidates cand);
  if decide (0 ≤ refId (pool refCand) < Z.of_nat size)
  then Some (refId (pool refCand)) else None.

(** The jet made from a candidate, lines 833-841. *)
Definition jetOf (cand : Candidate) : GenJet :=
  mkGenJet (mkBareJet (int2float (-1))
              (mkP4 (narrow (Px (Momentum cand))) (narrow (Py (Momentum cand)))
                    (narrow (Pz (Momentum cand))) (Mass cand))).

(** The mother and daughter ranges stay inside the array of candidates. *)
Definition rangesInBounds (Input : list Candidate) : Prop :=
  ∀ j c, Input !! j = Some c →
    (M1 c ≠ -1 → ∀ m, M1 c ≤ m ≤ M2 c → 0 ≤ m < Z.of_nat (length Input))
    ∧ (D1 c ≠ -1 →
       0 ≤ D1 c < Z.of_nat (length Input)
       ∧ (M1 c ≠ -1 → ∀ d, D1 c ≤ d ≤ D2 c → d < Z.of_nat (length Input))).

(** Candidate [k] declares a decay and propagates its decay vertex to
    candidate [i]. *)
Definition listsDaughter (Input : list Candidate) (k i : nat) : Prop :=
  ∃ ck, Input !! k = Some ck ∧ D1 ck ≠ -1
        ∧ Z.of_nat i ∈ daughtersOf (primaryDaughters Input) ck k.

(** Candidate [i] has mothers and names candidate [k] as one of them. *)
Definition namesMother (Input : list Candidate) (i k : nat) : Prop :=
  ∃ ci, Input !! i = Some ci ∧ M1 ci ≠ -1 ∧ M1 ci ≤ Z.of_nat k ≤ M2 ci.

(** No relation of the event store is half filled, and every handle points
    into the collection it refers to. *)
Definition relationsValid (particles : list Particle)
    (relations : list ParticleMCParticleAssociation) (colMC : list MCParticle)
    (allowEmpty : bool) : Prop :=
  ∀ r, r ∈ relations →
    (allowEmpty = true ∧ Rec r = None ∧ Sim r = None)
    ∨ ∃ p s, Rec r = Some p ∧ Sim r = Some s
             ∧ (p < length particles)%nat ∧ (s < length colMC)%nat.

(** The number of entries of an array; a missing array has none. *)
Definition entries (array : option (list Candidate)) : nat :=
  match array with
  | Some Input => length Input
  | None => 0%nat
  end.

Definition jetRelationsValid (jets : list GenJet)
    (relations : list GenJetParticleAssociation) (colMC : list MCParticle) : Prop :=
  ∀ r, r ∈ relations →
    ∃ j s, mcJet r = Some j ∧ mcParticle r = Some s
           ∧ (j < length jets)%nat ∧ (s < length colMC)%nat.

Definition tagRelationsValid (jets : list GenJet) (tags : list Tag)
    (relations : list GenJetTagAssociation) : Prop :=
  ∀ r, r ∈ relations →
    ∃ j t, tagJet r = Some j ∧ tagTag r = Some t
           ∧ (j < length jets)%nat ∧ (t < length tags)%nat.

Definition vertexHandlesValid (particles : list MCParticle)
    (vertices : list GenVertex) : Prop :=
  ∀ p v, p ∈ particles → StartVertex p = Some v ∨ EndVertex p = Some v →
         (v < length vertices)%nat.

End FurtherNotions.

(** Reconstructed objects over [ex_two_beams]: 0 to 4 stand for the
    generated particles (index = position), 5 is a pass-through node above
    candidate 3, 6 and 7 are clusters or jet constituents, 8 has no related
    candidate; every other pointer points to a copy of candidate 0. *)
Definition ex_event_pool : Pool :=
  λ p, default (recCand 1 [])
         ([ recCand 1 []; recCand 2 []; recCand 3 []; recCand 4 []; recCand 5 [];
            recCand 100 [3%nat]; recCand 101 [3; 4]%nat; recCand 102 [5; 4]%nat;
            recCand 103 [] ] !! p).

(** A rank for [ex_event_pool]: the position in the list. *)
Definition ex_event_rank (p : ptr) : nat := if decide (p < 9)%nat then p else 0%nat.

Definition ex_arrays : DelphesArrays :=
  mkArrays (Some ex_two_beams)
    (Some [recCand 201 [3%nat]; recCand 202 []])
    None
    (Some [recCand 203 [4; 3]%nat])
    (Some [recCand 204 [6; 7]%nat])
    (Some [recCand 205 [8%nat]])
    (Some [recCand 206 [6; 8]%nat; recCand 207 [7%nat]])
    (Some [recCand 208 []])
    (Some [recCand 209 []]).

(** The same event with every track matched. *)
Definition ex_arrays_matched : DelphesArrays :=
  mkArrays (Some ex_two_beams)
    (Some [recCand 201 [3%nat]])
    None
    (Some [recCand 203 [4; 3]%nat])
    (Some [recCand 204 [6; 7]%nat])
    (Some [recCand 205 [8%nat]])
    (Some [recCand 206 [6; 8]%nat; recCand 207 [7%nat]])
    (Some [recCand 208 []])
    (Some [recCand 209 []]).

Definition ex_names : ArrayNames :=
  mkNames "muons" "electrons" "chargedHadrons" "eflowNeutralHadrons" "photons"
          "jets" "momentum" "energy".

(** The jets of [ex_arrays]. *)
Definition ex_jets : list Candidate :=
  [recCand 206 [6; 8]%nat; recCand 207 [7%nat]].

Definition noJets : JetOut := mkJetOut [] [] [] [] [] [] [].

(** A candidate whose mother range leaves the array. *)
Definition ex_mother_outside : list Candidate :=
  [genCand 0 5 (-1) (-1) 0 0 0 0 1].

(** * Properties *)

Section ForEach.
Context {A S : Type}.

Lemma for_each_app (f : A → S → option S) l1 l2 s :
  for_each f (l1 ++ l2) s = s' ← for_each f l1 s; for_each f l2 s'.
Proof.
  revert s. induction l1 as [|x l1 IH]; intros s; simpl; [done|].
  destruct (f x s) as [s1|]; simpl; [apply IH | done].
Qed.

Lemma for_each_mono (f g : A → S → option S) l s r :
  (∀ x s r, x ∈ l → f x s = Some r → g x s = Some r) →
  for_each f l s = Some r → for_each g l s = Some r.
Proof.
  revert s. induction l as [|x l IH]; intros s Hfg; simpl; [done|].
  destruct (f x s) as [s1|] eqn:Hf; simpl; [|done].
  rewrite (Hfg x s s1); [|left|done]. simpl.
  apply IH. intros y s' r' Hy. apply Hfg. by right.
Qed.

End ForEach.

Section Resolver.
Context `{FM : FloatModel}.
Variable pool : Pool.
Variable rangeMCPart : Z.

Lemma findJetPartMC_unfold fuel jetPart st :
  findJetPartMC (S fuel) pool jetPart rangeMCPart st =
    if decide (length (GetCandidates (pool jetPart)) = 0%nat)
    then Some (st.1, st.2 ++ [warnJet])
    else for_each
           (λ refCand st,
              if decide (refId (pool refCand) < rangeMCPart)
              then Some ({[refId (pool refCand)]} ∪ st.1, st.2)
              else findJetPartMC fuel pool refCand rangeMCPart st)
           (GetCandidates (pool jetPart)) st.
Proof. reflexivity. Qed.

(** More fuel does not change a result. *)
Lemma findJetPartMC_fuel_mono fuel fuel' jetPart st res :
  (fuel ≤ fuel')%nat →
  findJetPartMC fuel pool jetPart rangeMCPart st = Some res →
  findJetPartMC fuel' pool jetPart rangeMCPart st = Some res.
Proof.
  revert fuel' jetPart st res.
  induction fuel as [|fuel IH]; intros fuel' jetPart st res Hle; [done|].
  destruct fuel' as [|fuel']; [lia|].
  rewrite !findJetPartMC_unfold. case_decide; [done|].
  apply for_each_mono. intros q s r _.
  case_decide; [done|]. apply IH. lia.
Qed.

(** With fuel above the rank of the candidate, the resolver returns, and
    what it returns obeys the contract. *)
Lemma findJetPartMC_contract rank fuel jetPart st :
  acyclic pool rank →
  (rank jetPart < fuel)%nat →
  ∃ res, findJetPartMC fuel pool jetPart rangeMCPart st = Some res
         ∧ resolver_contract pool rangeMCPart jetPart st res.
Proof.
  intros Hacyc. revert jetPart st.
  induction fuel as [|fuel IH]; intros jetPart st Hrk; [lia|].
  rewrite findJetPartMC_unfold. case_decide as Hlen.
  - eexists; split; [done|]. apply contract_no_relation.
    by apply length_zero_iff_nil.
  - assert (Hsub : ∀ q, q ∈ GetCandidates (pool jetPart) → (rank q < fuel)%nat).
    { intros q Hq. specialize (Hacyc _ _ Hq). lia. }
    assert (Hne : GetCandidates (pool jetPart) ≠ []).
    { intros Hnil. by rewrite Hnil in Hlen. }
    cut (∃ res,
           for_each
             (λ refCand st,
                if decide (refId (pool refCand) < rangeMCPart)
                then Some ({[refId (pool refCand)]} ∪ st.1, st.2)
                else findJetPartMC fuel pool refCand rangeMCPart st)
             (GetCandidates (pool jetPart)) st = Some res
           ∧ resolver_contract_each pool rangeMCPart
               (GetCandidates (pool jetPart)) st res).
    { intros (res & Hrun & Hc). exists res. split; [done|].
      by apply contract_relations. }
    clear Hne Hlen. revert st Hsub.
    induction (GetCandidates (pool jetPart)) as [|q l IHl]; intros st Hsub.
    + exists st. split; [done | constructor].
    + simpl. case_decide as Hin.
      * destruct (IHl ({[refId (pool q)]} ∪ st.1, st.2)) as (res & Hrun & Hc).
        { intros q' Hq'. apply Hsub. by right. }
        exists res. split; [done|]. by apply contract_base.
      * destruct (IH q st) as (st1 & Hrun1 & Hc1).
        { apply Hsub. by left. }
        rewrite Hrun1. simpl.
        destruct (IHl st1) as (res & Hrun & Hc).
        { intros q' Hq'. apply Hsub. by right. }
        exists res. split; [done|]. by eapply contract_recurse.
Qed.

(** *** C4 *)

(** C4 : on an acyclic relation graph the recursive resolver terminates: for
    every candidate there is a result that it returns with any fuel above the
    candidate's rank. The result obeys the contract of the specification: for
    a candidate without related candidates it is the set unchanged and exactly
    one more warning; otherwise each related candidate either has its index
    added (index below the range) or is recursed into. *)
Theorem C4_findJetPartMC_terminates rank jetPart st :
  acyclic pool rank →
  ∃ res,
    (∀ fuel, (rank jetPart < fuel)%nat →
             findJetPartMC fuel pool jetPart rangeMCPart st = Some res)
    ∧ resolver_contract pool rangeMCPart jetPart st res
    ∧ (GetCandidates (pool jetPart) = [] → res = (st.1, st.2 ++ [warnJet])).
Proof.
  intros Hacyc.
  destruct (findJetPartMC_contract rank (S (rank jetPart)) jetPart st)
    as (res & Hrun & Hc); [done | lia |].
  exists res. split; [|split; [done|]].
  - intros fuel Hfuel. eapply findJetPartMC_fuel_mono; [|exact Hrun]. lia.
  - intros Hnil. rewrite findJetPartMC_unfold, Hnil in Hrun. simpl in Hrun.
    by inversion Hrun.
Qed.

(** Wrapping one direct link into a pass-through node, at the level of one
    constituent. *)
Lemma findJetPartMC_extra_hop fuel jetPart jetPart' hop gen before after st res :
  GetCandidates (pool jetPart) = before ++ gen :: after →
  GetCandidates (pool jetPart') = before ++ hop :: after →
  GetCandidates (pool hop) = [gen] →
  refId (pool gen) < rangeMCPart →
  ¬ refId (pool hop) < rangeMCPart →
  findJetPartMC fuel pool jetPart rangeMCPart st = Some res →
  findJetPartMC (S fuel) pool jetPart' rangeMCPart st = Some res.
Proof.
  intros Hrel Hrel' Hhop Hgen Hmid.
  destruct fuel as [|fuel]; [done|].
  rewrite !(findJetPartMC_unfold _ jetPart'), (findJetPartMC_unfold _ jetPart).
  rewrite Hrel, Hrel'.
  rewrite !decide_False by (rewrite length_app; simpl; lia).
  rewrite !for_each_app.
  destruct (for_each _ before st) as [s1|] eqn:Hpre; [|done].
  erewrite for_each_mono; [| |exact Hpre].
  2:{ intros q s r _. cbv beta. case_decide; [done|].
      apply findJetPartMC_fuel_mono. lia. }
  cbn [mbind option_bind for_each].
  rewrite (decide_True _ _ Hgen), (decide_False _ _ Hmid).
  rewrite findJetPartMC_unfold, Hhop.
  cbn [length for_each mbind option_bind].
  rewrite decide_False by done.
  rewrite (decide_True _ _ Hgen).
  cbn [mbind option_bind].
  apply for_each_mono. intros q s r _. cbv beta. case_decide; [done|].
  apply findJetPartMC_fuel_mono. lia.
Qed.

End Resolver.

Section ExtraHop.
Context `{FM : FloatModel}.
Variable pool : Pool.

(** *** C9 *)

(** C9 : the resolved indices do not change when a direct link from a jet
    constituent to a generated particle is wrapped in one pass-through node
    (a candidate outside the generated-particle range whose only relation is
    that generated particle): the resolver returns for the wrapped constituent
    what it returns for the original one, and so does the loop of
    [ConvertJets] over the constituents of the jet. *)
Theorem C9_extra_hop_same_indices size fuel jetPart jetPart' hop gen before after :
  GetCandidates (pool jetPart) = before ++ gen :: after →
  GetCandidates (pool jetPart') = before ++ hop :: after →
  GetCandidates (pool hop) = [gen] →
  refId (pool gen) < to_int (Z.of_nat size) →
  ¬ refId (pool hop) < to_int (Z.of_nat size) →
  (∀ st res,
     findJetPartMC fuel pool jetPart (to_int (Z.of_nat size)) st = Some res →
     findJetPartMC (S fuel) pool jetPart' (to_int (Z.of_nat size)) st = Some res)
  ∧ (∀ jet jet' cs1 cs2 st res,
       GetCandidates jet = cs1 ++ jetPart :: cs2 →
       GetCandidates jet' = cs1 ++ jetPart' :: cs2 →
       jetRefs fuel pool size jet st = Some res →
       jetRefs (S fuel) pool size jet' st = Some res).
Proof.
  intros Hrel Hrel' Hhop Hgen Hmid.
  assert (Hone : ∀ st res,
    findJetPartMC fuel pool jetPart (to_int (Z.of_nat size)) st = Some res →
    findJetPartMC (S fuel) pool jetPart' (to_int (Z.of_nat size)) st = Some res).
  { intros st res. by eapply findJetPartMC_extra_hop. }
  split; [exact Hone|].
  intros jet jet' cs1 cs2 st res Hjet Hjet'. unfold jetRefs.
  rewrite Hjet, Hjet', !for_each_app.
  destruct (for_each _ cs1 st) as [s1|] eqn:Hpre; [|done].
  erewrite for_each_mono; [| |exact Hpre].
  2:{ intros q s r _. cbv beta. apply findJetPartMC_fuel_mono. lia. }
  cbn [mbind option_bind for_each].
  destruct (findJetPartMC fuel pool jetPart _ s1) as [s2|] eqn:Hmidrun; [|done].
  rewrite (Hone _ _ Hmidrun). cbn [mbind option_bind].
  apply for_each_mono. intros q s r _. cbv beta.
  apply findJetPartMC_fuel_mono. lia.
Qed.

End ExtraHop.

(** ** Sets in iteration order *)

Lemma set_order_Permutation (s : gset Z) : set_order s ≡ₚ elements s.
Proof. apply merge_sort_Permutation. Qed.

Lemma set_order_elem_of (s : gset Z) x : x ∈ set_order s ↔ x ∈ s.
Proof. by rewrite set_order_Permutation, elem_of_elements. Qed.

Lemma set_order_NoDup (s : gset Z) : NoDup (set_order s).
Proof. rewrite set_order_Permutation. apply NoDup_elements. Qed.

Lemma set_order_length (s : gset Z) : length (set_order s) = size s.
Proof. by rewrite set_order_Permutation. Qed.

(** ** Bounds-checked accesses *)

Lemma zlookup_of_nat {A} (l : list A) (n : nat) : zlookup l (Z.of_nat n) = l !! n.
Proof. unfold zlookup. rewrite decide_True by lia. by rewrite Nat2Z.id. Qed.

Lemma zlookup_Some {A} (l : list A) i x :
  zlookup l i = Some x → 0 ≤ i < Z.of_nat (length l) ∧ l !! Z.to_nat i = Some x.
Proof.
  unfold zlookup. case_decide; [|done]. intros Hl. split; [|done].
  apply lookup_lt_Some in Hl. lia.
Qed.

Lemma zlookup_is_Some {A} (l : list A) i :
  0 ≤ i < Z.of_nat (length l) → is_Some (zlookup l i).
Proof.
  intros Hi. unfold zlookup. rewrite decide_True by lia.
  apply lookup_lt_is_Some_2. lia.
Qed.

(** ** Identifiers and the range test *)

Lemma to_int_range z : - 2 ^ 31 ≤ to_int z < 2 ^ 31.
Proof. unfold to_int. pose proof (Z.mod_pos_bound (z + 2 ^ 31) (2 ^ 32)). lia. Qed.

(** Both readings of the comparison agree with the mathematical range test
    on a collection that an [int] can index, except that the signed one lets
    negative identifiers through. *)
Lemma lt_size_spec ty id size :
  - 2 ^ 31 ≤ id < 2 ^ 31 →
  Z.of_nat size ≤ 2 ^ 31 →
  (ty = size_int → 0 ≤ id) →
  lt_size ty id size = bool_decide (0 ≤ id < Z.of_nat size).
Proof.
  intros Hid Hsize Hpos. unfold lt_size, to_unsigned. destruct ty.
  - specialize (Hpos eq_refl). apply bool_decide_ext. lia.
  - apply bool_decide_ext. destruct (decide (0 ≤ id)) as [Hnn|Hneg].
    + rewrite Z.mod_small by lia. lia.
    + replace id with (id + 2 ^ 32 - 1 * 2 ^ 32) by lia.
      rewrite Zminus_mod, Z_mod_mult, Z.sub_0_r, Z.mod_mod by lia.
      rewrite Z.mod_small by lia. lia.
Qed.

Section Reconstructed.
Context `{FM : FloatModel}.
Variable size_type : SizeType.
Variable msgDebug : bool.

(** ** [ConvertMET] *)

Lemma metLoop_unpaired InputSHT j rest colMET :
  metLoop false InputSHT j rest colMET = Some (colMET ++ (metOnly <$> rest)).
Proof.
  revert j colMET. induction rest as [|c rest IH]; intros j colMET; simpl.
  - by rewrite app_nil_r.
  - rewrite IH. by rewrite <- app_assoc.
Qed.

Lemma metLoop_paired done todo j rest colMET :
  length done = j →
  (length rest ≤ length todo)%nat →
  metLoop true (done ++ todo) j rest colMET
  = Some (colMET ++ zip_with metPaired rest todo).
Proof.
  revert done todo j colMET.
  induction rest as [|c rest IH]; intros done todo j colMET Hj Hlen; simpl.
  - by rewrite app_nil_r.
  - destruct todo as [|t todo]; simpl in Hlen; [lia|].
    unfold metStep. rewrite lookup_app_r by lia.
    replace (j - length done)%nat with 0%nat by lia. simpl.
    replace (done ++ t :: todo) with ((done ++ [t]) ++ todo)
      by (by rewrite <- app_assoc).
    rewrite IH; [|rewrite length_app; simpl; lia|lia].
    by rewrite <- app_assoc.
Qed.

(** C8 : [ConvertMET] always returns, with one output per missing-energy
    entry. When the two arrays differ in length every output has
    [ScalarSum = -1] and exactly one warning is logged for the event; when
    they have the same length nothing is logged and output [j] pairs entry
    [j] of the one array with entry [j] of the other. *)
Theorem C8_ConvertMET_pairing InputMET InputSHT out :
  ∃ colMET log,
    ConvertMET InputMET InputSHT out = Some (colMET, log)
    ∧ length colMET = (length out.1 + length InputMET)%nat
    ∧ (length InputMET ≠ length InputSHT →
         log = out.2 ++ [warnMET]
         ∧ colMET = out.1 ++ (metOnly <$> InputMET)
         ∧ ∀ j met, colMET !! (length out.1 + j)%nat = Some met →
                    ScalarSum met = int2float (-1))
    ∧ (length InputMET = length InputSHT →
         log = out.2
         ∧ colMET = out.1 ++ zip_with metPaired InputMET InputSHT
         ∧ ∀ j candMET candSHT,
             InputMET !! j = Some candMET → InputSHT !! j = Some candSHT →
             colMET !! (length out.1 + j)%nat = Some (metPaired candMET candSHT)).
Proof.
  unfold ConvertMET. case_bool_decide as Hlen.
  - rewrite (metLoop_paired [] InputSHT) by (simpl; lia).
    eexists _, _. split; [done|]. split; [|split; [done|]].
    + rewrite length_app, length_zip_with. lia.
    + intros _. split; [done|]. split; [done|].
      intros j candMET candSHT HM HS.
      rewrite lookup_app_r by lia.
      replace (length out.1 + j - length out.1)%nat with j by lia.
      rewrite lookup_zip_with, HM. simpl. by rewrite HS.
  - rewrite metLoop_unpaired.
    eexists _, _. split; [done|]. split; [|split; [|done]].
    + by rewrite length_app, length_fmap.
    + intros _. split; [done|]. split; [done|].
      intros j met. rewrite lookup_app_r by lia.
      replace (length out.1 + j - length out.1)%nat with j by lia.
      rewrite list_lookup_fmap. destruct (InputMET !! j); [|done].
      simpl. by intros [= <-].
Qed.

(** ** [ConvertTracks] *)

(** What one iteration appends: always one particle and one relation
    object; the relation is filled in the matched case only. An unmatched
    track gets through the debug block only when that block does not run. *)
Lemma trackStep_appends pool colMC cand out out' :
  trackStep size_type msgDebug pool colMC cand out = Some out' →
  ∃ bits relation,
    colParticles out' = colParticles out ++ [mkParticle (withBits (fillCore cand) bits)]
    ∧ ascColParticlesToMC out' = ascColParticlesToMC out ++ [relation]
    ∧ ((bits = kMatched
        ∧ trackLog out' = trackLog out
        ∧ ∃ refCand rest,
            GetCandidates cand = refCand :: rest
            ∧ lt_size size_type (refId (pool refCand)) (length colMC) = true
            ∧ is_Some (zlookup colMC (refId (pool refCand)))
            ∧ relation = mkAssoc (Some (length (colParticles out)))
                                 (Some (Z.to_nat (refId (pool refCand)))))
       ∨ (bits = kUnmatched
          ∧ trackLog out' = trackLog out ++ [warnTrack]
          ∧ relation = mkAssoc None None
          ∧ (GetCandidates cand = []
             ∨ ∃ refCand rest,
                 GetCandidates cand = refCand :: rest
                 ∧ lt_size size_type (refId (pool refCand)) (length colMC) = false)
          ∧ msgDebug = false)).
Proof.
  unfold trackStep, trackDebug. intros Hstep.
  destruct (GetCandidates cand) as [|refCand rest] eqn:Hrel.
  - destruct msgDebug; [discriminate Hstep|].
    injection Hstep as <-. exists kUnmatched, (mkAssoc None None). simpl. tauto.
  - destruct (lt_size _ _ _) eqn:Hlt.
    + destruct (zlookup colMC _) as [p|] eqn:Hat; [|discriminate Hstep].
      assert (Hout : out' = mkTrackOut
                (colParticles out ++ [mkParticle (withBits (fillCore cand) kMatched)])
                (ascColParticlesToMC out
                   ++ [mkAssoc (Some (length (colParticles out)))
                               (Some (Z.to_nat (refId (pool refCand))))])
                (trackLog out)).
      { destruct msgDebug; simpl in Hstep; by injection Hstep as <-. }
      subst out'. eexists kMatched, _. simpl.
      split; [done|]. split; [done|]. left. split; [done|]. split; [done|].
      exists refCand, rest. rewrite Hat. eauto.
    + destruct msgDebug; [discriminate Hstep|].
      injection Hstep as <-. exists kUnmatched, (mkAssoc None None). simpl.
      split; [done|]. split; [done|]. right. repeat split; eauto.
Qed.

(** Every track adds one relation object to the collection, matched or not. *)
Lemma ConvertTracks_lengths pool Input colMC out out' :
  ConvertTracks size_type msgDebug pool Input colMC out = Some out' →
  length (colParticles out') = (length (colParticles out) + length Input)%nat
  ∧ length (ascColParticlesToMC out')
    = (length (ascColParticlesToMC out) + length Input)%nat.
Proof.
  unfold ConvertTracks. revert out.
  induction Input as [|cand Input IH]; intros out; simpl.
  - intros [= <-]. lia.
  - destruct (trackStep _ _ _ _ _) as [out1|] eqn:Hstep; [|done]. simpl.
    intros Hrest. destruct (IH _ Hrest) as [-> ->].
    destruct (trackStep_appends _ _ _ _ _ Hstep) as (b & r & -> & -> & _).
    rewrite !length_app. simpl. lia.
Qed.

Lemma ConvertTracks_particles pool Input colMC out out' :
  ConvertTracks size_type msgDebug pool Input colMC out = Some out' →
  ∀ j cand, Input !! j = Some cand →
    ∃ bits, colParticles out' !! (length (colParticles out) + j)%nat
            = Some (mkParticle (withBits (fillCore cand) bits))
            ∧ (bits = kMatched ∨ bits = kUnmatched).
Proof.
  unfold ConvertTracks. revert out.
  induction Input as [|c Input IH]; intros out; simpl; [done|].
  destruct (trackStep _ _ _ _ _) as [out1|] eqn:Hstep; [|done]. simpl.
  intros Hrest j cand Hj.
  destruct (trackStep_appends _ _ _ _ _ Hstep) as (b & r & Hp & _ & Hb).
  destruct j as [|j]; simpl in Hj.
  - injection Hj as ->. exists b. split; [|tauto].
    destruct (ConvertTracks_lengths pool Input colMC out1 out' Hrest) as [Hl _].
    assert (Hpre : ∀ l (o : TrackOut),
              for_each (trackStep size_type msgDebug pool colMC) l o = Some out' →
              ∀ i x, colParticles o !! i = Some x → colParticles out' !! i = Some x).
    { clear. induction l as [|c l IHl]; intros o; simpl.
      - by intros [= <-].
      - destruct (trackStep _ _ _ _ _) as [o1|] eqn:Hs; [|done]. simpl.
        intros Hr i x Hi. apply (IHl _ Hr).
        destruct (trackStep_appends _ _ _ _ _ Hs) as (? & ? & -> & _).
        by apply lookup_app_l_Some. }
    apply (Hpre _ _ Hrest). rewrite Hp, Nat.add_0_r.
    by rewrite lookup_app_r, Nat.sub_diag.
  - destruct (IH _ Hrest j cand Hj) as (bits & Hl & Hbits).
    exists bits. split; [|done]. rewrite <- Hl. f_equal.
    rewrite Hp, length_app. simpl. lia.
Qed.

(** ** [ConvertTowers] *)

Lemma towerRefs_inner (pool : Pool) size (refs : list ptr) (st : gset Z * list string) :
  (∀ ref, ref ∈ refs →
     lt_size size_type (refId (pool ref)) size
     = bool_decide (0 ≤ refId (pool ref) < Z.of_nat size)) →
  foldl (λ st refCand,
           let id := refId (pool refCand) in
           if lt_size size_type id size then ({[id]} ∪ st.1, st.2)
           else (st.1, st.2 ++ [warnTower]))
        st refs
  = (list_to_set (filter (λ id, 0 ≤ id < Z.of_nat size)
                    ((λ r, refId (pool r)) <$> refs)) ∪ st.1,
     st.2 ++ replicate
               (length (filter (λ id, ¬ 0 ≤ id < Z.of_nat size)
                          ((λ r, refId (pool r)) <$> refs)))
               warnTower).
Proof.
  revert st. induction refs as [|r refs IH]; intros st Hagree.
  - simpl. rewrite app_nil_r. destruct st as [ids log]. simpl. f_equal.
    set_solver.
  - cbn [foldl]. rewrite IH by (intros ref Href; apply Hagree; by right).
    cbv zeta. rewrite (Hagree r) by left. rewrite fmap_cons.
    case_bool_decide as Hin.
    + rewrite filter_cons_True by done.
      rewrite filter_cons_False by tauto. simpl. f_equal. set_solver.
    + rewrite filter_cons_False by done.
      rewrite filter_cons_True by done. simpl. f_equal.
      rewrite <- app_assoc. done.
Qed.

Lemma towerRefs_spec (pool : Pool) size cand (st : gset Z * list string) :
  (∀ ref, ref ∈ towerRefCands pool cand →
     lt_size size_type (refId (pool ref)) size
     = bool_decide (0 ≤ refId (pool ref) < Z.of_nat size)) →
  towerRefs size_type pool size cand st
  = (towerIds pool size cand ∪ st.1,
     st.2 ++ replicate (towerSkipped pool size cand) warnTower).
Proof.
  unfold towerRefs, towerIds, towerSkipped, towerResolved, towerRefCands.
  revert st. induction (GetCandidates cand) as [|cls clusters IH]; intros st Hagree.
  - simpl. rewrite app_nil_r. destruct st as [ids log]. simpl. f_equal.
    set_solver.
  - cbn [foldl]. rewrite IH.
    2:{ intros ref Href. apply Hagree. rewrite bind_cons.
        apply elem_of_app. by right. }
    rewrite towerRefs_inner.
    2:{ intros ref Href. apply Hagree. rewrite bind_cons.
        apply elem_of_app. by left. }
    rewrite bind_cons, fmap_app, !filter_app, list_to_set_app_L, length_app.
    rewrite replicate_add. simpl. f_equal; [set_solver|].
    by rewrite <- app_assoc.
Qed.

Lemma saveRelations_spec (colMC : list MCParticle) particle (ids : list Z) asc :
  (∀ id, id ∈ ids → 0 ≤ id < Z.of_nat (length colMC)) →
  saveRelations colMC particle ids asc
  = Some (asc ++ ((λ id, mkAssoc (Some particle) (Some (Z.to_nat id))) <$> ids)).
Proof.
  unfold saveRelations. revert asc.
  induction ids as [|id ids IH]; intros asc Hin; cbn [for_each fmap list_fmap].
  - by rewrite app_nil_r.
  - destruct (zlookup_is_Some colMC id) as [p ->]; [apply Hin; left|].
    cbn [mbind option_bind]. rewrite IH by (intros i Hi; apply Hin; by right).
    by rewrite <- app_assoc.
Qed.

Lemma towerStep_spec pool colMC cand out :
  (∀ ref, ref ∈ towerRefCands pool cand →
     lt_size size_type (refId (pool ref)) (length colMC)
     = bool_decide (0 ≤ refId (pool ref) < Z.of_nat (length colMC))) →
  towerStep size_type pool colMC cand out
  = Some (mkTrackOut
            (colParticles out ++ [mkParticle (fillCore cand)])
            (ascColParticlesToMC out
               ++ towerRelations pool (length colMC) (length (colParticles out)) cand)
            (trackLog out
               ++ replicate (towerSkipped pool (length colMC) cand) warnTower)).
Proof.
  intros Hagree. unfold towerStep. rewrite towerRefs_spec by done. simpl.
  rewrite union_empty_r_L, saveRelations_spec; [done|].
  intros id. rewrite set_order_elem_of. unfold towerIds.
  rewrite elem_of_list_to_set, list_elem_of_filter. tauto.
Qed.

Lemma towerStep_particle pool colMC cand out out' :
  towerStep size_type pool colMC cand out = Some out' →
  colParticles out' = colParticles out ++ [mkParticle (fillCore cand)].
Proof.
  unfold towerStep. destruct (saveRelations _ _ _ _) as [asc|]; [|done].
  by intros [= <-].
Qed.

(** The tower converter stores the core as [fillCore] leaves it. *)
Lemma ConvertTowers_particles pool Input colMC out out' :
  ConvertTowers size_type pool Input colMC out = Some out' →
  colParticles out' = colParticles out ++ ((λ cand, mkParticle (fillCore cand)) <$> Input).
Proof.
  unfold ConvertTowers. revert out.
  induction Input as [|cand Input IH]; intros out; simpl.
  - intros [= <-]. by rewrite app_nil_r.
  - destruct (towerStep _ _ _ _ _) as [out1|] eqn:Hstep; [|done]. simpl.
    intros Hrest. rewrite (IH _ Hrest), (towerStep_particle _ _ _ _ _ Hstep).
    by rewrite <- app_assoc.
Qed.

Lemma towerIds_elem_of (pool : Pool) size cand id :
  id ∈ towerIds pool size cand
  ↔ ∃ clsCand refCand,
      clsCand ∈ GetCandidates cand
      ∧ refCand ∈ GetCandidates (pool clsCand)
      ∧ id = refId (pool refCand)
      ∧ 0 ≤ id < Z.of_nat size.
Proof.
  unfold towerIds, towerResolved, towerRefCands.
  rewrite elem_of_list_to_set, list_elem_of_filter, list_elem_of_fmap.
  split.
  - intros (Hin & r & -> & Hr). apply list_elem_of_bind in Hr as (c & Hr & Hc).
    by exists c, r.
  - intros (c & r & Hc & Hr & -> & Hin). split; [done|].
    exists r. split; [done|]. apply list_elem_of_bind. by exists c.
Qed.

Lemma towerRelations_NoDup (pool : Pool) size particle cand :
  NoDup (Sim <$> towerRelations pool size particle cand).
Proof.
  unfold towerRelations. rewrite <- list_fmap_compose.
  apply NoDup_fmap_2_strong; [|apply set_order_NoDup].
  intros x y Hx Hy. simpl. intros [= Hxy].
  apply set_order_elem_of, towerIds_elem_of in Hx as (? & ? & ? & ? & ? & Hx).
  apply set_order_elem_of, towerIds_elem_of in Hy as (? & ? & ? & ? & ? & Hy).
  lia.
Qed.

(** C6 : the tower converter never faults and emits one particle per entry.
    The relations it appends for an entry are one per element of the set of
    generated-particle indices reached through exactly one cluster hop, so no
    index is repeated for a tower; every resolved index outside the collection
    is skipped with one warning. (When [size()] is signed, a negative
    identifier passes the test of line 763; identifiers are then taken from 1
    upwards, as Delphes numbers them.) *)
Theorem C6_ConvertTowers_deduplicated pool Input colMC out :
  Z.of_nat (length colMC) ≤ 2 ^ 31 →
  (size_type = size_int →
   ∀ cand refCand, cand ∈ Input → refCand ∈ towerRefCands pool cand →
                   0 ≤ refId (pool refCand)) →
  ∃ out',
    ConvertTowers size_type pool Input colMC out = Some out'
    ∧ colParticles out'
      = colParticles out ++ ((λ cand, mkParticle (fillCore cand)) <$> Input)
    ∧ ascColParticlesToMC out'
      = ascColParticlesToMC out
        ++ concat (imap (λ j cand,
                           towerRelations pool (length colMC)
                             (length (colParticles out) + j) cand) Input)
    ∧ trackLog out'
      = trackLog out
        ++ concat ((λ cand, replicate (towerSkipped pool (length colMC) cand) warnTower)
                     <$> Input)
    ∧ ∀ cand particle,
        NoDup (Sim <$> towerRelations pool (length colMC) particle cand)
        ∧ length (towerRelations pool (length colMC) particle cand)
          = size (towerIds pool (length colMC) cand)
        ∧ ∀ id, id ∈ towerIds pool (length colMC) cand
                ↔ ∃ clsCand refCand,
                    clsCand ∈ GetCandidates cand
                    ∧ refCand ∈ GetCandidates (pool clsCand)
                    ∧ id = refId (pool refCand)
                    ∧ 0 ≤ id < Z.of_nat (length colMC).
Proof.
  intros Hsize Hids.
  cut (∃ out',
    ConvertTowers size_type pool Input colMC out = Some out'
    ∧ colParticles out'
      = colParticles out ++ ((λ cand, mkParticle (fillCore cand)) <$> Input)
    ∧ ascColParticlesToMC out'
      = ascColParticlesToMC out
        ++ concat (imap (λ j cand,
                           towerRelations pool (length colMC)
                             (length (colParticles out) + j) cand) Input)
    ∧ trackLog out'
      = trackLog out
        ++ concat ((λ cand, replicate (towerSkipped pool (length colMC) cand) warnTower)
                     <$> Input)).
  { intros (out' & H1 & H2 & H3 & H4). exists out'. repeat (split; [done|]).
    intros cand particle. split; [apply towerRelations_NoDup|].
    split; [|apply towerIds_elem_of].
    unfold towerRelations. by rewrite length_fmap, set_order_length. }
  unfold ConvertTowers. revert out Hids.
  induction Input as [|cand Input IH]; intros out Hids.
  - exists out. simpl. by rewrite !app_nil_r.
  - cbn [for_each]. rewrite towerStep_spec.
    2:{ intros ref Href. apply lt_size_spec; [apply to_int_range|done|].
        intros Hty. eapply Hids; [done|left|done]. }
    cbn [mbind option_bind].
    edestruct IH as (out' & Hrun & Hp & Ha & Hl).
    2:{ exists out'. split; [exact Hrun|]. rewrite Hp, Ha, Hl. simpl.
        rewrite <- !app_assoc. repeat split.
        rewrite Nat.add_0_r. do 2 f_equal. f_equal.
        apply imap_ext. intros j c _. simpl. f_equal.
        rewrite length_app. simpl. lia. }
    intros Hty c r Hc Hr. eapply Hids; [done|by right|done].
Qed.

End Reconstructed.

(** ** [ConvertMCParticles]: the slot propagation *)

Lemma zupdate_length {A} (l : list A) i x : length (zupdate l i x) = length l.
Proof. unfold zupdate. case_decide; [apply length_insert | done]. Qed.

Lemma zupdate_lookup {A} (l : list A) (i : Z) (k : nat) x y :
  l !! k = Some y →
  zupdate l i x !! k = Some (if decide (Z.of_nat k = i) then x else y).
Proof.
  intros Hk. unfold zupdate. case_decide as Hi.
  - destruct (decide (Z.of_nat k = i)) as [<-|Hne].
    + rewrite Nat2Z.id. apply list_lookup_insert_eq. by eapply lookup_lt_Some.
    + rewrite list_lookup_insert_ne by lia. done.
  - rewrite decide_False by lia. done.
Qed.

Section Propagation.
Variable j : Z.
Hypothesis j_index : j ≠ -1.

(** A mother receives [j] as its end slot when that slot is unset, and is
    left alone otherwise; the loop faults on a mother outside the vector. *)
Lemma propagateMothers_spec mothers (vec vec' : list (Z * Z)) :
  propagateMothers j mothers vec = Some vec' →
  length vec' = length vec
  ∧ ∀ i s, vec !! i = Some s →
      vec' !! i
      = Some (s.1, if decide (s.2 = -1 ∧ Z.of_nat i ∈ mothers) then j else s.2).
Proof.
  unfold propagateMothers. revert vec.
  induction mothers as [|m mothers IH]; intros vec; cbn [for_each].
  - intros [= <-]. split; [done|]. intros i [s1 s2] Hi. rewrite Hi.
    rewrite decide_False; [done|]. rewrite elem_of_nil. tauto.
  - destruct (zlookup vec m) as [slot|] eqn:Hm; [|done].
    cbn [mbind option_bind]. intros Hrest.
    apply zlookup_Some in Hm as [Hbound Hm].
    destruct (IH _ Hrest) as [Hlen Hslots]. split.
    { rewrite Hlen. case_decide; [apply zupdate_length | done]. }
    intros i s Hi.
    pose proof (elem_of_cons mothers (Z.of_nat i) m) as Hc.
    destruct (decide (slot.2 = -1)) as [Hunset|Hset].
    + erewrite Hslots; [|by apply zupdate_lookup]. cbn [fst snd].
      destruct (decide (Z.of_nat i = m)) as [<-|Hne]; cbn [fst snd].
      * rewrite Nat2Z.id, Hi in Hm. injection Hm as <-.
        rewrite (decide_False (P := j = -1 ∧ _)) by tauto.
        rewrite decide_True by tauto. done.
      * f_equal. f_equal. apply decide_ext. tauto.
    + erewrite Hslots; [|done]. f_equal. f_equal.
      destruct (decide (Z.of_nat i = m)) as [<-|Hne].
      * rewrite Nat2Z.id, Hi in Hm. injection Hm as <-.
        rewrite !decide_False by tauto. done.
      * apply decide_ext. tauto.
Qed.

(** The same for the start slot of a daughter; negative daughters are
    skipped. *)
Lemma propagateDaughters_spec daughters (vec vec' : list (Z * Z)) :
  propagateDaughters j daughters vec = Some vec' →
  length vec' = length vec
  ∧ ∀ i s, vec !! i = Some s →
      vec' !! i
      = Some (if decide (s.1 = -1 ∧ Z.of_nat i ∈ daughters) then j else s.1, s.2).
Proof.
  unfold propagateDaughters. revert vec.
  induction daughters as [|d daughters IH]; intros vec; cbn [for_each].
  - intros [= <-]. split; [done|]. intros i [s1 s2] Hi. rewrite Hi.
    rewrite decide_False; [done|]. rewrite elem_of_nil. tauto.
  - destruct (decide (0 ≤ d)) as [Hd|Hd].
    + destruct (zlookup vec d) as [slot|] eqn:Hm; [|done].
      cbn [mbind option_bind]. intros Hrest.
      apply zlookup_Some in Hm as [Hbound Hm].
      destruct (IH _ Hrest) as [Hlen Hslots]. split.
      { rewrite Hlen. case_decide; [apply zupdate_length | done]. }
      intros i s Hi.
      pose proof (elem_of_cons daughters (Z.of_nat i) d) as Hc.
      destruct (decide (slot.1 = -1)) as [Hunset|Hset].
      * erewrite Hslots; [|by apply zupdate_lookup]. cbn [fst snd].
        destruct (decide (Z.of_nat i = d)) as [<-|Hne]; cbn [fst snd].
        -- rewrite Nat2Z.id, Hi in Hm. injection Hm as <-.
           rewrite (decide_False (P := j = -1 ∧ _)) by tauto.
           rewrite decide_True by tauto. done.
        -- f_equal. f_equal. apply decide_ext. tauto.
      * erewrite Hslots; [|done]. f_equal. f_equal.
        destruct (decide (Z.of_nat i = d)) as [<-|Hne].
        -- rewrite Nat2Z.id, Hi in Hm. injection Hm as <-.
           rewrite !decide_False by tauto. done.
        -- apply decide_ext. tauto.
    + cbn [mbind option_bind]. intros Hrest.
      destruct (IH _ Hrest) as [Hlen Hslots]. split; [done|].
      intros i s Hi. rewrite (Hslots _ _ Hi). f_equal. f_equal.
      pose proof (elem_of_cons daughters (Z.of_nat i) d) as Hc.
      apply decide_ext. split; [tauto|].
      intros [Hs [Heq|Hin]%Hc]; [lia | tauto].
Qed.

End Propagation.

Lemma alter_last {A} (f : A → A) (init : list A) (x : A) :
  alter f (length init) (init ++ [x]) = init ++ [f x].
Proof.
  pose proof (alter_app_r f init [x] 0) as H.
  by rewrite Nat.add_0_r in H.
Qed.

Lemma elem_of_int_range x lo hi : x ∈ int_range lo hi ↔ lo ≤ x ≤ hi.
Proof. unfold int_range. rewrite elem_of_seqZ. lia. Qed.

Section MCStep.
Context `{FM : FloatModel}.
Variable Input : list Candidate.
Variable prim : gset Z * gset Z.

Lemma productionVertex_spec j cand st0 st1 init p0 s :
  productionVertex j cand st0 = Some st1 →
  colMCParticles st0 = init ++ [p0] →
  length init = j →
  vecPartProdVtxIDDecVtxID st0 !! j = Some s →
  ∃ p1 newStart,
    colMCParticles st1 = init ++ [p1]
    ∧ colGenVertices st1 = colGenVertices st0 ++ newStart
    ∧ ((M1 cand = -1 ∧ p1 = p0 ∧ newStart = [])
       ∨ (M1 cand ≠ -1 ∧ s.1 ≠ -1 ∧ newStart = []
          ∧ ∃ p, zlookup (init ++ [p0]) s.1 = Some p
                 ∧ p1 = setStartVertex (EndVertex p) p0)
       ∨ (M1 cand ≠ -1 ∧ s.1 = -1
          ∧ newStart = [mkGenVertex (candPoint cand) (narrow (E (Position cand)))]
          ∧ p1 = setStartVertex (Some (length (colGenVertices st0))) p0))
    ∧ length (vecPartProdVtxIDDecVtxID st1) = length (vecPartProdVtxIDDecVtxID st0)
    ∧ ∀ i si, vecPartProdVtxIDDecVtxID st0 !! i = Some si →
        vecPartProdVtxIDDecVtxID st1 !! i
        = Some (if decide (M1 cand ≠ -1 ∧ i = j ∧ si.1 = -1) then Z.of_nat j else si.1,
                if decide (M1 cand ≠ -1 ∧ si.2 = -1
                           ∧ M1 cand ≤ Z.of_nat i ≤ M2 cand)
                then Z.of_nat j else si.2).
Proof.
  unfold productionVertex. intros Hrun Hparts Hlen Hs. subst j.
  destruct (decide (M1 cand ≠ -1)) as [HM|HM].
  - rewrite Hs in Hrun. cbn [mbind option_bind] in Hrun.
    destruct (decide (s.1 ≠ -1)) as [Hset|Hunset].
    + destruct (zlookup (colMCParticles st0) s.1) as [p|] eqn:Hp; [|done].
      cbn [mbind option_bind colMCParticles colGenVertices vecPartProdVtxIDDecVtxID] in Hrun.
      destruct (propagateMothers _ _ _) as [vec|] eqn:Hprop; [|done].
      injection Hrun as <-.
      apply propagateMothers_spec in Hprop as [Hl Hslots]; [|lia].
      exists (setStartVertex (EndVertex p) p0), [].
      cbn [colMCParticles colGenVertices vecPartProdVtxIDDecVtxID].
      rewrite Hparts, alter_last, app_nil_r.
      split; [done|]. split; [done|]. split.
      { right. left. split; [done|]. split; [done|]. split; [done|].
        exists p. by rewrite <- Hparts. }
      split; [done|]. intros i si Hi. rewrite (Hslots _ _ Hi).
      f_equal. f_equal.
      * rewrite decide_False; [done|]. intros (_ & -> & Hu).
        rewrite Hs in Hi. injection Hi as ->. done.
      * apply decide_ext. rewrite elem_of_int_range. tauto.
    + cbn [mbind option_bind colMCParticles colGenVertices vecPartProdVtxIDDecVtxID] in Hrun.
      destruct (propagateMothers _ _ _) as [vec|] eqn:Hprop; [|done].
      injection Hrun as <-.
      apply propagateMothers_spec in Hprop as [Hl Hslots]; [|lia].
      eexists (setStartVertex (Some (length (colGenVertices st0))) p0), _.
      cbn [colMCParticles colGenVertices vecPartProdVtxIDDecVtxID].
      rewrite Hparts, alter_last.
      split; [done|]. split; [done|]. split.
      { right. right. split; [done|]. split; [|done].
        destruct (decide (s.1 = -1)); [done|tauto]. }
      rewrite Hl, length_insert. split; [done|].
      intros i si Hi.
      destruct (decide (i = length init)) as [->|Hne].
      * rewrite Hs in Hi. injection Hi as ->.
        erewrite Hslots; [|apply list_lookup_insert_eq;
                           by eapply lookup_lt_Some].
        cbn [fst snd]. f_equal. f_equal.
        -- rewrite decide_True; [done|].
           destruct (decide (si.1 = -1)); tauto.
        -- apply decide_ext. rewrite elem_of_int_range. tauto.
      * erewrite Hslots; [|by rewrite list_lookup_insert_ne].
        f_equal. f_equal.
        -- rewrite decide_False; [done|]. tauto.
        -- apply decide_ext. rewrite elem_of_int_range. tauto.
  - injection Hrun as <-. exists p0, []. rewrite app_nil_r.
    split; [done|]. split; [done|]. split.
    { left. split; [|done]. destruct (decide (M1 cand = -1)); tauto. }
    split; [done|]. intros i [s1 s2] Hi. rewrite Hi.
    rewrite !decide_False by tauto. done.
Qed.

Lemma decayVertex_spec j cand st1 st2 init p1 s :
  decayVertex Input prim j cand st1 = Some st2 →
  colMCParticles st1 = init ++ [p1] →
  length init = j →
  vecPartProdVtxIDDecVtxID st1 !! j = Some s →
  ∃ p2 newEnd,
    colMCParticles st2 = init ++ [p2]
    ∧ colGenVertices st2 = colGenVertices st1 ++ newEnd
    ∧ ((D1 cand = -1 ∧ p2 = p1 ∧ newEnd = [])
       ∨ (D1 cand ≠ -1 ∧ s.2 ≠ -1 ∧ newEnd = []
          ∧ ∃ p, zlookup (init ++ [p1]) s.2 = Some p
                 ∧ p2 = setEndVertex (StartVertex p) p1)
       ∨ (D1 cand ≠ -1 ∧ s.2 = -1
          ∧ ∃ daughter,
              zlookup Input (D1 cand) = Some daughter
              ∧ newEnd = [mkGenVertex (candPoint daughter)
                            (narrow (E (Position cand)))]
              ∧ p2 = setEndVertex (Some (length (colGenVertices st1))) p1))
    ∧ length (vecPartProdVtxIDDecVtxID st2) = length (vecPartProdVtxIDDecVtxID st1)
    ∧ ∀ i si, vecPartProdVtxIDDecVtxID st1 !! i = Some si →
        vecPartProdVtxIDDecVtxID st2 !! i
        = Some (if decide (D1 cand ≠ -1 ∧ si.1 = -1
                           ∧ Z.of_nat i ∈ daughtersOf prim cand j)
                then Z.of_nat j else si.1,
                if decide (D1 cand ≠ -1 ∧ i = j ∧ si.2 = -1) then D1 cand else si.2).
Proof.
  unfold decayVertex. intros Hrun Hparts Hlen Hs.
  destruct (decide (D1 cand ≠ -1)) as [HD|HD].
  - rewrite Hs in Hrun. cbn [mbind option_bind] in Hrun.
    assert (Hdau : ∀ vec,
      (if decide (M1 cand = -1) then
         if decide (j = 0%nat) then propagateDaughters (Z.of_nat j) (set_order prim.1) vec
         else if decide (j = 1%nat) then propagateDaughters (Z.of_nat j) (set_order prim.2) vec
         else Some vec
       else propagateDaughters (Z.of_nat j) (int_range (D1 cand) (D2 cand)) vec)
      = propagateDaughters (Z.of_nat j) (daughtersOf prim cand j) vec).
    { intros vec. unfold daughtersOf. repeat case_decide; done. }
    subst j.
    destruct (decide (s.2 ≠ -1)) as [Hset|Hunset].
    + destruct (zlookup (colMCParticles st1) s.2) as [p|] eqn:Hp; [|done].
      cbn [mbind option_bind colMCParticles colGenVertices vecPartProdVtxIDDecVtxID] in Hrun.
      rewrite Hdau in Hrun.
      destruct (propagateDaughters _ _ _) as [vec|] eqn:Hprop; [|done].
      injection Hrun as <-.
      apply propagateDaughters_spec in Hprop as [Hl Hslots]; [|lia].
      exists (setEndVertex (StartVertex p) p1), [].
      cbn [colMCParticles colGenVertices vecPartProdVtxIDDecVtxID].
      rewrite Hparts, alter_last, app_nil_r.
      split; [done|]. split; [done|]. split.
      { right. left. split; [done|]. split; [done|]. split; [done|].
        exists p. by rewrite <- Hparts. }
      split; [done|]. intros i si Hi. rewrite (Hslots _ _ Hi).
      f_equal. f_equal.
      * apply decide_ext. tauto.
      * rewrite decide_False; [done|]. intros (_ & -> & Hu).
        rewrite Hs in Hi. injection Hi as ->. done.
    + destruct (zlookup Input (D1 cand)) as [daughter|] eqn:Hd; [|done].
      cbn [mbind option_bind colMCParticles colGenVertices vecPartProdVtxIDDecVtxID] in Hrun.
      rewrite Hdau in Hrun.
      destruct (propagateDaughters _ _ _) as [vec|] eqn:Hprop; [|done].
      injection Hrun as <-.
      apply propagateDaughters_spec in Hprop as [Hl Hslots]; [|lia].
      eexists (setEndVertex (Some (length (colGenVertices st1))) p1), _.
      cbn [colMCParticles colGenVertices vecPartProdVtxIDDecVtxID].
      rewrite Hparts, alter_last.
      split; [done|]. split; [done|]. split.
      { right. right. split; [done|]. split.
        - destruct (decide (s.2 = -1)); [done|tauto].
        - by exists daughter. }
      rewrite Hl, length_insert. split; [done|].
      intros i si Hi.
      destruct (decide (i = length init)) as [->|Hne].
      * rewrite Hs in Hi. injection Hi as ->.
        erewrite Hslots; [|apply list_lookup_insert_eq;
                           by eapply lookup_lt_Some].
        cbn [fst snd]. f_equal. f_equal.
        -- apply decide_ext. tauto.
        -- rewrite decide_True; [done|].
           destruct (decide (si.2 = -1)); tauto.
      * erewrite Hslots; [|by rewrite list_lookup_insert_ne].
        f_equal. f_equal.
        -- apply decide_ext. tauto.
        -- rewrite decide_False; [done|]. tauto.
  - subst j. injection Hrun as <-. exists p1, []. rewrite app_nil_r.
    split; [done|]. split; [done|]. split.
    { left. split; [|done]. destruct (decide (D1 cand = -1)); tauto. }
    split; [done|]. intros i [s1 s2] Hi. rewrite Hi.
    rewrite !decide_False by tauto. done.
Qed.

Lemma slotAfterVisit_first_writer cand j i si :
  (si.1 ≠ -1 → (slotAfterVisit prim cand j i si).1 = si.1)
  ∧ (si.2 ≠ -1 → (slotAfterVisit prim cand j i si).2 = si.2).
Proof.
  unfold slotAfterVisit, slotAfterDecay, slotAfterProduction. simpl.
  split; intros Hset; repeat case_decide; tauto.
Qed.

Lemma slotAfterVisit_first cand j i si :
  si.1 = -1 →
  (slotAfterVisit prim cand j i si).1 = -1
  ∨ ((slotAfterVisit prim cand j i si).1 = Z.of_nat j
     ∧ ((i = j ∧ M1 cand ≠ -1)
        ∨ (D1 cand ≠ -1 ∧ Z.of_nat i ∈ daughtersOf prim cand j))).
Proof.
  unfold slotAfterVisit, slotAfterDecay, slotAfterProduction. simpl.
  intros Hunset. repeat case_decide; tauto.
Qed.

Lemma slotAfterVisit_second cand j i si :
  si.2 = -1 →
  (slotAfterVisit prim cand j i si).2 = -1
  ∨ ((slotAfterVisit prim cand j i si).2 = Z.of_nat j
     ∧ M1 cand ≠ -1 ∧ M1 cand ≤ Z.of_nat i ≤ M2 cand)
  ∨ ((slotAfterVisit prim cand j i si).2 = D1 cand ∧ D1 cand ≠ -1 ∧ i = j).
Proof.
  unfold slotAfterVisit, slotAfterDecay, slotAfterProduction. simpl.
  intros Hunset. repeat case_decide; tauto.
Qed.

(** The visit of candidate [j], as a whole. [s] is the slot pair of [j] when
    the visit starts. *)
Lemma mcStep_spec j st st' :
  mcStep Input prim j st = Some st' →
  length (colMCParticles st) = j →
  length (vecPartProdVtxIDDecVtxID st) = length Input →
  ∃ cand s p newStart newEnd,
    Input !! j = Some cand
    ∧ vecPartProdVtxIDDecVtxID st !! j = Some s
    ∧ colMCParticles st' = colMCParticles st ++ [p]
    ∧ Core p = withBits (fillCore cand) (mcBits cand)
    ∧ colGenVertices st' = colGenVertices st ++ newStart ++ newEnd
    ∧ ((M1 cand = -1 ∧ StartVertex p = None ∧ newStart = [])
       ∨ (M1 cand ≠ -1 ∧ s.1 ≠ -1 ∧ newStart = []
          ∧ ∃ q, zlookup (colMCParticles st
                            ++ [mkMCParticle (withBits (fillCore cand) (mcBits cand))
                                  None None]) s.1 = Some q
                 ∧ StartVertex p = EndVertex q)
       ∨ (M1 cand ≠ -1 ∧ s.1 = -1
          ∧ newStart = [mkGenVertex (candPoint cand) (narrow (E (Position cand)))]
          ∧ StartVertex p = Some (length (colGenVertices st))))
    ∧ ((D1 cand = -1 ∧ EndVertex p = None ∧ newEnd = [])
       ∨ (D1 cand ≠ -1 ∧ (slotAfterProduction cand j j s).2 ≠ -1 ∧ newEnd = []
          ∧ ∃ q, zlookup (colMCParticles st
                            ++ [mkMCParticle (withBits (fillCore cand) (mcBits cand))
                                  (StartVertex p) None])
                         (slotAfterProduction cand j j s).2 = Some q
                 ∧ EndVertex p = StartVertex q)
       ∨ (D1 cand ≠ -1 ∧ (slotAfterProduction cand j j s).2 = -1
          ∧ ∃ daughter,
              zlookup Input (D1 cand) = Some daughter
              ∧ newEnd = [mkGenVertex (candPoint daughter)
                            (narrow (E (Position cand)))]
              ∧ EndVertex p = Some (length (colGenVertices st ++ newStart))))
    ∧ length (vecPartProdVtxIDDecVtxID st') = length (vecPartProdVtxIDDecVtxID st)
    ∧ ∀ i si, vecPartProdVtxIDDecVtxID st !! i = Some si →
        vecPartProdVtxIDDecVtxID st' !! i = Some (slotAfterVisit prim cand j i si).
Proof.
  unfold mcStep. intros Hrun Hlen Hvec.
  destruct (Input !! j) as [cand|] eqn:Hcand; [|done].
  cbn [mbind option_bind] in Hrun.
  destruct (productionVertex _ _ _) as [st1|] eqn:Hprod; [|done].
  cbn [mbind option_bind] in Hrun.
  destruct (lookup_lt_is_Some_2 (vecPartProdVtxIDDecVtxID st) j) as [s Hs].
  { rewrite Hvec. by eapply lookup_lt_Some. }
  eapply (productionVertex_spec _ _ _ _ (colMCParticles st)) in Hprod
    as (p1 & newStart & Hp1 & Hv1 & Hcase1 & Hl1 & Hslots1);
    [|done|done|exact Hs].
  cbn [colGenVertices vecPartProdVtxIDDecVtxID] in Hv1, Hl1, Hslots1.
  eapply (decayVertex_spec _ _ _ _ (colMCParticles st)) in Hrun
    as (p2 & newEnd & Hp2 & Hv2 & Hcase2 & Hl2 & Hslots2);
    [|exact Hp1|done|by apply Hslots1].
  exists cand, s, p2, newStart, newEnd.
  split; [done|]. split; [done|]. split; [done|].
  assert (Hcore : Core p1 = withBits (fillCore cand) (mcBits cand)
                  ∧ EndVertex p1 = None
                  ∧ mkMCParticle (withBits (fillCore cand) (mcBits cand))
                      (StartVertex p1) None = p1).
  { destruct Hcase1 as [(_ & -> & _)|[(_ & _ & _ & q & _ & ->)|(_ & _ & _ & ->)]];
      done. }
  destruct Hcore as (Hcore & Hend1 & Hp1eq).
  assert (Hp2' : Core p2 = Core p1 ∧ StartVertex p2 = StartVertex p1).
  { destruct Hcase2 as [(_ & -> & _)|[(_ & _ & _ & q & _ & ->)|(_ & _ & d & _ & _ & ->)]];
      done. }
  destruct Hp2' as [Hcore2 Hstart2].
  split; [by rewrite Hcore2|].
  split; [by rewrite Hv2, Hv1, <- app_assoc|].
  split.
  { rewrite Hstart2.
    destruct Hcase1 as [(? & -> & ?)|[(? & ? & ? & q & ? & ->)|(? & ? & ? & ->)]].
    - left. done.
    - right. left. repeat (split; [done|]). by exists q.
    - right. right. done. }
  split.
  { destruct Hcase2 as [(? & -> & ?)|[(? & Hset & ? & q & Hq & ->)|(? & Hunset & d & Hd & ? & ->)]].
    - left. done.
    - right. left. split; [done|]. split; [exact Hset|]. split; [done|].
      exists q. split; [|done]. cbn [StartVertex setEndVertex].
      rewrite Hp1eq. exact Hq.
    - right. right. split; [done|]. split; [exact Hunset|].
      exists d. split; [done|]. split; [done|].
      cbn [EndVertex setEndVertex]. by rewrite Hv1. }
  split; [by rewrite Hl2|].
  intros i si Hi. unfold slotAfterVisit. apply Hslots2, Hslots1, Hi.
Qed.

Lemma Inv_init : Inv Input prim 0 (mcInit Input).
Proof.
  split; simpl.
  - done.
  - apply length_replicate.
  - lia.
  - intros i p. by rewrite lookup_nil.
  - intros i s [-> _]%lookup_replicate. done.
  - intros i s [-> _]%lookup_replicate. done.
Qed.

Lemma Inv_step j st st' :
  Inv Input prim j st → mcStep Input prim j st = Some st' → Inv Input prim (S j) st'.
Proof.
  intros [Hparts Hvec Hle Hpart Hfirst Hsecond] Hstep.
  destruct (mcStep_spec _ _ _ Hstep Hparts Hvec)
    as (cand & s & p & newStart & newEnd & Hcand & Hs & Hp' & Hcore & Hv'
        & Hstart & Hend & Hlen' & Hslots).
  assert (Hgrow : (length (colGenVertices st) ≤ length (colGenVertices st'))%nat).
  { rewrite Hv', length_app. lia. }
  assert (Hold : ∀ k q ck, colMCParticles st !! k = Some q → Input !! k = Some ck →
            (M1 ck ≠ -1 → ∃ v, StartVertex q = Some v
                               ∧ (v < length (colGenVertices st))%nat)
            ∧ (D1 ck ≠ -1 → ∃ v, EndVertex q = Some v
                                 ∧ (v < length (colGenVertices st))%nat)).
  { intros k q ck Hq Hck. destruct (Hpart _ _ Hq) as (c & Hc & _ & _ & HS & _ & HE).
    rewrite Hck in Hc. injection Hc as <-. done. }
  assert (HstartOK : M1 cand ≠ -1 →
            ∃ v, StartVertex p = Some v ∧ (v < length (colGenVertices st'))%nat).
  { intros HM.
    destruct Hstart as [(? & _)|[(_ & Hset & _ & q & Hq & ->)|(_ & _ & -> & ->)]];
      [done| |].
    - destruct (Hfirst _ _ Hs Hset) as (k & ck & Hk & Hlt & Hck & Hwhy).
      destruct Hwhy as [[-> _]|[HD _]]; [lia|].
      rewrite Hk, zlookup_of_nat, lookup_app_l in Hq by lia.
      destruct (Hold _ _ _ Hq Hck) as [_ HE].
      destruct (HE HD) as (v & Hv & Hvlt). exists v. split; [done|lia].
    - eexists. split; [done|]. rewrite Hv', !length_app. simpl. lia. }
  assert (HendOK : D1 cand ≠ -1 →
            ∃ v, EndVertex p = Some v ∧ (v < length (colGenVertices st'))%nat).
  { intros HD.
    destruct Hend as [(? & _)|[(_ & Hset & _ & q & Hq & ->)|(_ & _ & d & _ & -> & ->)]];
      [done| |].
    - unfold slotAfterProduction in Hset, Hq. cbn [snd] in Hset, Hq.
      case_decide as Hown.
      + rewrite zlookup_of_nat, <- Hparts, lookup_app_r, Nat.sub_diag in Hq by lia.
        injection Hq as <-. cbn [StartVertex]. apply HstartOK. tauto.
      + destruct (Hsecond _ _ Hs Hset) as (k & ck & Hlt & Hck & Hwhy).
        destruct Hwhy as [(Hk & HM & _)|[-> _]]; [|lia].
        rewrite Hk, zlookup_of_nat, lookup_app_l in Hq by lia.
        destruct (Hold _ _ _ Hq Hck) as [HS _].
        destruct (HS HM) as (v & Hv & Hvlt). exists v. split; [done|lia].
    - eexists. split; [done|]. rewrite Hv', !length_app. simpl. lia. }
  split.
  - rewrite Hp', length_app. simpl. lia.
  - by rewrite Hlen'.
  - apply lookup_lt_Some in Hcand. lia.
  - intros i q Hq. rewrite Hp' in Hq.
    apply lookup_app_Some in Hq as [Hq|[Hge Hq]].
    + destruct (Hpart _ _ Hq) as (c & Hc & Hco & HS0 & HS & HE0 & HE).
      exists c. repeat (split; [done|]). split.
      * intros HM. destruct (HS HM) as (v & ? & ?). exists v. split; [done|lia].
      * split; [done|]. intros HD. destruct (HE HD) as (v & ? & ?).
        exists v. split; [done|lia].
    + apply list_lookup_singleton_Some in Hq as [Hi <-].
      assert (i = j) as -> by lia. exists cand.
      split; [done|]. split; [done|]. split.
      { intros HM. destruct Hstart as [(_ & ? & _)|[(? & _)|(? & _)]]; done. }
      split; [done|]. split; [|done].
      intros HD. destruct Hend as [(_ & ? & _)|[(? & _)|(? & _)]]; done.
  - intros i s' Hs' Hset.
    destruct (lookup_lt_is_Some_2 (vecPartProdVtxIDDecVtxID st) i) as [si Hsi].
    { rewrite <- Hlen'. by eapply lookup_lt_Some. }
    rewrite (Hslots _ _ Hsi) in Hs'. injection Hs' as <-.
    destruct (decide (si.1 = -1)) as [Hunset|Hwas].
    + destruct (slotAfterVisit_first cand j i si Hunset) as [?|[Hj Hwhy]]; [done|].
      exists j, cand. split; [done|]. split; [lia|]. split; [done|].
      destruct Hwhy as [[-> ?]|?]; [left|right]; done.
    + destruct (slotAfterVisit_first_writer cand j i si) as [Hw _].
      rewrite (Hw Hwas).
      destruct (Hfirst _ _ Hsi Hwas) as (k & ck & ? & ? & ? & ?).
      exists k, ck. split; [done|]. split; [lia|]. done.
  - intros i s' Hs' Hset.
    destruct (lookup_lt_is_Some_2 (vecPartProdVtxIDDecVtxID st) i) as [si Hsi].
    { rewrite <- Hlen'. by eapply lookup_lt_Some. }
    rewrite (Hslots _ _ Hsi) in Hs'. injection Hs' as <-.
    destruct (decide (si.2 = -1)) as [Hunset|Hwas].
    + destruct (slotAfterVisit_second cand j i si Hunset)
        as [?|[(Hj & ? & ?)|(Hj & ? & ->)]]; [done| |].
      * exists j, cand. split; [lia|]. split; [done|]. left. done.
      * exists j, cand. split; [lia|]. split; [done|]. right. done.
    + destruct (slotAfterVisit_first_writer cand j i si) as [_ Hw].
      rewrite (Hw Hwas).
      destruct (Hsecond _ _ Hsi Hwas) as (k & ck & ? & ? & ?).
      exists k, ck. split; [lia|]. done.
Qed.

Lemma mcLoop_Inv n st :
  mcLoop Input prim n (mcInit Input) = Some st → Inv Input prim n st.
Proof.
  revert st. induction n as [|n IH]; intros st; simpl.
  - intros [= <-]. apply Inv_init.
  - destruct (mcLoop _ _ n _) as [st0|]; [|done]. simpl.
    intros Hstep. eapply Inv_step; [by apply IH | done].
Qed.

(** Earlier states of the loop are prefixes of later ones: particles and
    vertices are only ever appended. *)
Lemma mcLoop_prefix n m st' :
  (n ≤ m)%nat →
  mcLoop Input prim m (mcInit Input) = Some st' →
  ∃ st, mcLoop Input prim n (mcInit Input) = Some st
        ∧ colMCParticles st `prefix_of` colMCParticles st'
        ∧ colGenVertices st `prefix_of` colGenVertices st'.
Proof.
  intros Hle. revert st'. induction m as [|m IH]; intros st' Hrun.
  - assert (n = 0%nat) as -> by lia. by exists st'.
  - destruct (decide (n = S m)) as [->|Hne]; [by exists st'|].
    simpl in Hrun.
    destruct (mcLoop _ _ m _) as [st0|] eqn:Hm; [|done]. simpl in Hrun.
    destruct (IH ltac:(lia) _ eq_refl) as (st & Hn & Hp & Hv).
    exists st. split; [done|].
    pose proof (mcLoop_Inv _ _ Hm) as [Hparts Hvec _ _ _ _].
    destruct (mcStep_spec _ _ _ Hrun Hparts Hvec)
      as (? & ? & p & nS & nE & _ & _ & -> & _ & -> & _).
    split; [by apply prefix_app_r | by apply prefix_app_r].
Qed.

(** The visit of candidate [j] within a complete run. *)
Lemma mcLoop_visit n res j :
  mcLoop Input prim n (mcInit Input) = Some res →
  (j < n)%nat →
  ∃ st st',
    mcLoop Input prim j (mcInit Input) = Some st
    ∧ mcStep Input prim j st = Some st'
    ∧ Inv Input prim j st
    ∧ colMCParticles st' `prefix_of` colMCParticles res
    ∧ colGenVertices st' `prefix_of` colGenVertices res.
Proof.
  intros Hrun Hj.
  destruct (mcLoop_prefix (S j) n res ltac:(lia) Hrun) as (st' & Hsj & Hp & Hv).
  simpl in Hsj. destruct (mcLoop _ _ j _) as [st|] eqn:Hst; [|done].
  simpl in Hsj. exists st, st'. repeat (split; [done|]).
  split; [by apply mcLoop_Inv | done].
Qed.

End MCStep.

(** ** [ConvertMCParticles]: the pre-pass *)

Section PrePass.
Context `{FM : FloatModel}.

Lemma primaryDaughters_inner (j : nat) (mothers : list Z) (prim : gset Z * gset Z) :
  let prim' :=
    foldl (λ prim iMother,
             (if decide (iMother = 0) then {[Z.of_nat j]} ∪ prim.1 else prim.1,
              if decide (iMother = 1) then {[Z.of_nat j]} ∪ prim.2 else prim.2))
          prim mothers in
  (∀ x, x ∈ prim'.1 ↔ x ∈ prim.1 ∨ (x = Z.of_nat j ∧ 0 ∈ mothers))
  ∧ (∀ x, x ∈ prim'.2 ↔ x ∈ prim.2 ∨ (x = Z.of_nat j ∧ 1 ∈ mothers)).
Proof.
  revert prim. induction mothers as [|m mothers IH]; intros prim; cbn [foldl].
  - split; intros x; rewrite elem_of_nil; tauto.
  - cbv zeta in IH |- *.
    destruct (IH (if decide (m = 0) then {[Z.of_nat j]} ∪ prim.1 else prim.1,
                  if decide (m = 1) then {[Z.of_nat j]} ∪ prim.2 else prim.2))
      as [IH1 IH2].
    split; intros x; [rewrite IH1 | rewrite IH2]; clear IH IH1 IH2;
      cbn [fst snd]; rewrite elem_of_cons.
    + destruct (decide (m = 0)) as [->|Hm];
        [rewrite elem_of_union, elem_of_singleton|]; intuition lia.
    + destruct (decide (m = 1)) as [->|Hm];
        [rewrite elem_of_union, elem_of_singleton|]; intuition lia.
Qed.

Lemma primaryDaughtersStep_spec (j : nat) cand (prim : gset Z * gset Z) :
  (∀ x, x ∈ (primaryDaughtersStep j cand prim).1
        ↔ x ∈ prim.1 ∨ (x = Z.of_nat j ∧ M1 cand ≠ -1 ∧ M1 cand ≤ 0 ≤ M2 cand))
  ∧ (∀ x, x ∈ (primaryDaughtersStep j cand prim).2
          ↔ x ∈ prim.2 ∨ (x = Z.of_nat j ∧ M1 cand ≠ -1 ∧ M1 cand ≤ 1 ≤ M2 cand)).
Proof.
  unfold primaryDaughtersStep. case_decide as HM.
  - destruct (primaryDaughters_inner j (int_range (M1 cand) (M2 cand)) prim)
      as [H1 H2].
    split; intros x; [rewrite H1 | rewrite H2]; rewrite elem_of_int_range; tauto.
  - split; intros x; tauto.
Qed.

Lemma primaryDaughtersLoop_spec (j0 : nat) rest (prim : gset Z * gset Z) :
  (∀ x, x ∈ (primaryDaughtersLoop j0 rest prim).1
        ↔ x ∈ prim.1
          ∨ ∃ i c, rest !! i = Some c ∧ x = Z.of_nat (j0 + i)
                   ∧ M1 c ≠ -1 ∧ M1 c ≤ 0 ≤ M2 c)
  ∧ (∀ x, x ∈ (primaryDaughtersLoop j0 rest prim).2
          ↔ x ∈ prim.2
            ∨ ∃ i c, rest !! i = Some c ∧ x = Z.of_nat (j0 + i)
                     ∧ M1 c ≠ -1 ∧ M1 c ≤ 1 ≤ M2 c).
Proof.
  revert j0 prim. induction rest as [|cand rest IH]; intros j0 prim; simpl.
  - split; intros x; split; [tauto| |tauto|]; intros [?|(i & c & Hl & _)]; done.
  - destruct (IH (S j0) (primaryDaughtersStep j0 cand prim)) as [IH1 IH2].
    destruct (primaryDaughtersStep_spec j0 cand prim) as [S1 S2].
    split; intros x; [rewrite IH1, S1 | rewrite IH2, S2]; split.
    + intros [[?|(-> & ? & ?)]|(i & c & Hl & -> & ?)]; [tauto| |].
      * right. exists 0%nat, cand. rewrite Nat.add_0_r. done.
      * right. exists (S i), c. split; [done|]. split; [f_equal; lia|done].
    + intros [?|(i & c & Hl & -> & ?)]; [tauto|].
      destruct i as [|i]; simpl in Hl.
      * injection Hl as ->. left. right. rewrite Nat.add_0_r. done.
      * right. exists i, c. split; [done|]. split; [f_equal; lia|done].
    + intros [[?|(-> & ? & ?)]|(i & c & Hl & -> & ?)]; [tauto| |].
      * right. exists 0%nat, cand. rewrite Nat.add_0_r. done.
      * right. exists (S i), c. split; [done|]. split; [f_equal; lia|done].
    + intros [?|(i & c & Hl & -> & ?)]; [tauto|].
      destruct i as [|i]; simpl in Hl.
      * injection Hl as ->. left. right. rewrite Nat.add_0_r. done.
      * right. exists i, c. split; [done|]. split; [f_equal; lia|done].
Qed.

(** The known daughters of a colliding particle are exactly the candidates
    whose own mother range contains its index. *)
Lemma primaryDaughters_spec Input :
  (∀ x, x ∈ (primaryDaughters Input).1
        ↔ ∃ j c, x = Z.of_nat j ∧ Input !! j = Some c
                 ∧ M1 c ≠ -1 ∧ M1 c ≤ 0 ≤ M2 c)
  ∧ (∀ x, x ∈ (primaryDaughters Input).2
          ↔ ∃ j c, x = Z.of_nat j ∧ Input !! j = Some c
                   ∧ M1 c ≠ -1 ∧ M1 c ≤ 1 ≤ M2 c).
Proof.
  unfold primaryDaughters.
  destruct (primaryDaughtersLoop_spec 0 Input (∅, ∅)) as [H1 H2].
  split; intros x; [rewrite H1 | rewrite H2]; simpl; split.
  - intros [?|(i & c & ? & ? & ?)]; [set_solver|]. by exists i, c.
  - intros (i & c & ? & ? & ?). right. by exists i, c.
  - intros [?|(i & c & ? & ? & ?)]; [set_solver|]. by exists i, c.
  - intros (i & c & ? & ? & ?). right. by exists i, c.
Qed.

(** C7 (amended) : the pre-pass collects, for each of the two colliding
    particles, exactly the candidates whose own mother range contains its
    index, and the decay-vertex propagation of a colliding particle [b]
    (index 0 or 1, no mother range) writes [b] into the unset start slots of
    exactly these candidates, whatever the daughter range of [b] says. A
    candidate whose mother range does not contain [b] is not among them. *)
Theorem C7_primary_daughters Input :
  (∀ x, x ∈ (primaryDaughters Input).1
        ↔ ∃ j c, x = Z.of_nat j ∧ Input !! j = Some c
                 ∧ M1 c ≠ -1 ∧ M1 c ≤ 0 ≤ M2 c)
  ∧ (∀ x, x ∈ (primaryDaughters Input).2
          ↔ ∃ j c, x = Z.of_nat j ∧ Input !! j = Some c
                   ∧ M1 c ≠ -1 ∧ M1 c ≤ 1 ≤ M2 c)
  ∧ ∀ b beam st st',
      (b = 0 ∨ b = 1)%nat →
      Input !! b = Some beam → M1 beam = -1 → D1 beam ≠ -1 →
      mcLoop Input (primaryDaughters Input) b (mcInit Input) = Some st →
      mcLoop Input (primaryDaughters Input) (S b) (mcInit Input) = Some st' →
      ∀ i si, vecPartProdVtxIDDecVtxID st !! i = Some si →
        ∃ si', vecPartProdVtxIDDecVtxID st' !! i = Some si'
               ∧ si'.1 = if decide (si.1 = -1
                                    ∧ Z.of_nat i ∈ (if decide (b = 0%nat)
                                                    then (primaryDaughters Input).1
                                                    else (primaryDaughters Input).2))
                         then Z.of_nat b else si.1.
Proof.
  destruct (primaryDaughters_spec Input) as [H1 H2].
  split; [done|]. split; [done|].
  intros b beam st st' Hb Hbeam HM HD Hst Hst' i si Hsi.
  simpl in Hst'. rewrite Hst in Hst'. simpl in Hst'.
  pose proof (mcLoop_Inv _ _ _ _ Hst) as [Hparts Hvec _ _ _ _].
  destruct (mcStep_spec _ _ _ _ _ Hst' Hparts Hvec)
    as (cand & s & p & nS & nE & Hcand & _ & _ & _ & _ & _ & _ & _ & Hslots).
  rewrite Hbeam in Hcand. injection Hcand as <-.
  eexists. split; [by apply Hslots|].
  unfold slotAfterVisit, slotAfterDecay, slotAfterProduction, daughtersOf.
  cbn [fst snd]. rewrite (decide_False (P := M1 beam ≠ -1 ∧ _)) by tauto.
  rewrite (decide_True (P := M1 beam = -1)) by done.
  destruct Hb as [-> | ->].
  - rewrite !(decide_True (P := 0%nat = 0%nat)) by done.
    apply decide_ext. rewrite set_order_elem_of. tauto.
  - rewrite !(decide_False (P := 1%nat = 0%nat)) by done.
    rewrite (decide_True (P := 1%nat = 1%nat)) by done.
    apply decide_ext. rewrite set_order_elem_of. tauto.
Qed.

End PrePass.

(** ** [ConvertMCParticles]: the visit of one candidate, under the invariant *)

Section MCVisit.
Context `{FM : FloatModel}.
Variable Input : list Candidate.
Variable prim : gset Z * gset Z.

(** A slot that is set when [j] is visited was set by an earlier candidate
    [k]; the vertex that [j] then attaches is the one [k] holds at its
    opposite end, and no vertex is created. A vertex is created for an end
    whose slot is unset. *)
Lemma mcStep_visit j st st' :
  Inv Input prim j st →
  mcStep Input prim j st = Some st' →
  ∃ cand s p newStart newEnd,
    Input !! j = Some cand
    ∧ vecPartProdVtxIDDecVtxID st !! j = Some s
    ∧ colMCParticles st' = colMCParticles st ++ [p]
    ∧ colGenVertices st' = colGenVertices st ++ newStart ++ newEnd
    ∧ ((M1 cand = -1 ∧ StartVertex p = None ∧ newStart = [])
       ∨ (M1 cand ≠ -1 ∧ s.1 ≠ -1 ∧ newStart = []
          ∧ ∃ k ck q v,
              s.1 = Z.of_nat k ∧ (k < j)%nat ∧ Input !! k = Some ck
              ∧ D1 ck ≠ -1 ∧ Z.of_nat j ∈ daughtersOf prim ck k
              ∧ colMCParticles st !! k = Some q
              ∧ EndVertex q = Some v ∧ (v < length (colGenVertices st))%nat
              ∧ StartVertex p = Some v)
       ∨ (M1 cand ≠ -1 ∧ s.1 = -1
          ∧ newStart = [mkGenVertex (candPoint cand) (narrow (E (Position cand)))]
          ∧ StartVertex p = Some (length (colGenVertices st))))
    ∧ ((D1 cand = -1 ∧ EndVertex p = None ∧ newEnd = [])
       ∨ (D1 cand ≠ -1 ∧ s.2 ≠ -1 ∧ newEnd = []
          ∧ ∃ k ck q v,
              s.2 = Z.of_nat k ∧ (k < j)%nat ∧ Input !! k = Some ck
              ∧ M1 ck ≠ -1 ∧ M1 ck ≤ Z.of_nat j ≤ M2 ck
              ∧ colMCParticles st !! k = Some q
              ∧ StartVertex q = Some v ∧ (v < length (colGenVertices st))%nat
              ∧ EndVertex p = Some v)
       ∨ (D1 cand ≠ -1 ∧ s.2 = -1
          ∧ (M1 cand ≠ -1 ∧ M1 cand ≤ Z.of_nat j ≤ M2 cand)
          ∧ newEnd = [] ∧ EndVertex p = StartVertex p)
       ∨ (D1 cand ≠ -1 ∧ s.2 = -1
          ∧ ¬ (M1 cand ≠ -1 ∧ M1 cand ≤ Z.of_nat j ≤ M2 cand)
          ∧ ∃ daughter,
              zlookup Input (D1 cand) = Some daughter
              ∧ newEnd = [mkGenVertex (candPoint daughter)
                            (narrow (E (Position cand)))]
              ∧ EndVertex p = Some (length (colGenVertices st ++ newStart)))).
Proof.
  intros [Hparts Hvec Hle Hpart Hfirst Hsecond] Hstep.
  destruct (mcStep_spec _ _ _ _ _ Hstep Hparts Hvec)
    as (cand & s & p & newStart & newEnd & Hcand & Hs & Hp' & Hcore & Hv'
        & Hstart & Hend & Hlen' & Hslots).
  exists cand, s, p, newStart, newEnd.
  repeat (split; [done|]). split.
  - destruct Hstart as [?|[(HM & Hset & Hnew & q & Hq & Hsv)|?]];
      [by left| |by right; right].
    right. left. repeat (split; [done|]).
    destruct (Hfirst _ _ Hs Hset) as (k & ck & Hk & Hlt & Hck & Hwhy).
    destruct Hwhy as [[-> _]|[HD Hin]]; [lia|].
    rewrite Hk, zlookup_of_nat, lookup_app_l in Hq by lia.
    destruct (Hpart _ _ Hq) as (c & Hc & _ & _ & _ & _ & HE).
    rewrite Hck in Hc. injection Hc as <-.
    destruct (HE HD) as (v & Hv & Hvlt).
    exists k, ck, q, v. repeat (split; [done|]). congruence.
  - destruct Hend as [?|[(HD & Hset & Hnew & q & Hq & Hev)|(HD & Hunset & Hnew)]];
      [by left| |].
    + unfold slotAfterProduction in Hset, Hq. cbn [snd] in Hset, Hq.
      case_decide as Hown.
      * right. right. left. split; [done|]. split; [tauto|].
        split; [tauto|]. split; [done|].
        rewrite zlookup_of_nat, <- Hparts, lookup_app_r, Nat.sub_diag in Hq by lia.
        injection Hq as <-. done.
      * right. left. repeat (split; [done|]).
        destruct (Hsecond _ _ Hs Hset) as (k & ck & Hlt & Hck & Hwhy).
        destruct Hwhy as [(Hk & HM & Hrange)|[-> _]]; [|lia].
        rewrite Hk, zlookup_of_nat, lookup_app_l in Hq by lia.
        destruct (Hpart _ _ Hq) as (c & Hc & _ & _ & HS & _ & _).
        rewrite Hck in Hc. injection Hc as <-.
        destruct (HS HM) as (v & Hv & Hvlt).
        exists k, ck, q, v. repeat (split; [done|]). congruence.
    + unfold slotAfterProduction in Hunset. cbn [snd] in Hunset.
      case_decide as Hown; [lia|].
      right. right. right. split; [done|]. split; [done|]. split; [|done].
      tauto.
Qed.

(** The same within a complete run: the particle and the vertices of the
    visit are those of the result. *)
Lemma mcLoop_visit_result n res j :
  mcLoop Input prim n (mcInit Input) = Some res →
  (j < n)%nat →
  ∃ st st' p,
    mcLoop Input prim j (mcInit Input) = Some st
    ∧ mcStep Input prim j st = Some st'
    ∧ Inv Input prim j st
    ∧ colMCParticles st' = colMCParticles st ++ [p]
    ∧ colMCParticles res !! j = Some p
    ∧ (∀ k q, colMCParticles st' !! k = Some q → colMCParticles res !! k = Some q)
    ∧ (∀ v vtx, colGenVertices st' !! v = Some vtx →
                colGenVertices res !! v = Some vtx).
Proof.
  intros Hrun Hj.
  destruct (mcLoop_visit _ _ _ _ _ Hrun Hj) as (st & st' & Hst & Hstep & HInv & Hp & Hv).
  pose proof HInv as [Hparts Hvec _ _ _ _].
  destruct (mcStep_spec _ _ _ _ _ Hstep Hparts Hvec)
    as (? & ? & p & ? & ? & _ & _ & Hp' & _).
  exists st, st', p. repeat (split; [done|]). split; [|split].
  - eapply prefix_lookup_Some; [|exact Hp].
    rewrite Hp', lookup_app_r, Hparts, Nat.sub_diag by lia. done.
  - intros k q Hq. by eapply prefix_lookup_Some.
  - intros v vtx Hvtx. by eapply prefix_lookup_Some.
Qed.

End MCVisit.

(** ** [ConvertMCParticles]: vertices *)

Section MCVertices.
Context `{FM : FloatModel}.
Variable Input : list Candidate.

(** Both lemmas on the visit of [j], put together. *)
Lemma ConvertMCParticles_visit res j cand :
  ConvertMCParticles Input = Some res →
  Input !! j = Some cand →
  ∃ st st' s p newStart newEnd,
    mcLoop Input (primaryDaughters Input) j (mcInit Input) = Some st
    ∧ Inv Input (primaryDaughters Input) j st
    ∧ vecPartProdVtxIDDecVtxID st !! j = Some s
    ∧ colMCParticles res !! j = Some p
    ∧ colGenVertices st' = colGenVertices st ++ newStart ++ newEnd
    ∧ (∀ k q, colMCParticles st !! k = Some q → colMCParticles res !! k = Some q)
    ∧ (∀ v vtx, colGenVertices st' !! v = Some vtx →
                colGenVertices res !! v = Some vtx)
    ∧ ((M1 cand = -1 ∧ StartVertex p = None ∧ newStart = [])
       ∨ (M1 cand ≠ -1 ∧ s.1 ≠ -1 ∧ newStart = []
          ∧ ∃ k ck q v,
              s.1 = Z.of_nat k ∧ (k < j)%nat ∧ Input !! k = Some ck
              ∧ D1 ck ≠ -1 ∧ Z.of_nat j ∈ daughtersOf (primaryDaughters Input) ck k
              ∧ colMCParticles st !! k = Some q
              ∧ EndVertex q = Some v ∧ (v < length (colGenVertices st))%nat
              ∧ StartVertex p = Some v)
       ∨ (M1 cand ≠ -1 ∧ s.1 = -1
          ∧ newStart = [mkGenVertex (candPoint cand) (narrow (E (Position cand)))]
          ∧ StartVertex p = Some (length (colGenVertices st))))
    ∧ ((D1 cand = -1 ∧ EndVertex p = None ∧ newEnd = [])
       ∨ (D1 cand ≠ -1 ∧ s.2 ≠ -1 ∧ newEnd = []
          ∧ ∃ k ck q v,
              s.2 = Z.of_nat k ∧ (k < j)%nat ∧ Input !! k = Some ck
              ∧ M1 ck ≠ -1 ∧ M1 ck ≤ Z.of_nat j ≤ M2 ck
              ∧ colMCParticles st !! k = Some q
              ∧ StartVertex q = Some v ∧ (v < length (colGenVertices st))%nat
              ∧ EndVertex p = Some v)
       ∨ (D1 cand ≠ -1 ∧ s.2 = -1
          ∧ (M1 cand ≠ -1 ∧ M1 cand ≤ Z.of_nat j ≤ M2 cand)
          ∧ newEnd = [] ∧ EndVertex p = StartVertex p)
       ∨ (D1 cand ≠ -1 ∧ s.2 = -1
          ∧ ¬ (M1 cand ≠ -1 ∧ M1 cand ≤ Z.of_nat j ≤ M2 cand)
          ∧ ∃ daughter,
              zlookup Input (D1 cand) = Some daughter
              ∧ newEnd = [mkGenVertex (candPoint daughter)
                            (narrow (E (Position cand)))]
              ∧ EndVertex p = Some (length (colGenVertices st ++ newStart)))).
Proof.
  intros Hrun Hcand.
  destruct (mcLoop_visit_result _ _ _ _ _ Hrun (lookup_lt_Some _ _ _ Hcand))
    as (st & st' & p & Hst & Hstep & HInv & Hp' & Hp & Hparts & Hverts).
  destruct (mcStep_visit _ _ _ _ _ HInv Hstep)
    as (c & s & p0 & nS & nE & Hc & Hs & Hp0 & Hv' & Hstart & Hend).
  rewrite Hcand in Hc. injection Hc as <-.
  rewrite Hp' in Hp0. apply app_inv_head in Hp0. injection Hp0 as <-.
  exists st, st', s, p, nS, nE. repeat (split; [done|]).
  split; [|done]. intros k q Hq. apply Hparts. rewrite Hp'.
  by apply lookup_app_l_Some.
Qed.

(** The visit of [j] creates one vertex for each end whose slot is unset,
    and none otherwise. *)
Lemma visit_vertex_count res j cand st s :
  ConvertMCParticles Input = Some res →
  Input !! j = Some cand →
  mcLoop Input (primaryDaughters Input) j (mcInit Input) = Some st →
  vecPartProdVtxIDDecVtxID st !! j = Some s →
  ∃ st',
    mcLoop Input (primaryDaughters Input) (S j) (mcInit Input) = Some st'
    ∧ length (colGenVertices st')
      = (length (colGenVertices st)
         + (if decide (M1 cand ≠ -1 ∧ s.1 = -1)%Z then 1 else 0)
         + (if decide (D1 cand ≠ -1 ∧ s.2 = -1
                       ∧ ¬ (M1 cand ≠ -1 ∧ M1 cand ≤ Z.of_nat j ≤ M2 cand))%Z
            then 1 else 0))%nat.
Proof.
  intros Hrun Hcand Hst Hs.
  destruct (mcLoop_visit _ _ _ _ _ Hrun (lookup_lt_Some _ _ _ Hcand))
    as (st0 & st' & Hst0 & Hstep & HInv & _).
  rewrite Hst in Hst0. injection Hst0 as <-.
  exists st'. split; [simpl; by rewrite Hst|].
  destruct (mcStep_visit _ _ _ _ _ HInv Hstep)
    as (c & s0 & p & nS & nE & Hc & Hs0 & _ & -> & Hstart & Hend).
  rewrite Hcand in Hc. injection Hc as <-.
  rewrite Hs in Hs0. injection Hs0 as <-.
  rewrite !length_app.
  assert (HnS : length nS = if decide (M1 cand ≠ -1 ∧ s.1 = -1) then 1%nat else 0%nat).
  { destruct Hstart as [(? & _ & ->)|[(? & ? & -> & _)|(? & ? & -> & _)]];
      case_decide; simpl; first [reflexivity | exfalso; tauto]. }
  assert (HnE : length nE
                = if decide (D1 cand ≠ -1 ∧ s.2 = -1
                             ∧ ¬ (M1 cand ≠ -1 ∧ M1 cand ≤ Z.of_nat j ≤ M2 cand))
                  then 1%nat else 0%nat).
  { clear HnS.
    destruct Hend as [(? & _ & ->)|[(? & ? & -> & _)
                     |[(? & ? & ? & -> & _)|(? & ? & ? & d & _ & -> & _)]]];
      case_decide; simpl; first [reflexivity | exfalso; tauto]. }
  lia.
Qed.

(** Before the visit of candidate [n] the start slot of a candidate that is
    not yet visited names the first visited candidate that lists it as a
    daughter, and is unset when there is none. *)
Lemma start_slot_first_lister n st i s :
  mcLoop Input (primaryDaughters Input) n (mcInit Input) = Some st →
  (n ≤ i)%nat →
  vecPartProdVtxIDDecVtxID st !! i = Some s →
  (s.1 = -1 ∧ ∀ k, (k < n)%nat → ¬ listsDaughter Input k i)
  ∨ ∃ k, s.1 = Z.of_nat k ∧ (k < n)%nat ∧ listsDaughter Input k i
         ∧ ∀ k', (k' < k)%nat → ¬ listsDaughter Input k' i.
Proof.
  revert st s. induction n as [|n IH]; intros st' s'.
  - intros [= <-] _ Hs. left. unfold mcInit in Hs. simpl in Hs.
    apply lookup_replicate in Hs as [-> _]. split; [done|]. intros k Hk. lia.
  - cbn [mcLoop].
    destruct (mcLoop Input (primaryDaughters Input) n (mcInit Input))
      as [st|] eqn:Hst; [|discriminate].
    cbn [mbind option_bind]. intros Hstep Hle Hs'.
    destruct (mcLoop_Inv _ _ _ _ Hst) as [Hparts Hvec _ _ _ _].
    destruct (mcStep_spec _ _ _ _ _ Hstep Hparts Hvec)
      as (cand & s0 & p & newStart & newEnd & Hcand & _ & _ & _ & _ & _ & _
          & Hlen & Hslots).
    destruct (lookup_lt_is_Some_2 (vecPartProdVtxIDDecVtxID st) i) as [si Hsi].
    { rewrite <- Hlen. by apply lookup_lt_Some in Hs'. }
    rewrite (Hslots i si Hsi) in Hs'. injection Hs' as <-.
    unfold slotAfterVisit, slotAfterDecay, slotAfterProduction. cbn [fst snd].
    rewrite (decide_False (P := M1 cand ≠ -1 ∧ i = n ∧ si.1 = -1)) by lia.
    destruct (IH st si eq_refl ltac:(lia) Hsi)
      as [[Hunset Hnone]|(k & Hk & Hlt & Hlists & Hmin)].
    + destruct (decide (D1 cand ≠ -1 ∧ si.1 = -1
                        ∧ Z.of_nat i ∈ daughtersOf (primaryDaughters Input) cand n))
        as [(HD & _ & Hin)|Hno].
      * right. exists n. split; [done|]. split; [lia|]. split; [by exists cand|].
        exact Hnone.
      * left. split; [done|]. intros k Hk.
        destruct (decide (k = n)) as [->|Hne]; [|apply Hnone; lia].
        intros (ck & Hck & HD & Hin). rewrite Hcand in Hck. injection Hck as <-.
        apply Hno. by repeat split.
    + right. exists k. rewrite decide_False by lia.
      split; [done|]. split; [lia|]. by split.
Qed.

(** Before the visit of candidate [n] the end slot of a candidate that is
    not yet visited names the first visited candidate that names it as a
    mother, and is unset when there is none. *)
Lemma end_slot_first_namer n st k s :
  mcLoop Input (primaryDaughters Input) n (mcInit Input) = Some st →
  (n ≤ k)%nat →
  vecPartProdVtxIDDecVtxID st !! k = Some s →
  (s.2 = -1 ∧ ∀ i, (i < n)%nat → ¬ namesMother Input i k)
  ∨ ∃ i, s.2 = Z.of_nat i ∧ (i < n)%nat ∧ namesMother Input i k
         ∧ ∀ i', (i' < i)%nat → ¬ namesMother Input i' k.
Proof.
  revert st s. induction n as [|n IH]; intros st' s'.
  - intros [= <-] _ Hs. left. unfold mcInit in Hs. simpl in Hs.
    apply lookup_replicate in Hs as [-> _]. split; [done|]. intros i Hi. lia.
  - cbn [mcLoop].
    destruct (mcLoop Input (primaryDaughters Input) n (mcInit Input))
      as [st|] eqn:Hst; [|discriminate].
    cbn [mbind option_bind]. intros Hstep Hle Hs'.
    destruct (mcLoop_Inv _ _ _ _ Hst) as [Hparts Hvec _ _ _ _].
    destruct (mcStep_spec _ _ _ _ _ Hstep Hparts Hvec)
      as (cand & s0 & p & newStart & newEnd & Hcand & _ & _ & _ & _ & _ & _
          & Hlen & Hslots).
    destruct (lookup_lt_is_Some_2 (vecPartProdVtxIDDecVtxID st) k) as [sk Hsk].
    { rewrite <- Hlen. by apply lookup_lt_Some in Hs'. }
    rewrite (Hslots k sk Hsk) in Hs'. injection Hs' as <-.
    unfold slotAfterVisit, slotAfterDecay, slotAfterProduction. cbn [fst snd].
    rewrite (decide_False (P := D1 cand ≠ -1 ∧ k = n ∧ _)) by lia.
    destruct (IH st sk eq_refl ltac:(lia) Hsk)
      as [[Hunset Hnone]|(i & Hi & Hlt & Hnames & Hmin)].
    + destruct (decide (M1 cand ≠ -1 ∧ sk.2 = -1 ∧ M1 cand ≤ Z.of_nat k ≤ M2 cand))
        as [(HM & _ & Hin)|Hno].
      * right. exists n. split; [done|]. split; [lia|]. split; [by exists cand|].
        exact Hnone.
      * left. split; [done|]. intros i Hi.
        destruct (decide (i = n)) as [->|Hne]; [|apply Hnone; lia].
        intros (ci & Hci & HM & Hin). rewrite Hcand in Hci. injection Hci as <-.
        apply Hno. tauto.
    + right. exists i. rewrite decide_False by lia.
      split; [done|]. split; [lia|]. by split.
Qed.

(** C1 (amended) : slots are written first-writer-wins, and a vertex that
    an earlier candidate has created for the opposite end of a declared link
    is reused. When candidate [j] is visited its start slot is unset exactly
    when no earlier candidate lists [j] as a daughter, and otherwise names
    the first earlier candidate [k] that does; then no vertex is created for
    the production of [j]: its start vertex is the vertex object that
    particle [k] holds as end vertex. With the start slot unset a new vertex
    object is created. In the same way the end slot of [j] is unset exactly
    when no earlier candidate names [j] as a mother, and otherwise names the
    first earlier candidate [k] that does; the end vertex of [j] is then the
    start vertex of particle [k], and a new vertex is created when the end
    slot is unset and [j] is not in its own mother range. The visit of [j]
    adds exactly these new vertices to the collection. *)
Theorem C1_vertex_reuse res :
  ConvertMCParticles Input = Some res →
  (∀ n st st' i si,
     mcLoop Input (primaryDaughters Input) n (mcInit Input) = Some st →
     mcLoop Input (primaryDaughters Input) (S n) (mcInit Input) = Some st' →
     vecPartProdVtxIDDecVtxID st !! i = Some si →
     ∃ si', vecPartProdVtxIDDecVtxID st' !! i = Some si'
            ∧ (si.1 ≠ -1 → si'.1 = si.1) ∧ (si.2 ≠ -1 → si'.2 = si.2))
  ∧ ∀ j cand, Input !! j = Some cand →
      ∃ st s p,
        mcLoop Input (primaryDaughters Input) j (mcInit Input) = Some st
        ∧ vecPartProdVtxIDDecVtxID st !! j = Some s
        ∧ colMCParticles res !! j = Some p
        ∧ ((s.1 = -1 ∧ ∀ k, (k < j)%nat → ¬ listsDaughter Input k j)
           ∨ ∃ k, s.1 = Z.of_nat k ∧ (k < j)%nat ∧ listsDaughter Input k j
                  ∧ ∀ k', (k' < k)%nat → ¬ listsDaughter Input k' j)
        ∧ ((s.2 = -1 ∧ ∀ k, (k < j)%nat → ¬ namesMother Input k j)
           ∨ ∃ k, s.2 = Z.of_nat k ∧ (k < j)%nat ∧ namesMother Input k j
                  ∧ ∀ k', (k' < k)%nat → ¬ namesMother Input k' j)
        ∧ (M1 cand ≠ -1 → s.1 ≠ -1 →
             ∃ k q v, s.1 = Z.of_nat k ∧ (k < j)%nat
                      ∧ colMCParticles res !! k = Some q
                      ∧ EndVertex q = Some v ∧ StartVertex p = Some v
                      ∧ (v < length (colGenVertices st))%nat)
        ∧ (M1 cand ≠ -1 → s.1 = -1 →
             StartVertex p = Some (length (colGenVertices st)))
        ∧ (D1 cand ≠ -1 → s.2 ≠ -1 →
             ∃ k q v, s.2 = Z.of_nat k ∧ (k < j)%nat
                      ∧ colMCParticles res !! k = Some q
                      ∧ StartVertex q = Some v ∧ EndVertex p = Some v
                      ∧ (v < length (colGenVertices st))%nat)
        ∧ (D1 cand ≠ -1 → s.2 = -1 →
             ¬ (M1 cand ≠ -1 ∧ M1 cand ≤ Z.of_nat j ≤ M2 cand) →
             ∃ v, EndVertex p = Some v ∧ (length (colGenVertices st) ≤ v)%nat)
        ∧ ∃ st',
            mcLoop Input (primaryDaughters Input) (S j) (mcInit Input) = Some st'
            ∧ length (colGenVertices st')
              = (length (colGenVertices st)
                 + (if decide (M1 cand ≠ -1 ∧ s.1 = -1)%Z then 1 else 0)
                 + (if decide (D1 cand ≠ -1 ∧ s.2 = -1
                               ∧ ¬ (M1 cand ≠ -1
                                    ∧ M1 cand ≤ Z.of_nat j ≤ M2 cand))%Z
                    then 1 else 0))%nat.
Proof.
  intros Hrun. split.
  - intros n st st' i si Hst Hst' Hsi.
    simpl in Hst'. rewrite Hst in Hst'. simpl in Hst'.
    pose proof (mcLoop_Inv _ _ _ _ Hst) as [Hparts Hvec _ _ _ _].
    destruct (mcStep_spec _ _ _ _ _ Hst' Hparts Hvec)
      as (cand & ? & ? & ? & ? & _ & _ & _ & _ & _ & _ & _ & _ & Hslots).
    eexists. split; [by apply Hslots|].
    apply slotAfterVisit_first_writer.
  - intros j cand Hcand.
    destruct (ConvertMCParticles_visit _ _ _ Hrun Hcand)
      as (st & st' & s & p & nS & nE & Hst & HInv & Hs & Hp & Hv' & Hparts
          & Hverts & Hstart & Hend).
    exists st, s, p. repeat (split; [done|]).
    split; [by apply (start_slot_first_lister j st j s Hst)|].
    split; [by apply (end_slot_first_namer j st j s Hst)|].
    split; [|split; [|split; [|split]]];
      [| | | |by eapply visit_vertex_count].
    + intros HM Hset.
      destruct Hstart as [(? & _)|[(_ & _ & _ & k & ck & q & v & Hk)|(_ & ? & _)]];
        [done| |done].
      destruct Hk as (? & ? & ? & ? & ? & Hq & ? & ? & ?).
      exists k, q, v. repeat (split; [done|]). split; [by apply Hparts|done].
    + intros HM Hunset.
      destruct Hstart as [(? & _)|[(_ & ? & _)|(_ & _ & _ & ?)]]; done.
    + intros HD Hset.
      destruct Hend as [(? & _)|[(_ & _ & _ & k & ck & q & v & Hk)
                                |[(_ & ? & _)|(_ & ? & _)]]];
        [done| |done|done].
      destruct Hk as (? & ? & ? & ? & ? & Hq & ? & ? & ?).
      exists k, q, v. repeat (split; [done|]). split; [by apply Hparts|done].
    + intros HD Hunset Hnot.
      destruct Hend as [(? & _)|[(_ & ? & _)|[(_ & _ & ? & _)
                                             |(_ & _ & _ & d & _ & _ & ->)]]];
        [done|done|done|].
      eexists. split; [done|]. rewrite length_app. lia.
Qed.

Lemma vertex_points_inv n st :
  positionsConsistent Input →
  mcLoop Input (primaryDaughters Input) n (mcInit Input) = Some st →
  ∀ i p c, colMCParticles st !! i = Some p → Input !! i = Some c →
    (∀ v vtx, StartVertex p = Some v → colGenVertices st !! v = Some vtx →
              vtxPosition vtx = candPoint c)
    ∧ (∀ v vtx d, EndVertex p = Some v → colGenVertices st !! v = Some vtx →
                  zlookup Input (D1 c) = Some d → vtxPosition vtx = candPoint d).
Proof.
  intros (Hwf & Hmo & Hda). revert st.
  induction n as [|n IH]; intros st Hrun.
  { injection Hrun as <-. intros i p c Hp. simpl in Hp.
    by rewrite lookup_nil in Hp. }
  simpl in Hrun.
  destruct (mcLoop _ _ n _) as [st0|] eqn:Hst0; [|done]. simpl in Hrun.
  pose proof (mcLoop_Inv _ _ _ _ Hst0) as HInv.
  destruct (mcStep_visit _ _ _ _ _ HInv Hrun)
    as (cand & s & p' & nS & nE & Hcand & Hs & Hp' & Hv' & Hstart & Hend).
  specialize (IH st0 eq_refl).
  assert (Hkeep : ∀ v vtx, (v < length (colGenVertices st0))%nat →
            colGenVertices st !! v = Some vtx → colGenVertices st0 !! v = Some vtx).
  { intros v vtx Hlt. rewrite Hv', lookup_app_l by done. done. }
  intros i p c Hp Hc. rewrite Hp' in Hp.
  apply lookup_app_Some in Hp as [Hp|[Hge Hp]].
  - destruct (inv_particle _ _ _ _ HInv i p Hp) as (c' & Hc' & _ & HS0 & HS & HE0 & HE).
    rewrite Hc in Hc'. injection Hc' as <-.
    destruct (IH i p c Hp Hc) as [IHs IHe]. split.
    + intros v vtx Hsv Hvtx. apply (IHs v); [done|]. apply Hkeep; [|done].
      destruct (decide (M1 c = -1)) as [HM|HM]; [by rewrite HS0 in Hsv|].
      destruct (HS HM) as (v' & Hv'' & ?). congruence.
    + intros v vtx d Hev Hvtx Hd. apply (IHe v); [done| |done].
      apply Hkeep; [|done].
      destruct (decide (D1 c = -1)) as [HD|HD]; [by rewrite HE0 in Hev|].
      destruct (HE HD) as (v' & Hv'' & ?). congruence.
  - apply list_lookup_singleton_Some in Hp as [Hi <-].
    pose proof (inv_parts _ _ _ _ HInv) as Hparts.
    assert (i = n) as -> by lia.
    rewrite Hcand in Hc. injection Hc as <-.
    assert (HstartP : ∀ v vtx, StartVertex p' = Some v →
              colGenVertices st !! v = Some vtx → vtxPosition vtx = candPoint cand).
    { intros v vtx Hsv Hvtx.
      destruct Hstart as [(_ & Hnone & _)|[(HM & Hset & -> & Hk)|(HM & Hunset & -> & Hfresh)]].
      - by rewrite Hnone in Hsv.
      - destruct Hk as (k & ck & q & v0 & Hk & Hlt & Hck & HD & Hin & Hq & Hqe & Hv0 & Hsv').
        rewrite Hsv in Hsv'. injection Hsv' as ->.
        destruct (Hwf _ _ Hck HD) as [d Hd].
        destruct (IH k q ck Hq Hck) as [_ IHe].
        rewrite (IHe v0 vtx d Hqe (Hkeep _ _ Hv0 Hvtx) Hd). symmetry.
        unfold daughtersOf in Hin.
        destruct (decide (M1 ck = -1)) as [HMk|HMk].
        + destruct (primaryDaughters_spec Input) as [P1 P2].
          destruct (decide (k = 0%nat)) as [->|Hk0];
            [|destruct (decide (k = 1%nat)) as [->|Hk1]].
          * apply set_order_elem_of, P1 in Hin as (j' & c' & Hj' & Hc' & HM' & Hr').
            apply Nat2Z.inj in Hj'. subst j'. rewrite Hcand in Hc'.
            injection Hc' as <-. by eapply (Hmo n cand 0%nat ck d).
          * apply set_order_elem_of, P2 in Hin as (j' & c' & Hj' & Hc' & HM' & Hr').
            apply Nat2Z.inj in Hj'. subst j'. rewrite Hcand in Hc'.
            injection Hc' as <-. by eapply (Hmo n cand 1%nat ck d).
          * by apply elem_of_nil in Hin.
        + apply elem_of_int_range in Hin. by eapply (Hda n cand k ck d).
      - rewrite Hsv in Hfresh. injection Hfresh as ->.
        rewrite Hv', lookup_app_r, Nat.sub_diag in Hvtx by lia.
        simpl in Hvtx. by injection Hvtx as <-. }
    split; [exact HstartP|].
    intros v vtx d Hev Hvtx Hd.
    destruct Hend as [(_ & Hnone & _)|[(HD & Hset & -> & Hk)
                     |[(HD & Hunset & Hown & -> & Hsame)|(HD & Hunset & Hnot & d' & Hd' & -> & Hfresh)]]].
    + by rewrite Hnone in Hev.
    + destruct Hk as (k & ck & q & v0 & Hk & Hlt & Hck & HM & Hr & Hq & Hqs & Hv0 & Hev').
      rewrite Hev in Hev'. injection Hev' as ->.
      destruct (IH k q ck Hq Hck) as [IHs _].
      rewrite (IHs v0 vtx Hqs (Hkeep _ _ Hv0 Hvtx)).
      by eapply (Hmo k ck n cand d).
    + rewrite Hsame in Hev. rewrite (HstartP v vtx Hev Hvtx).
      destruct Hown as [HM Hr]. by eapply (Hmo n cand n cand d).
    + rewrite Hev in Hfresh. injection Hfresh as ->.
      rewrite Hv', app_assoc, lookup_app_r, Nat.sub_diag in Hvtx by lia.
      simpl in Hvtx. injection Hvtx as <-. simpl. congruence.
Qed.

(** C3 (amended) : when the positions are consistent along the declared
    links, the point of the start vertex of every output particle is the
    particle's own position, and the point of its end vertex is the position
    of its first daughter, the candidate at index [D1]. *)
Theorem C3_vertex_points res :
  positionsConsistent Input →
  ConvertMCParticles Input = Some res →
  ∀ j cand p,
    Input !! j = Some cand →
    colMCParticles res !! j = Some p →
    (∀ v vtx, StartVertex p = Some v → colGenVertices res !! v = Some vtx →
              vtxPosition vtx = coreVertex (Core p)
              ∧ vtxPosition vtx = candPoint cand)
    ∧ (∀ v vtx daughter,
         EndVertex p = Some v → colGenVertices res !! v = Some vtx →
         zlookup Input (D1 cand) = Some daughter →
         vtxPosition vtx = candPoint daughter).
Proof.
  intros Hcons Hrun j cand p Hcand Hp.
  destruct (vertex_points_inv _ _ Hcons Hrun j p cand Hp Hcand) as [Hs He].
  split; [|exact He].
  intros v vtx Hsv Hvtx. split; [|by eapply Hs].
  destruct (inv_particle _ _ _ _ (mcLoop_Inv _ _ _ _ Hrun) j p Hp)
    as (c & Hc & -> & _).
  rewrite Hcand in Hc. injection Hc as <-. simpl. by eapply Hs.
Qed.

(** The time of a vertex is always that of the candidate being visited. *)
Lemma vertex_time res j cand st s :
  ConvertMCParticles Input = Some res →
  Input !! j = Some cand →
  mcLoop Input (primaryDaughters Input) j (mcInit Input) = Some st →
  vecPartProdVtxIDDecVtxID st !! j = Some s →
  (D1 cand ≠ -1 → s.2 = -1 →
   ¬ (M1 cand ≠ -1 ∧ M1 cand ≤ Z.of_nat j ≤ M2 cand) →
   ∃ p v vtx daughter,
     colMCParticles res !! j = Some p
     ∧ EndVertex p = Some v
     ∧ (length (colGenVertices st) ≤ v)%nat
     ∧ colGenVertices res !! v = Some vtx
     ∧ zlookup Input (D1 cand) = Some daughter
     ∧ vtxPosition vtx = candPoint daughter
     ∧ Ctau vtx = narrow (E (Position cand))
     ∧ ∀ c child pc,
         Input !! c = Some child → colMCParticles res !! c = Some pc →
         StartVertex pc = Some v →
         ∃ vtx', colGenVertices res !! v = Some vtx'
                 ∧ Ctau vtx' = narrow (E (Position cand)))
  ∧ (M1 cand ≠ -1 → s.1 = -1 →
     ∃ p v vtx,
       colMCParticles res !! j = Some p
       ∧ StartVertex p = Some v
       ∧ (length (colGenVertices st) ≤ v)%nat
       ∧ colGenVertices res !! v = Some vtx
       ∧ vtxPosition vtx = candPoint cand
       ∧ Ctau vtx = narrow (E (Position cand))).
Proof.
  intros Hrun Hcand Hst Hs.
  destruct (ConvertMCParticles_visit _ _ _ Hrun Hcand)
    as (st0 & st' & s0 & p & nS & nE & Hst0 & HInv & Hs0 & Hp & Hv' & Hparts
        & Hverts & Hstart & Hend).
  rewrite Hst in Hst0. injection Hst0 as <-.
  rewrite Hs in Hs0. injection Hs0 as <-.
  split.
  - intros HD Hunset Hnot.
    destruct Hend as [(? & _)|[(_ & ? & _)|[(_ & _ & ? & _)
                                           |(_ & _ & _ & d & Hd & -> & Hev)]]];
      [done|done|done|].
    eexists p, _, _, d. split; [done|]. split; [exact Hev|].
    split; [rewrite length_app; lia|].
    assert (Hvtx : colGenVertices res !! length (colGenVertices st ++ nS)
                   = Some (mkGenVertex (candPoint d) (narrow (E (Position cand))))).
    { apply Hverts. rewrite Hv', app_assoc, lookup_app_r, Nat.sub_diag by lia.
      done. }
    split; [exact Hvtx|]. split; [done|]. split; [done|]. split; [done|].
    intros c child pc _ _ _. eexists. split; [exact Hvtx|done].
  - intros HM Hunset.
    destruct Hstart as [(? & _)|[(_ & ? & _)|(_ & _ & -> & Hsv)]]; [done|done|].
    exists p, (length (colGenVertices st)),
      (mkGenVertex (candPoint cand) (narrow (E (Position cand)))).
    split; [done|]. split; [exact Hsv|]. split; [lia|].
    split; [|done].
    apply Hverts. rewrite Hv', lookup_app_r, Nat.sub_diag by lia. reflexivity.
Qed.

End MCVertices.

(** ** Status bits *)

Section StatusBits.
Context `{FM : FloatModel}.
Variable size_type : SizeType.

Lemma ConvertMCParticles_core Input res j cand :
  ConvertMCParticles Input = Some res →
  Input !! j = Some cand →
  ∃ p, colMCParticles res !! j = Some p
       ∧ Core p = withBits (fillCore cand) (mcBits cand).
Proof.
  intros Hrun Hcand. pose proof (mcLoop_Inv _ _ _ _ Hrun) as HInv.
  destruct (lookup_lt_is_Some_2 (colMCParticles res) j) as [p Hp].
  { rewrite (inv_parts _ _ _ _ HInv). by eapply lookup_lt_Some. }
  exists p. split; [done|].
  destruct (inv_particle _ _ _ _ HInv j p Hp) as (c & Hc & Hcore & _).
  rewrite Hcand in Hc. by injection Hc as <-.
Qed.

(** C5 (amended) : a generated particle is given exactly one of [Beam],
    [Stable], [Decayed]: [Beam] without a mother range, else [Stable] without
    a daughter range, else [Decayed]; a track particle is given exactly one
    of [Matched], [Unmatched]; in both cases the particle is stored with these
    bits and the converter does not touch it again. A tower particle is given
    no status bits: its [Bits] member keeps the zero of the
    value-initialisation. *)
Theorem C5_status_bits :
  (∀ Input res j cand,
     ConvertMCParticles Input = Some res → Input !! j = Some cand →
     ∃ p, colMCParticles res !! j = Some p
          ∧ coreBits (Core p)
            = Some (if decide (M1 cand = -1) then kBeam
                    else if decide (D1 cand = -1) then kStable else kDecayed))
  ∧ (∀ msgDebug pool Input colMC out out' j cand,
       ConvertTracks size_type msgDebug pool Input colMC out = Some out' →
       Input !! j = Some cand →
       ∃ p, colParticles out' !! (length (colParticles out) + j)%nat = Some p
            ∧ (coreBits (recCore p) = Some kMatched
               ∨ coreBits (recCore p) = Some kUnmatched))
  ∧ (∀ pool Input colMC out out' j cand,
       ConvertTowers size_type pool Input colMC out = Some out' →
       Input !! j = Some cand →
       ∃ p, colParticles out' !! (length (colParticles out) + j)%nat = Some p
            ∧ coreBits (recCore p) = None).
Proof.
  split; [|split].
  - intros Input res j cand Hrun Hcand.
    destruct (ConvertMCParticles_core _ _ _ _ Hrun Hcand) as (p & Hp & Hcore).
    exists p. split; [done|]. by rewrite Hcore.
  - intros msgDebug pool Input colMC out out' j cand Hrun Hcand.
    destruct (ConvertTracks_particles _ _ _ _ _ _ _ Hrun j cand Hcand)
      as (bits & Hp & Hbits).
    eexists. split; [exact Hp|]. simpl. destruct Hbits as [-> | ->]; auto.
  - intros pool Input colMC out out' j cand Hrun Hcand.
    rewrite (ConvertTowers_particles _ _ _ _ _ _ Hrun).
    exists (mkParticle (fillCore cand)). split; [|done].
    rewrite lookup_app_r by lia.
    replace (length (colParticles out) + j - length (colParticles out))%nat
      with j by lia.
    by rewrite list_lookup_fmap, Hcand.
Qed.

End StatusBits.

(** ** Decay vertices and time *)

(** C10 : a decay vertex created by candidate [j] has the position of the
    first daughter of [j] as its point and the time coordinate of [j] itself
    as [Ctau]; every particle that has this vertex as start vertex therefore
    sees the mother's time there. A newly created start vertex has the
    candidate's own position and time. In the event [ex_two_beams] the start
    vertex of candidate 3 is the decay vertex of candidate 2, with the time of
    candidate 2 and not that of candidate 3. *)
Theorem C10_decay_vertex_time :
  (∀ (FM : FloatModel) (Input : list Candidate) res j cand st s,
     ConvertMCParticles Input = Some res →
     Input !! j = Some cand →
     mcLoop Input (primaryDaughters Input) j (mcInit Input) = Some st →
     vecPartProdVtxIDDecVtxID st !! j = Some s →
     (D1 cand ≠ -1 → s.2 = -1 →
      ¬ (M1 cand ≠ -1 ∧ M1 cand ≤ Z.of_nat j ≤ M2 cand) →
      ∃ p v vtx daughter,
        colMCParticles res !! j = Some p
        ∧ EndVertex p = Some v
        ∧ (length (colGenVertices st) ≤ v)%nat
        ∧ colGenVertices res !! v = Some vtx
        ∧ zlookup Input (D1 cand) = Some daughter
        ∧ vtxPosition vtx = candPoint daughter
        ∧ Ctau vtx = narrow (E (Position cand))
        ∧ ∀ c child pc,
            Input !! c = Some child → colMCParticles res !! c = Some pc →
            StartVertex pc = Some v →
            ∃ vtx', colGenVertices res !! v = Some vtx'
                    ∧ Ctau vtx' = narrow (E (Position cand)))
     ∧ (M1 cand ≠ -1 → s.1 = -1 →
        ∃ p v vtx,
          colMCParticles res !! j = Some p
          ∧ StartVertex p = Some v
          ∧ (length (colGenVertices st) ≤ v)%nat
          ∧ colGenVertices res !! v = Some vtx
          ∧ vtxPosition vtx = candPoint cand
          ∧ Ctau vtx = narrow (E (Position cand))))
  ∧ (∃ res mother pm child pc v vtx,
       ConvertMCParticles ex_two_beams = Some res
       ∧ ex_two_beams !! 2%nat = Some mother
       ∧ ex_two_beams !! 3%nat = Some child
       ∧ colMCParticles res !! 2%nat = Some pm
       ∧ colMCParticles res !! 3%nat = Some pc
       ∧ EndVertex pm = Some v
       ∧ StartVertex pc = Some v
       ∧ colGenVertices res !! v = Some vtx
       ∧ Ctau vtx = narrow (E (Position mother))
       ∧ Ctau vtx ≠ narrow (E (Position child))).
Proof.
  split.
  - intros FM Input res j cand st s. apply vertex_time.
  - eexists _, _, _, _, _, _, _.
    split; [vm_compute; reflexivity|].
    do 7 (split; [reflexivity|]).
    split; [reflexivity|]. vm_compute. discriminate.
Qed.

(** * Concrete events *)

(** ** Tracks *)

(** Every track leaves one relation object in the collection. *)
Lemma ConvertTracks_one_relation_each size_type msgDebug pool Input colMC out' :
  ConvertTracks size_type msgDebug pool Input colMC noTracks = Some out' →
  length (ascColParticlesToMC out') = length Input.
Proof.
  intros Hrun. by destruct (ConvertTracks_lengths _ _ _ _ _ _ _ Hrun) as [_ ->].
Qed.

(** C2 : a track without related candidates, and a track whose related
    candidate resolves outside the collection, are both unmatched, with a
    warning each; yet [ascColParticlesToMC->create()] of line 634 has run
    for both, and the association collection holds two objects that relate
    nothing. This is what the converter returns when the debug block does not
    run; when it runs, it reads through the two handles that were never set
    and the converter faults on the first track. *)
Theorem C2_unmatched_track_keeps_relation :
  ConvertTracks size_int false ex_pool [recCand 200 []; recCand 201 [4%nat]]
    ex_colMC noTracks
  = Some (mkTrackOut
            [mkParticle (withBits (fillCore (recCand 200 [])) kUnmatched);
             mkParticle (withBits (fillCore (recCand 201 [4%nat])) kUnmatched)]
            [mkAssoc None None; mkAssoc None None]
            [warnTrack; warnTrack])
  ∧ ConvertTracks size_int true ex_pool [recCand 200 []; recCand 201 [4%nat]]
      ex_colMC noTracks
    = None.
Proof. split; vm_compute; reflexivity. Qed.

(** ** Towers *)

(** The scenario of the specification: two clusters that both relate to
    generated particle 5 give one relation; the third cluster relates to a
    candidate outside the collection, which is skipped with a warning. *)
Lemma C6_ConvertTowers_witness :
  ∃ out',
    ConvertTowers size_int ex_pool [recCand 200 [5; 6; 7]%nat] ex_colMC noTracks
    = Some out'
    ∧ ascColParticlesToMC out' = [mkAssoc (Some 0%nat) (Some 5%nat)]
    ∧ trackLog out' = [warnTower].
Proof.
  destruct (C6_ConvertTowers_deduplicated size_int ex_pool
              [recCand 200 [5; 6; 7]%nat] ex_colMC noTracks)
    as (out' & Hrun & _ & Hasc & Hlog & _).
  - vm_compute. discriminate.
  - intros _ cand refCand Hcand Href.
    apply list_elem_of_singleton in Hcand. subst cand.
    vm_compute in Href.
    repeat (apply elem_of_cons in Href as [->|Href]);
      [vm_compute; discriminate.. | by apply elem_of_nil in Href].
  - exists out'. split; [exact Hrun|]. rewrite Hasc, Hlog.
    split; vm_compute; reflexivity.
Defined.

(** With a signed [size()] an identifier 0, which no candidate of the
    Delphes factory has, resolves to index -1, passes the test of line 763
    and faults at [colMCParticles->at(id)]; with an unsigned one it is
    skipped. *)
Example ConvertTowers_identifier_zero :
  ConvertTowers size_int (poolOf [recCand 0 []; recCand 100 [0%nat]])
    [recCand 200 [1%nat]] ex_colMC noTracks = None
  ∧ (trackLog <$> ConvertTowers size_unsigned
                    (poolOf [recCand 0 []; recCand 100 [0%nat]])
                    [recCand 200 [1%nat]] ex_colMC noTracks)
    = Some [warnTower].
Proof. split; vm_compute; reflexivity. Qed.

(** C5 : the particle made from a tower carries none of the five status
    bits. *)
Lemma C5_counterexample_tower_without_bits :
  ∃ out' p,
    ConvertTowers size_int ex_pool [recCand 200 [5; 6]%nat] ex_colMC noTracks
    = Some out'
    ∧ colParticles out' !! 0%nat = Some p
    ∧ coreBits (recCore p) = None
    ∧ ∀ status : ParticleStatus, coreBits (recCore p) ≠ Some status.
Proof.
  eexists _, _. split; [vm_compute; reflexivity|].
  split; [reflexivity|]. split; [reflexivity|]. intros status. discriminate.
Qed.

Lemma C5_status_bits_witness :
  ∃ res p,
    ConvertMCParticles ex_two_beams = Some res
    ∧ colMCParticles res !! 2%nat = Some p
    ∧ coreBits (Core p) = Some kDecayed.
Proof.
  assert (Hrun : ∃ res, ConvertMCParticles ex_two_beams = Some res).
  { eexists. vm_compute. reflexivity. }
  destruct Hrun as [res Hrun].
  destruct (proj1 (C5_status_bits size_int) ex_two_beams res 2%nat _ Hrun eq_refl)
    as (p & Hp & Hbits).
  exists res, p. split; [exact Hrun|]. split; [exact Hp|]. exact Hbits.
Defined.

(** ** The recursive resolver *)

Lemma ex_pool_acyclic : acyclic ex_pool (λ p, p).
Proof.
  intros p q. unfold ex_pool, poolOf.
  do 8 (destruct p as [|p];
        [simpl; rewrite ?elem_of_cons, ?elem_of_nil; lia|]).
  simpl. by rewrite elem_of_nil.
Defined.

(** The scenario of the specification: the only constituent (candidate 4)
    has no relations; the resolver contributes no index and one warning. *)
Lemma C4_findJetPartMC_witness :
  ∃ res,
    (∀ fuel, (4 < fuel)%nat → findJetPartMC fuel ex_pool 4%nat 10 (∅, []) = Some res)
    ∧ resolver_contract ex_pool 10 4%nat (∅, []) res
    ∧ (GetCandidates (ex_pool 4%nat) = [] → res = (∅, [warnJet])).
Proof.
  exact (C4_findJetPartMC_terminates ex_pool 10 (λ p, p) 4%nat (∅, []) ex_pool_acyclic).
Defined.

(** The same scenario through [ConvertJets]: one jet, no relation to a
    generated particle, one warning. *)
Example ConvertJets_dead_end :
  ∃ out,
    ConvertJets 5 ex_pool [recCand 300 [4%nat]] ex_colMC
      (mkJetOut [] [] [] [] [] [] []) = Some out
    ∧ length (colJets out) = 1%nat
    ∧ ascColJetsToMC out = []
    ∧ jetLog out = [warnJet].
Proof. eexists. split; [vm_compute; reflexivity|]. repeat split; reflexivity. Qed.

(** A relation graph with a cycle, on which no amount of fuel suffices. *)
Lemma findJetPartMC_cycle fuel st :
  findJetPartMC fuel (λ _, recCand 100 [0%nat]) 0%nat 10 st = None.
Proof.
  revert st. induction fuel as [|fuel IH]; intros st; [done|].
  rewrite findJetPartMC_unfold. simpl. by rewrite IH.
Qed.

(** Constituent 2 is linked to generated particle 5 directly, constituent 3
    through the pass-through node 1. *)
Lemma C9_extra_hop_witness :
  (∀ st res,
     findJetPartMC 2 ex_pool 2%nat (to_int (Z.of_nat 10)) st = Some res →
     findJetPartMC 3 ex_pool 3%nat (to_int (Z.of_nat 10)) st = Some res)
  ∧ (∀ jet jet' cs1 cs2 st res,
       GetCandidates jet = cs1 ++ 2%nat :: cs2 →
       GetCandidates jet' = cs1 ++ 3%nat :: cs2 →
       jetRefs 2 ex_pool 10 jet st = Some res →
       jetRefs 3 ex_pool 10 jet' st = Some res).
Proof.
  apply (C9_extra_hop_same_indices ex_pool 10 2 2%nat 3%nat 1%nat 0%nat [] []).
  - reflexivity.
  - reflexivity.
  - reflexivity.
  - vm_compute. reflexivity.
  - vm_compute. discriminate.
Defined.

Example extra_hop_same_set :
  findJetPartMC 2 ex_pool 2%nat 10 (∅, []) = Some ({[5]}, [])
  ∧ findJetPartMC 3 ex_pool 3%nat 10 (∅, []) = Some ({[5]}, []).
Proof. split; vm_compute; reflexivity. Qed.

(** ** Generated particles and vertices *)

(** C1 : in [ex_two_beams] candidate 2 names both colliding particles as
    mothers and both name it as first daughter; its start vertex is the end
    vertex of particle 0, while particle 1 has an end vertex of its own, a
    second object at the same point. With the decaying candidate stored after
    its daughters ([ex_children_first]) the two daughters get a start vertex
    each, again at one point, and the event has four vertices instead of
    three. *)
Lemma C1_counterexample_duplicated_vertex :
  ∃ res res',
    ConvertMCParticles ex_two_beams = Some res
    ∧ ConvertMCParticles ex_children_first = Some res'
    ∧ (StartVertex <$> (colMCParticles res !! 2%nat)) = Some (Some 0%nat)
    ∧ (EndVertex <$> (colMCParticles res !! 0%nat)) = Some (Some 0%nat)
    ∧ (EndVertex <$> (colMCParticles res !! 1%nat)) = Some (Some 1%nat)
    ∧ (vtxPosition <$> (colGenVertices res !! 0%nat)) = Some (mkPoint 0 0 0)
    ∧ (vtxPosition <$> (colGenVertices res !! 1%nat)) = Some (mkPoint 0 0 0)
    ∧ length (colGenVertices res) = 3%nat
    ∧ (StartVertex <$> (colMCParticles res' !! 2%nat)) = Some (Some 2%nat)
    ∧ (StartVertex <$> (colMCParticles res' !! 3%nat)) = Some (Some 3%nat)
    ∧ (EndVertex <$> (colMCParticles res' !! 4%nat)) = Some (Some 2%nat)
    ∧ (vtxPosition <$> (colGenVertices res' !! 2%nat)) = Some (mkPoint 5 5 5)
    ∧ (vtxPosition <$> (colGenVertices res' !! 3%nat)) = Some (mkPoint 5 5 5)
    ∧ length (colGenVertices res') = 4%nat.
Proof.
  eexists _, _.
  split; [vm_compute; reflexivity|]. split; [vm_compute; reflexivity|].
  repeat split; reflexivity.
Qed.

(** Candidate 3 of [ex_two_beams] finds its start slot set by candidate 2
    and takes over the end vertex of particle 2. *)
Lemma C1_vertex_reuse_witness :
  ∃ res p q v,
    ConvertMCParticles ex_two_beams = Some res
    ∧ colMCParticles res !! 3%nat = Some p
    ∧ colMCParticles res !! 2%nat = Some q
    ∧ EndVertex q = Some v
    ∧ StartVertex p = Some v.
Proof.
  assert (Hrun : ∃ res, ConvertMCParticles ex_two_beams = Some res).
  { eexists. vm_compute. reflexivity. }
  destruct Hrun as [res Hrun].
  destruct (C1_vertex_reuse ex_two_beams res Hrun) as [_ Hvisit].
  destruct (Hvisit 3%nat _ eq_refl)
    as (st & s & p & Hst & Hs & Hp & Hlister & _ & Hreuse & _).
  assert (Hlists : listsDaughter ex_two_beams 2 3).
  { exists (genCand 0 1 3 4 0 0 0 0 3). split; [reflexivity|].
    split; [simpl; lia|]. apply elem_of_int_range. simpl. lia. }
  destruct Hlister as [[_ Hnone]|(k0 & Hk0 & _ & _ & _)];
    [destruct (Hnone 2%nat); [lia|exact Hlists]|].
  destruct Hreuse as (k & q & v & Hk & _ & Hq & Hqe & Hps & _);
    [simpl; lia | lia |].
  vm_compute in Hst. injection Hst as <-.
  vm_compute in Hs. injection Hs as <-.
  assert (k = 2%nat) as -> by (simpl in Hk; lia).
  exists res, p, q, v. repeat split; assumption.
Defined.

(** C3 : candidates 2 and 3 of [ex_siblings_apart] are both daughters of
    candidate 0 but lie at different points; the start vertex of particle 3
    is the decay vertex of particle 0, at the position of candidate 2. *)
Lemma C3_counterexample_sibling_position :
  ∃ res p v vtx,
    ConvertMCParticles ex_siblings_apart = Some res
    ∧ colMCParticles res !! 3%nat = Some p
    ∧ StartVertex p = Some v
    ∧ colGenVertices res !! v = Some vtx
    ∧ coreVertex (Core p) = mkPoint 2 2 2
    ∧ vtxPosition vtx = mkPoint 1 1 1
    ∧ vtxPosition vtx ≠ coreVertex (Core p).
Proof.
  eexists _, _, _, _.
  split; [vm_compute; reflexivity|].
  do 5 (split; [reflexivity|]). vm_compute. discriminate.
Qed.

Lemma ex_two_beams_consistent : positionsConsistent ex_two_beams.
Proof.
  split; [|split].
  - intros k ck Hk HD.
    do 5 (destruct k as [|k]; [injection Hk as <-; by vm_compute; eauto|]).
    done.
  - intros i ci k ck d Hi Hk HM Hr Hd.
    do 5 (destruct i as [|i];
          [injection Hi as <-; simpl in HM, Hr;
           do 5 (destruct k as [|k];
                 [injection Hk as <-; simpl in Hd; try lia;
                  by injection Hd as <-|]);
           simpl in Hk; done|]).
    done.
  - intros i ci k ck d Hi Hk HM Hr Hd.
    do 5 (destruct k as [|k];
          [injection Hk as <-; simpl in HM, Hr, Hd; try lia;
           do 5 (destruct i as [|i];
                 [injection Hi as <-; try lia; by injection Hd as <-|]);
           simpl in Hi; done|]).
    done.
Defined.

Lemma C3_vertex_points_witness :
  ∃ res p q,
    ConvertMCParticles ex_two_beams = Some res
    ∧ colMCParticles res !! 3%nat = Some p
    ∧ colMCParticles res !! 2%nat = Some q
    ∧ (∀ v vtx, StartVertex p = Some v → colGenVertices res !! v = Some vtx →
                vtxPosition vtx = coreVertex (Core p)
                ∧ vtxPosition vtx = mkPoint 5 5 5)
    ∧ (∀ v vtx, EndVertex q = Some v → colGenVertices res !! v = Some vtx →
                vtxPosition vtx = mkPoint 5 5 5).
Proof.
  assert (Hrun : ∃ res, ConvertMCParticles ex_two_beams = Some res).
  { eexists. vm_compute. reflexivity. }
  destruct Hrun as [res Hrun].
  assert (Hp : ∃ p, colMCParticles res !! 3%nat = Some p).
  { vm_compute in Hrun. injection Hrun as <-. eexists. reflexivity. }
  assert (Hq : ∃ q, colMCParticles res !! 2%nat = Some q).
  { vm_compute in Hrun. injection Hrun as <-. eexists. reflexivity. }
  destruct Hp as [p Hp]. destruct Hq as [q Hq].
  exists res, p, q. split; [exact Hrun|]. split; [exact Hp|]. split; [exact Hq|].
  destruct (C3_vertex_points ex_two_beams res ex_two_beams_consistent Hrun
              3%nat _ p eq_refl Hp) as [Hstart _].
  destruct (C3_vertex_points ex_two_beams res ex_two_beams_consistent Hrun
              2%nat _ q eq_refl Hq) as [_ Hend].
  split; [exact Hstart|].
  intros v vtx Hv Hvtx. exact (Hend v vtx _ Hv Hvtx eq_refl).
Defined.

(** C7 : in [ex_scenario] the mother range of candidate 3 does not contain
    index 1, and candidate 3 is not among the known daughters of colliding
    particle 1; nothing in the output links it to particle 1 either: its
    start vertex is the end vertex of particle 0, and particle 1 has another
    end vertex. *)
Lemma C7_counterexample_not_a_known_daughter :
  ∃ res,
    (M1 <$> (ex_scenario !! 3%nat)) = Some 0
    ∧ (M2 <$> (ex_scenario !! 3%nat)) = Some 0
    ∧ (D1 <$> (ex_scenario !! 1%nat)) = Some 2
    ∧ (D2 <$> (ex_scenario !! 1%nat)) = Some 3
    ∧ (3 ∉ (primaryDaughters ex_scenario).2)
    ∧ set_order (primaryDaughters ex_scenario).2 = []
    ∧ ConvertMCParticles ex_scenario = Some res
    ∧ (StartVertex <$> (colMCParticles res !! 3%nat)) = Some (Some 0%nat)
    ∧ (EndVertex <$> (colMCParticles res !! 0%nat)) = Some (Some 0%nat)
    ∧ (EndVertex <$> (colMCParticles res !! 1%nat)) = Some (Some 1%nat).
Proof.
  eexists. do 4 (split; [reflexivity|]).
  split.
  { intros Hin. apply set_order_elem_of in Hin. vm_compute in Hin.
    by apply elem_of_nil in Hin. }
  split; [vm_compute; reflexivity|].
  split; [vm_compute; reflexivity|].
  repeat split; reflexivity.
Qed.

(** With index 1 in the mother range of candidate 3 ([ex_scenario_linked])
    the candidate is a known daughter of colliding particle 1, candidate 2 is
    not; when particle 1 is visited the start slot of candidate 3 is already
    set, by particle 0, and stays. *)
Lemma C7_primary_daughters_witness :
  3 ∈ (primaryDaughters ex_scenario_linked).2
  ∧ (2 ∉ (primaryDaughters ex_scenario_linked).2)
  ∧ ∃ st st' si',
      mcLoop ex_scenario_linked (primaryDaughters ex_scenario_linked) 1
        (mcInit ex_scenario_linked) = Some st
      ∧ mcLoop ex_scenario_linked (primaryDaughters ex_scenario_linked) 2
          (mcInit ex_scenario_linked) = Some st'
      ∧ vecPartProdVtxIDDecVtxID st !! 3%nat = Some (0, -1)
      ∧ vecPartProdVtxIDDecVtxID st' !! 3%nat = Some si'
      ∧ si'.1 = 0.
Proof.
  destruct (C7_primary_daughters ex_scenario_linked) as (_ & H2 & Hprop).
  split; [|split].
  - apply H2. exists 3%nat. eexists. split; [reflexivity|].
    split; [reflexivity|]. simpl. lia.
  - intros (j & c & Hj & Hc & HM & Hr)%H2.
    assert (j = 2%nat) as -> by lia. injection Hc as <-. simpl in Hr. lia.
  - assert (Hst : ∃ st, mcLoop ex_scenario_linked (primaryDaughters ex_scenario_linked)
                          1 (mcInit ex_scenario_linked) = Some st).
    { eexists. vm_compute. reflexivity. }
    assert (Hst' : ∃ st', mcLoop ex_scenario_linked (primaryDaughters ex_scenario_linked)
                            2 (mcInit ex_scenario_linked) = Some st').
    { eexists. vm_compute. reflexivity. }
    destruct Hst as [st Hst]. destruct Hst' as [st' Hst'].
    assert (Hsi : vecPartProdVtxIDDecVtxID st !! 3%nat = Some (0, -1)).
    { vm_compute in Hst. injection Hst as <-. reflexivity. }
    destruct (Hprop 1%nat _ st st' ltac:(by right) eq_refl eq_refl
                ltac:(vm_compute; discriminate) Hst Hst' 3%nat _ Hsi)
      as (si' & Hsi' & Hfirst).
    exists st, st', si'. repeat (split; [assumption|]).
    rewrite Hfirst. rewrite decide_False; [reflexivity|].
    simpl. intros [? _]. lia.
Defined.

(** Candidate 2 of [ex_two_beams] creates its decay vertex: the point is
    that of candidate 3, the time its own. *)
Lemma C10_decay_vertex_time_witness :
  ∃ res p v vtx,
    ConvertMCParticles ex_two_beams = Some res
    ∧ colMCParticles res !! 2%nat = Some p
    ∧ EndVertex p = Some v
    ∧ colGenVertices res !! v = Some vtx
    ∧ vtxPosition vtx = mkPoint 5 5 5
    ∧ Ctau vtx = 0.
Proof.
  assert (Hrun : ∃ res, ConvertMCParticles ex_two_beams = Some res).
  { eexists. vm_compute. reflexivity. }
  destruct Hrun as [res Hrun].
  assert (Hst : ∃ st, mcLoop ex_two_beams (primaryDaughters ex_two_beams) 2
                        (mcInit ex_two_beams) = Some st).
  { eexists. vm_compute. reflexivity. }
  destruct Hst as [st Hst].
  assert (Hs : vecPartProdVtxIDDecVtxID st !! 2%nat = Some (0, -1)).
  { vm_compute in Hst. injection Hst as <-. reflexivity. }
  destruct (proj1 C10_decay_vertex_time ZModel ex_two_beams res 2%nat _ st _
              Hrun eq_refl Hst Hs) as [Hdecay _].
  destruct Hdecay as (p & v & vtx & d & Hp & Hev & _ & Hvtx & Hd & Hpos & Htime & _).
  - vm_compute. discriminate.
  - reflexivity.
  - simpl. lia.
  - exists res, p, v, vtx. repeat (split; [assumption|]).
    injection Hd as <-. split; [exact Hpos | exact Htime].
Defined.

(** ** Missing transverse energy *)

(** The scenario of the specification: three missing-energy entries, two
    scalar sums. *)
Example ConvertMET_length_mismatch :
  ConvertMET [recCand 1 []; recCand 2 []; recCand 3 []]
             [recCand 4 []; recCand 5 []] ([], [])
  = Some ([mkMET 0 0 (-1); mkMET 0 0 (-1); mkMET 0 0 (-1)], [warnMET]).
Proof. vm_compute. reflexivity. Qed.

(** * Further properties of the converters *)

(** ** The recursive resolver and its accumulator *)

Section ResolverFrame.
Context `{FM : FloatModel}.
Variable pool : Pool.
Variable rangeMCPart : Z.

(** A run from a smaller accumulator can be replayed from a larger one. *)
Lemma findJetPartMC_frame_gen fuel jetPart (S0 R : gset Z) (L0 W : list string) :
  findJetPartMC fuel pool jetPart rangeMCPart (S0, L0) = Some (R, W) →
  ∀ (T : gset Z) (L : list string),
    findJetPartMC fuel pool jetPart rangeMCPart (S0 ∪ T, L ++ L0)
    = Some (R ∪ T, L ++ W).
Proof.
  revert jetPart S0 R L0 W.
  induction fuel as [|fuel IH]; intros jetPart S0 R L0 W; [discriminate|].
  intros Hrun T L. revert Hrun. rewrite !findJetPartMC_unfold.
  destruct (decide (length (GetCandidates (pool jetPart)) = 0%nat)) as [Hlen|Hlen].
  - cbn [fst snd]. intros [= <- <-]. by rewrite app_assoc.
  - clear Hlen. revert S0 L0.
    induction (GetCandidates (pool jetPart)) as [|q l IHl]; intros S0 L0.
    + cbn [for_each]. by intros [= <- <-].
    + cbn [for_each fst snd].
      destruct (decide (refId (pool q) < rangeMCPart)) as [Hin|Hout].
      * cbn [mbind option_bind]. intros Hrest.
        rewrite (assoc_L (∪)). by apply IHl.
      * destruct (findJetPartMC fuel pool q rangeMCPart (S0, L0))
          as [[S1 L1]|] eqn:Hq; [|discriminate].
        cbn [mbind option_bind]. intros Hrest.
        rewrite (IH _ _ _ _ _ Hq T L). cbn [mbind option_bind].
        by apply IHl.
Qed.

(** What a run adds to the accumulator: the set only grows, by indices below
    the range that are the identifier of some related candidate; the log
    only grows, by the warning of the resolver. *)
Lemma findJetPartMC_grows fuel jetPart (st res : gset Z * list string) :
  findJetPartMC fuel pool jetPart rangeMCPart st = Some res →
  st.1 ⊆ res.1
  ∧ (∀ id, id ∈ res.1 →
       id ∈ st.1
       ∨ (id < rangeMCPart
          ∧ ∃ p q, q ∈ GetCandidates (pool p) ∧ id = refId (pool q)))
  ∧ ∃ k, res.2 = st.2 ++ replicate k warnJet.
Proof.
  revert jetPart st res.
  induction fuel as [|fuel IH]; intros jetPart st res; [discriminate|].
  rewrite findJetPartMC_unfold.
  destruct (decide (length (GetCandidates (pool jetPart)) = 0%nat)) as [Hlen|Hlen].
  - intros [= <-]. cbn [fst snd]. split; [reflexivity|].
    split; [by left|]. by exists 1%nat.
  - clear Hlen.
    assert (Hsub : ∀ q, q ∈ GetCandidates (pool jetPart)
                        → q ∈ GetCandidates (pool jetPart)) by done.
    revert Hsub. generalize (GetCandidates (pool jetPart)) at 1 3 as l.
    intros l. revert st. induction l as [|q l IHl]; intros st Hsub.
    + cbn [for_each]. intros [= <-]. split; [reflexivity|].
      split; [by left|]. exists 0%nat. by rewrite app_nil_r.
    + cbn [for_each].
      destruct (decide (refId (pool q) < rangeMCPart)) as [Hin|Hout].
      * cbn [mbind option_bind]. intros Hrest.
        destruct (IHl _ (λ q' Hq', Hsub q' (list_elem_of_further _ _ _ Hq')) Hrest)
          as (Hs & Hb & k & Hk).
        cbn [fst snd] in Hs, Hb, Hk. split; [set_solver|]. split.
        -- intros id Hid. destruct (Hb id Hid) as [Hold|Hnew]; [|by right].
           apply elem_of_union in Hold as [Hq|Hold]; [|by left].
           apply elem_of_singleton in Hq. subst id. right. split; [done|].
           exists jetPart, q. split; [|done]. apply Hsub. left.
        -- by exists k.
      * destruct (findJetPartMC fuel pool q rangeMCPart st) as [st1|] eqn:Hq;
          [|discriminate].
        cbn [mbind option_bind]. intros Hrest.
        destruct (IH _ _ _ Hq) as (Hs1 & Hb1 & k1 & Hk1).
        destruct (IHl _ (λ q' Hq', Hsub q' (list_elem_of_further _ _ _ Hq')) Hrest)
          as (Hs & Hb & k & Hk).
        split; [set_solver|]. split.
        -- intros id Hid. destruct (Hb id Hid) as [Hold|Hnew]; [|by right].
           by apply Hb1.
        -- exists (k1 + k)%nat. by rewrite Hk, Hk1, replicate_add, app_assoc.
Qed.

Lemma findJetPartMC_loop_mono fuel (l : list ptr) (s r : gset Z * list string) :
  for_each (λ refCand st,
              if decide (refId (pool refCand) < rangeMCPart)
              then Some ({[refId (pool refCand)]} ∪ st.1, st.2)
              else findJetPartMC fuel pool refCand rangeMCPart st) l s = Some r →
  s.1 ⊆ r.1 ∧ (length s.2 ≤ length r.2)%nat.
Proof.
  revert s. induction l as [|x l IHl]; intros s.
  - cbn [for_each]. by intros [= <-].
  - cbn [for_each].
    destruct (decide (refId (pool x) < rangeMCPart)).
    + cbn [mbind option_bind]. intros Hr.
      destruct (IHl _ Hr) as [Hs Hl]. cbn [fst snd] in Hs, Hl.
      split; [set_solver|lia].
    + destruct (findJetPartMC fuel pool x rangeMCPart s) as [s1|] eqn:Hx;
        [|discriminate].
      cbn [mbind option_bind]. intros Hr.
      destruct (IHl _ Hr) as [Hs Hl].
      destruct (findJetPartMC_grows _ _ _ _ Hx) as (Hs1 & _ & k & Hk).
      rewrite Hk, length_app in Hl. split; [set_solver|lia].
Qed.

(** No constituent is dropped in silence: a run leaves an index below the
    range in the set, or it logs a warning. *)
Lemma findJetPartMC_not_silent fuel jetPart (st res : gset Z * list string) :
  findJetPartMC fuel pool jetPart rangeMCPart st = Some res →
  (∃ id, id ∈ res.1 ∧ id < rangeMCPart) ∨ (length st.2 < length res.2)%nat.
Proof.
  revert jetPart st res.
  induction fuel as [|fuel IH]; intros jetPart st res; [discriminate|].
  rewrite findJetPartMC_unfold.
  destruct (decide (length (GetCandidates (pool jetPart)) = 0%nat)) as [Hlen|Hlen].
  - intros [= <-]. right. cbn [snd]. rewrite length_app. simpl. lia.
  - destruct (GetCandidates (pool jetPart)) as [|q l]; [done|]. clear Hlen.
    cbn [for_each].
    destruct (decide (refId (pool q) < rangeMCPart)) as [Hin|Hout].
    + cbn [mbind option_bind]. intros Hrest.
      destruct (findJetPartMC_loop_mono _ _ _ _ Hrest) as [Hs _]. cbn [fst] in Hs.
      left. exists (refId (pool q)). split; [set_solver|done].
    + destruct (findJetPartMC fuel pool q rangeMCPart st) as [st1|] eqn:Hq;
        [|discriminate].
      cbn [mbind option_bind]. intros Hrest.
      destruct (findJetPartMC_loop_mono _ _ _ _ Hrest) as [Hs Hl].
      destruct (IH _ _ _ Hq) as [(id & Hid & Hlt)|Hlog].
      * left. exists id. split; [set_solver|done].
      * right. lia.
Qed.

(** Whether a run returns does not depend on the accumulator. *)
Lemma findJetPartMC_returns_indep fuel jetPart (st st' : gset Z * list string) :
  is_Some (findJetPartMC fuel pool jetPart rangeMCPart st) →
  is_Some (findJetPartMC fuel pool jetPart rangeMCPart st').
Proof.
  revert jetPart st st'.
  induction fuel as [|fuel IH]; intros jetPart st st'; [by intros [? ?]|].
  rewrite !findJetPartMC_unfold.
  destruct (decide (length (GetCandidates (pool jetPart)) = 0%nat)) as [Hlen|Hlen];
    [by eauto|].
  clear Hlen. revert st st'.
  induction (GetCandidates (pool jetPart)) as [|q l IHl]; intros st st'.
  - cbn [for_each]. by eauto.
  - cbn [for_each].
    destruct (decide (refId (pool q) < rangeMCPart)).
    + cbn [mbind option_bind]. apply IHl.
    + destruct (findJetPartMC fuel pool q rangeMCPart st) as [s1|] eqn:Hq;
        [|by intros [? ?]].
      destruct (IH q st st') as [s1' Hq']; [by rewrite Hq|].
      rewrite Hq'. cbn [mbind option_bind]. apply IHl.
Qed.

(** *** X1 *)

(** X1 : what a constituent contributes does not depend on the accumulator
    that is passed by reference. A run of the resolver from any set and log
    returns exactly when the run from the empty set and the empty log
    returns, and its result is then the accumulator joined with the
    contribution [(R, W)] of that run: the set is [R] united with the set
    passed in, the log is the log passed in followed by [W]. *)
Theorem X1_findJetPartMC_accumulator fuel jetPart (st res : gset Z * list string) :
  findJetPartMC fuel pool jetPart rangeMCPart st = Some res →
  ∃ R W,
    findJetPartMC fuel pool jetPart rangeMCPart (∅, []) = Some (R, W)
    ∧ res = (R ∪ st.1, st.2 ++ W)
    ∧ ∀ st' : gset Z * list string,
        findJetPartMC fuel pool jetPart rangeMCPart st'
        = Some (R ∪ st'.1, st'.2 ++ W).
Proof.
  intros Hrun.
  destruct (findJetPartMC_returns_indep fuel jetPart st (∅, []))
    as [[R W] Hempty]; [by rewrite Hrun|].
  assert (Hall : ∀ st' : gset Z * list string,
            findJetPartMC fuel pool jetPart rangeMCPart st'
            = Some (R ∪ st'.1, st'.2 ++ W)).
  { intros [T L]. pose proof (findJetPartMC_frame_gen _ _ _ _ _ _ Hempty T L) as H.
    by rewrite (left_id_L ∅ (∪)), app_nil_r in H. }
  exists R, W. split; [exact Hempty|]. split; [|exact Hall].
  rewrite Hall in Hrun. by injection Hrun.
Qed.

(** *** X2 *)

(** X2 : the resolver only ever adds to its accumulator. The set it returns
    contains the set it was given; every index it added is below the range
    and is the identifier (minus one) of a related candidate of some
    candidate; the log it returns is the log it was given followed by some
    number of copies of the one warning of the resolver. And no constituent
    is dropped in silence: after the run the set holds an index below the
    range, or the log has grown. *)
Theorem X2_findJetPartMC_only_adds fuel jetPart (st res : gset Z * list string) :
  findJetPartMC fuel pool jetPart rangeMCPart st = Some res →
  st.1 ⊆ res.1
  ∧ (∀ id, id ∈ res.1 → id ∉ st.1 →
       id < rangeMCPart
       ∧ ∃ p q, q ∈ GetCandidates (pool p) ∧ id = refId (pool q))
  ∧ (∃ k, res.2 = st.2 ++ replicate k warnJet)
  ∧ ((∃ id, id ∈ res.1 ∧ id < rangeMCPart) ∨ (length st.2 < length res.2)%nat).
Proof.
  intros Hrun.
  destruct (findJetPartMC_grows _ _ _ _ Hrun) as (Hsub & Hnew & Hlog).
  split; [exact Hsub|]. split; [|split; [exact Hlog|]].
  - intros id Hid Hnot. destruct (Hnew id Hid) as [Hold|Hadd]; [|exact Hadd].
    by destruct Hnot.
  - by eapply findJetPartMC_not_silent.
Qed.

End ResolverFrame.

(** ** [ConvertJets] *)

Section Jets.
Context `{FM : FloatModel}.
Variable pool : Pool.

Lemma to_int_of_nat (size : nat) :
  Z.of_nat size < 2 ^ 31 → to_int (Z.of_nat size) = Z.of_nat size.
Proof. intros Hsize. unfold to_int. rewrite Z.mod_small; lia. Qed.

Lemma jetRefs_grows fuel size cand (st res : gset Z * list string) :
  jetRefs fuel pool size cand st = Some res →
  st.1 ⊆ res.1
  ∧ (∀ id, id ∈ res.1 →
       id ∈ st.1
       ∨ (id < to_int (Z.of_nat size)
          ∧ ∃ p q, q ∈ GetCandidates (pool p) ∧ id = refId (pool q)))
  ∧ ∃ k, res.2 = st.2 ++ replicate k warnJet.
Proof.
  unfold jetRefs. revert st.
  induction (GetCandidates cand) as [|jetPart l IH]; intros st.
  - cbn [for_each]. intros [= <-]. split; [reflexivity|]. split; [by left|].
    exists 0%nat. by rewrite app_nil_r.
  - cbn [for_each].
    destruct (findJetPartMC fuel pool jetPart _ st) as [st1|] eqn:Hq; [|discriminate].
    cbn [mbind option_bind]. intros Hrest.
    destruct (findJetPartMC_grows _ _ _ _ _ _ Hq) as (Hs1 & Hb1 & k1 & Hk1).
    destruct (IH _ Hrest) as (Hs & Hb & k & Hk).
    split; [set_solver|]. split.
    + intros id Hid. destruct (Hb id Hid) as [Hold|Hnew]; [|by right].
      by apply Hb1.
    + exists (k1 + k)%nat. by rewrite Hk, Hk1, replicate_add, app_assoc.
Qed.

(** The loop that saves the relations of a jet returns only when every
    index is inside the collection, and then appends one relation each. *)
Lemma saveJetRelations_inv (colMC : list MCParticle) jet (ids : list Z) asc asc' :
  saveJetRelations colMC jet ids asc = Some asc' →
  asc' = asc ++ ((λ id, mkJetMC (Some jet) (Some (Z.to_nat id))) <$> ids)
  ∧ ∀ id, id ∈ ids → 0 ≤ id < Z.of_nat (length colMC).
Proof.
  unfold saveJetRelations. revert asc.
  induction ids as [|id ids IH]; intros asc; cbn [for_each fmap list_fmap].
  - intros [= <-]. split; [by rewrite app_nil_r|]. intros id Hid.
    by apply elem_of_nil in Hid.
  - destruct (zlookup colMC id) as [p|] eqn:Hat; [|discriminate].
    cbn [mbind option_bind]. intros Hrest.
    destruct (IH _ Hrest) as [-> Hin]. split; [by rewrite <- app_assoc|].
    intros i Hi. apply elem_of_cons in Hi as [->|Hi]; [|by apply Hin].
    by apply zlookup_Some in Hat as [? _].
Qed.

Lemma saveJetRelations_total (colMC : list MCParticle) jet (ids : list Z) asc :
  (∀ id, id ∈ ids → 0 ≤ id < Z.of_nat (length colMC)) →
  is_Some (saveJetRelations colMC jet ids asc).
Proof.
  unfold saveJetRelations. revert asc.
  induction ids as [|id ids IH]; intros asc Hin; cbn [for_each]; [by eauto|].
  destruct (zlookup_is_Some colMC id) as [p ->]; [apply Hin; left|].
  cbn [mbind option_bind]. apply IH. intros i Hi. apply Hin. by right.
Qed.

(** One iteration of the loop over the jets. *)
Lemma jetStep_spec fuel colMC cand out out' :
  jetStep fuel pool colMC cand out = Some out' →
  ∃ (ids : gset Z) k,
    jetRefs fuel pool (length colMC) cand (∅, jetLog out)
    = Some (ids, jetLog out ++ replicate k warnJet)
    ∧ (∀ id, id ∈ ids → 0 ≤ id < Z.of_nat (length colMC))
    ∧ colJets out' = colJets out ++ [jetOf cand]
    ∧ ascColJetsToMC out'
      = ascColJetsToMC out
        ++ ((λ id, mkJetMC (Some (length (colJets out))) (Some (Z.to_nat id)))
              <$> set_order ids)
    ∧ colBTags out' = colBTags out ++ [mkTag (int2float (BTag cand))]
    ∧ ascColJetsToBTags out'
      = ascColJetsToBTags out
        ++ [mkJetTag (Some (length (colJets out))) (Some (length (colBTags out)))]
    ∧ colTauTags out' = colTauTags out ++ [mkTag (int2float (TauTag cand))]
    ∧ ascColJetsToTauTags out'
      = ascColJetsToTauTags out
        ++ [mkJetTag (Some (length (colJets out))) (Some (length (colTauTags out)))]
    ∧ jetLog out' = jetLog out ++ replicate k warnJet.
Proof.
  unfold jetStep.
  destruct (jetRefs fuel pool (length colMC) cand (∅, jetLog out))
    as [[ids log]|] eqn:Hrefs; [|discriminate].
  cbn [mbind option_bind fst snd].
  destruct (saveJetRelations colMC _ (set_order ids) _) as [asc|] eqn:Hsave;
    [|discriminate].
  cbn [mbind option_bind]. intros [= <-].
  destruct (jetRefs_grows _ _ _ _ _ Hrefs) as (_ & _ & k & Hk).
  cbn [fst snd] in Hk. subst log.
  destruct (saveJetRelations_inv _ _ _ _ _ Hsave) as [-> Hin].
  exists ids, k. split; [done|]. split.
  { intros id Hid. apply Hin. by apply set_order_elem_of. }
  cbn. repeat split; reflexivity.
Qed.

Lemma jetRefs_total rank fuel size cand (st : gset Z * list string) :
  acyclic pool rank →
  (∀ jetPart, jetPart ∈ GetCandidates cand → (rank jetPart < fuel)%nat) →
  is_Some (jetRefs fuel pool size cand st).
Proof.
  intros Hacyc. unfold jetRefs. revert st.
  induction (GetCandidates cand) as [|jetPart l IH]; intros st Hrank.
  - cbn [for_each]. by eauto.
  - cbn [for_each].
    destruct (findJetPartMC_contract pool (to_int (Z.of_nat size)) rank fuel jetPart st)
      as (st1 & Hrun & _); [done | apply Hrank; left |].
    rewrite Hrun. cbn [mbind option_bind]. apply IH.
    intros q Hq. apply Hrank. by right.
Qed.

Lemma set_order_sorted (s : gset Z) : StronglySorted Z.lt (set_order s).
Proof.
  pose proof (set_order_NoDup s) as Hnodup.
  assert (Hle : StronglySorted Z.le (set_order s)).
  { unfold set_order. apply StronglySorted_merge_sort; apply _. }
  induction Hle as [|x l Hl IH Hall]; [constructor|].
  apply NoDup_cons in Hnodup as [Hx Hnodup].
  constructor; [by apply IH|].
  rewrite Forall_forall in Hall |- *. intros y Hy.
  specialize (Hall y Hy). assert (x ≠ y) by (by intros ->). lia.
Qed.

(** *** X3 *)

(** X3 : for every entry of the jet array [ConvertJets] appends one jet, one
    b-tag, one tau-tag and one relation from the jet to each of the two tags,
    in the order of the array. The jet has area -1 and carries the
    candidate's [Mass] member (the particle converters take the mass of the
    four-momentum instead); the tags hold the candidate's [BTag] and [TauTag];
    relation [j] of either kind links the [j]-th new jet to the [j]-th new
    tag. *)
Theorem X3_ConvertJets_entries fuel Input colMC out out' :
  ConvertJets fuel pool Input colMC out = Some out' →
  colJets out' = colJets out ++ (jetOf <$> Input)
  ∧ colBTags out'
    = colBTags out ++ ((λ cand, mkTag (int2float (BTag cand))) <$> Input)
  ∧ colTauTags out'
    = colTauTags out ++ ((λ cand, mkTag (int2float (TauTag cand))) <$> Input)
  ∧ ascColJetsToBTags out'
    = ascColJetsToBTags out
      ++ imap (λ j _, mkJetTag (Some (length (colJets out) + j)%nat)
                               (Some (length (colBTags out) + j)%nat)) Input
  ∧ ascColJetsToTauTags out'
    = ascColJetsToTauTags out
      ++ imap (λ j _, mkJetTag (Some (length (colJets out) + j)%nat)
                               (Some (length (colTauTags out) + j)%nat)) Input.
Proof.
  unfold ConvertJets. revert out.
  induction Input as [|cand Input IH]; intros out.
  - cbn [for_each]. intros [= <-]. simpl. by rewrite !app_nil_r.
  - cbn [for_each].
    destruct (jetStep fuel pool colMC cand out) as [out1|] eqn:Hstep; [|discriminate].
    cbn [mbind option_bind]. intros Hrest.
    destruct (jetStep_spec _ _ _ _ _ Hstep)
      as (ids & k & _ & _ & HJ & _ & HB & HJB & HT & HJT & _).
    destruct (IH _ Hrest) as (-> & -> & -> & -> & ->).
    rewrite HJ, HB, HT, HJB, HJT, !length_app. cbn [length].
    rewrite !fmap_cons, !imap_cons, <- !app_assoc, !Nat.add_0_r. cbn [app].
    repeat split; do 2 f_equal; apply imap_ext; intros j c _; simpl;
      f_equal; f_equal; lia.
Qed.

(** *** X4 *)

(** X4 : the relations from jets to generated particles. For every entry of
    the jet array there is a set of indices, the one the loop over the
    constituents of that jet builds from the empty set; [ConvertJets] appends
    one relation per element of the set, by increasing index, each linking
    the jet made from the entry to the generated particle at that index. No
    index is repeated for a jet and every index is inside the collection of
    generated particles. The log grows by copies of the warning of the
    resolver only. *)
Theorem X4_ConvertJets_relations fuel Input colMC out out' :
  ConvertJets fuel pool Input colMC out = Some out' →
  ∃ sets : list (gset Z),
    length sets = length Input
    ∧ ascColJetsToMC out'
      = ascColJetsToMC out
        ++ concat (imap (λ j ids,
                           (λ id, mkJetMC (Some (length (colJets out) + j)%nat)
                                          (Some (Z.to_nat id)))
                             <$> set_order ids) sets)
    ∧ (∃ k, jetLog out' = jetLog out ++ replicate k warnJet)
    ∧ ∀ j ids, sets !! j = Some ids →
        (∀ id, id ∈ ids → 0 ≤ id < Z.of_nat (length colMC))
        ∧ StronglySorted Z.lt (set_order ids)
        ∧ NoDup (Z.to_nat <$> set_order ids)
        ∧ ∃ cand log log',
            Input !! j = Some cand
            ∧ jetRefs fuel pool (length colMC) cand (∅, log) = Some (ids, log').
Proof.
  unfold ConvertJets. revert out.
  induction Input as [|cand Input IH]; intros out.
  - cbn [for_each]. intros [= <-]. exists []. simpl. rewrite app_nil_r.
    split; [done|]. split; [done|]. split; [by exists 0%nat; rewrite app_nil_r|].
    intros j ids Hj. by rewrite lookup_nil in Hj.
  - cbn [for_each].
    destruct (jetStep fuel pool colMC cand out) as [out1|] eqn:Hstep; [|discriminate].
    cbn [mbind option_bind]. intros Hrest.
    destruct (jetStep_spec _ _ _ _ _ Hstep)
      as (ids & k & Hrefs & Hin & HJ & HA & _ & _ & _ & _ & HL).
    destruct (IH _ Hrest) as (sets & Hlen & -> & (k' & ->) & Hsets).
    exists (ids :: sets). split; [simpl; by rewrite Hlen|]. split.
    { rewrite HA, HJ, length_app, imap_cons, <- app_assoc. cbn [length concat].
      rewrite Nat.add_0_r. do 2 f_equal. f_equal. apply imap_ext.
      intros j c _. simpl. apply list_fmap_ext. intros _ id _.
      do 2 f_equal. lia. }
    split.
    { exists (k + k')%nat. by rewrite HL, replicate_add, app_assoc. }
    intros [|j] ids' Hj; simpl in Hj.
    + injection Hj as <-. split; [exact Hin|]. split; [apply set_order_sorted|].
      split.
      * apply NoDup_fmap_2_strong; [|apply set_order_NoDup].
        intros x y Hx Hy Hxy.
        apply set_order_elem_of, Hin in Hx. apply set_order_elem_of, Hin in Hy.
        lia.
      * exists cand, (jetLog out), (jetLog out ++ replicate k warnJet). by split.
    + destruct (Hsets j ids' Hj) as (H1 & H2 & H3 & c & log & log' & Hc & Hrun).
      split; [exact H1|]. split; [exact H2|]. split; [exact H3|].
      exists c, log, log'. by split.
Qed.

Lemma jetStep_is_Some rank fuel colMC cand out :
  acyclic pool rank →
  (∀ jetPart, jetPart ∈ GetCandidates cand → (rank jetPart < fuel)%nat) →
  Z.of_nat (length colMC) < 2 ^ 31 →
  (∀ p q, q ∈ GetCandidates (pool p) → 0 ≤ refId (pool q)) →
  is_Some (jetStep fuel pool colMC cand out).
Proof.
  intros Hacyc Hrank Hsize Hpos. unfold jetStep.
  destruct (jetRefs_total rank fuel (length colMC) cand (∅, jetLog out) Hacyc Hrank)
    as [st Hrefs].
  rewrite Hrefs. cbn [mbind option_bind].
  destruct (saveJetRelations_total colMC (length (colJets out))
              (set_order st.1) (ascColJetsToMC out)) as [asc Hsave].
  { intros id Hid. apply set_order_elem_of in Hid.
    destruct (jetRefs_grows _ _ _ _ _ Hrefs) as (_ & Hnew & _).
    destruct (Hnew id Hid) as [Hold|(Hlt & p & q & Hq & ->)].
    - by apply elem_of_empty in Hold.
    - rewrite to_int_of_nat in Hlt by done. split; [by eapply Hpos|done]. }
  rewrite Hsave. cbn [mbind option_bind]. by eauto.
Qed.

(** *** X5 *)

(** X5 : [ConvertJets] returns, with one jet per entry, when the relation
    graph is acyclic and the fuel exceeds the rank of every jet constituent,
    the collection of generated particles has fewer than 2^31 entries, and
    no related candidate resolves to a negative index (identifiers are taken
    from 1 upwards, as Delphes numbers them). The test of [findJetPartMC] is
    a comparison of two [int], which a negative index passes. *)
Theorem X5_ConvertJets_returns rank fuel Input colMC out :
  acyclic pool rank →
  (∀ cand jetPart, cand ∈ Input → jetPart ∈ GetCandidates cand →
                   (rank jetPart < fuel)%nat) →
  Z.of_nat (length colMC) < 2 ^ 31 →
  (∀ p q, q ∈ GetCandidates (pool p) → 0 ≤ refId (pool q)) →
  ∃ out',
    ConvertJets fuel pool Input colMC out = Some out'
    ∧ length (colJets out') = (length (colJets out) + length Input)%nat.
Proof.
  intros Hacyc Hrank Hsize Hpos. unfold ConvertJets. revert out Hrank.
  induction Input as [|cand Input IH]; intros out Hrank.
  - exists out. cbn [for_each]. split; [done|]. simpl. lia.
  - cbn [for_each].
    assert (Hstep : is_Some (jetStep fuel pool colMC cand out)).
    { apply (jetStep_is_Some rank); [done| |done..].
      intros q Hq. eapply Hrank; [left|exact Hq]. }
    destruct Hstep as [out1 Hstep]. rewrite Hstep. cbn [mbind option_bind].
    destruct (IH out1) as (out' & Hrun & Hlen).
    { intros c q Hc Hq. eapply Hrank; [right; exact Hc|exact Hq]. }
    exists out'. split; [exact Hrun|]. rewrite Hlen.
    destruct (jetStep_spec _ _ _ _ _ Hstep) as (_ & _ & _ & _ & -> & _).
    rewrite length_app. simpl. lia.
Qed.

End Jets.

(** ** [ConvertTracks] and [ConvertTowers] *)

Section TracksTowers.
Context `{FM : FloatModel}.
Variable size_type : SizeType.
Variable msgDebug : bool.
Variable pool : Pool.

Lemma trackStep_returns colMC cand out :
  Z.of_nat (length colMC) ≤ 2 ^ 31 →
  (size_type = size_int →
   ∀ refCand, head (GetCandidates cand) = Some refCand → 0 ≤ refId (pool refCand)) →
  msgDebug = false ∨ is_Some (trackIndex pool (length colMC) cand) →
  trackStep size_type msgDebug pool colMC cand out
  = Some (mkTrackOut
            (colParticles out
               ++ [mkParticle
                     (withBits (fillCore cand)
                        match trackIndex pool (length colMC) cand with
                        | Some _ => kMatched
                        | None => kUnmatched
                        end)])
            (ascColParticlesToMC out
               ++ [match trackIndex pool (length colMC) cand with
                   | Some id => mkAssoc (Some (length (colParticles out)))
                                        (Some (Z.to_nat id))
                   | None => mkAssoc None None
                   end])
            (trackLog out
               ++ match trackIndex pool (length colMC) cand with
                  | Some _ => []
                  | None => [warnTrack]
                  end)).
Proof.
  intros Hsize Hpos Hdbg. revert Hdbg. unfold trackStep, trackDebug, trackIndex.
  destruct (GetCandidates cand) as [|refCand rest].
  - cbn [head mbind option_bind]. intros [->|[? [=]]]. reflexivity.
  - cbn [head mbind option_bind].
    rewrite lt_size_spec; [|apply to_int_range|done|by intros Hty; apply Hpos].
    destruct (decide (0 ≤ refId (pool refCand) < Z.of_nat (length colMC))) as [Hin|Hout].
    + intros _. rewrite bool_decide_true by done.
      destruct (zlookup_is_Some colMC _ Hin) as [p ->]. cbn [mbind option_bind].
      rewrite app_nil_r. by destruct msgDebug.
    + rewrite bool_decide_false by done. intros [->|[? [=]]]. reflexivity.
Qed.

(** A run that returns has got through every iteration. *)
Lemma ConvertTracks_steps Input colMC out out' cand :
  ConvertTracks size_type msgDebug pool Input colMC out = Some out' →
  cand ∈ Input →
  ∃ o o', trackStep size_type msgDebug pool colMC cand o = Some o'.
Proof.
  unfold ConvertTracks. revert out.
  induction Input as [|c Input IH]; intros out; cbn [for_each].
  - intros _ Hcand. by apply elem_of_nil in Hcand.
  - destruct (trackStep size_type msgDebug pool colMC c out) as [out1|] eqn:Hstep;
      [|discriminate].
    cbn [mbind option_bind]. intros Hrest Hcand.
    apply elem_of_cons in Hcand as [->|Hcand]; [by eauto|].
    by apply (IH out1).
Qed.

(** *** X6 *)

(** X6 : when [ConvertTracks] returns and when it faults, over a collection
    that an [int] can index (with a signed [size()], when moreover no first
    related candidate resolves to a negative index). Only the first related
    candidate of a track is looked at; a track is matched when that candidate
    resolves inside the collection of generated particles. The converter
    returns when the debug block does not run, or when every track is
    matched. Entry [j] then gives one particle and one relation object, at
    the same position of their collections: for a matched track the particle
    is marked matched and the relation links it to that generated particle,
    with nothing logged; otherwise the particle is marked unmatched, the
    relation object is left empty and one warning is logged. When the debug
    block runs and some track is not matched, the converter faults: the
    block reads through the empty relation object. *)
Theorem X6_ConvertTracks_returns Input colMC out :
  Z.of_nat (length colMC) ≤ 2 ^ 31 →
  (size_type = size_int →
   ∀ cand refCand, cand ∈ Input → head (GetCandidates cand) = Some refCand →
                   0 ≤ refId (pool refCand)) →
  (msgDebug = false
   ∨ (∀ cand, cand ∈ Input → is_Some (trackIndex pool (length colMC) cand)) →
   ∃ out',
     ConvertTracks size_type msgDebug pool Input colMC out = Some out'
     ∧ colParticles out'
       = colParticles out
         ++ ((λ cand, mkParticle
                        (withBits (fillCore cand)
                           match trackIndex pool (length colMC) cand with
                           | Some _ => kMatched
                           | None => kUnmatched
                           end)) <$> Input)
     ∧ ascColParticlesToMC out'
       = ascColParticlesToMC out
         ++ imap (λ j cand,
                    match trackIndex pool (length colMC) cand with
                    | Some id => mkAssoc (Some (length (colParticles out) + j)%nat)
                                         (Some (Z.to_nat id))
                    | None => mkAssoc None None
                    end) Input
     ∧ trackLog out'
       = trackLog out
         ++ concat ((λ cand, match trackIndex pool (length colMC) cand with
                             | Some _ => []
                             | None => [warnTrack]
                             end) <$> Input))
  ∧ (msgDebug = true →
     (∃ cand, cand ∈ Input ∧ trackIndex pool (length colMC) cand = None) →
     ConvertTracks size_type msgDebug pool Input colMC out = None).
Proof.
  intros Hsize Hpos. split.
  - unfold ConvertTracks. revert out Hpos.
    induction Input as [|cand Input IH]; intros out Hpos Hdbg.
    + exists out. simpl. by rewrite !app_nil_r.
    + cbn [for_each]. rewrite trackStep_returns; [|done| |].
      2:{ intros Hty r Hr. eapply Hpos; [done|left|done]. }
      2:{ destruct Hdbg as [Hoff|Hall]; [by left|right; apply Hall; left]. }
      cbn [mbind option_bind].
      edestruct IH as (out' & Hrun & Hp & Ha & Hl).
      3:{ exists out'. split; [exact Hrun|]. rewrite Hp, Ha, Hl. cbn.
          rewrite <- !app_assoc. repeat split.
          rewrite Nat.add_0_r. do 2 f_equal. apply imap_ext. intros j c _. simpl.
          rewrite length_app. simpl.
          replace (length (colParticles out) + 1 + j)%nat
            with (length (colParticles out) + S j)%nat by lia. done. }
      * intros Hty c r Hc Hr. eapply Hpos; [done|by right|done].
      * destruct Hdbg as [Hoff|Hall]; [by left|].
        right. intros c Hc. apply Hall. by right.
  - intros Hon (cand & Hcand & Hnone).
    destruct (ConvertTracks size_type msgDebug pool Input colMC out)
      as [out'|] eqn:Hrun; [exfalso|reflexivity].
    destruct (ConvertTracks_steps _ _ _ _ _ Hrun Hcand) as (o & o' & Hstep).
    destruct (trackStep_appends _ _ _ _ _ _ _ Hstep)
      as (bits & relation & _ & _ & [(_ & _ & refCand & rest & Hrel & _ & [q Hq] & _)
                                    |(_ & _ & _ & _ & Hoff)]).
    + apply zlookup_Some in Hq as [Hq _]. revert Hnone. unfold trackIndex.
      rewrite Hrel. cbn [head mbind option_bind]. by rewrite decide_True.
    + congruence.
Qed.

(** The two nested loops of [ConvertTowers] are one loop over the related
    candidates of the related clusters. *)
Lemma towerRefs_flat size cand (st : gset Z * list string) :
  towerRefs size_type pool size cand st
  = foldl (λ st refCand,
             let id := refId (pool refCand) in
             if lt_size size_type id size then ({[id]} ∪ st.1, st.2)
             else (st.1, st.2 ++ [warnTower]))
          st (towerRefCands pool cand).
Proof.
  unfold towerRefs, towerRefCands. revert st.
  induction (GetCandidates cand) as [|cls clusters IH]; intros st; [done|].
  rewrite bind_cons, foldl_app. cbn [foldl]. apply IH.
Qed.

(** What that loop computes, with the test of line 763 as the code has it. *)
Lemma towerRefs_raw size (refs : list ptr) (st : gset Z * list string) :
  foldl (λ st refCand,
           let id := refId (pool refCand) in
           if lt_size size_type id size then ({[id]} ∪ st.1, st.2)
           else (st.1, st.2 ++ [warnTower]))
        st refs
  = (list_to_set (filter (λ id, lt_size size_type id size = true)
                    ((λ r, refId (pool r)) <$> refs)) ∪ st.1,
     st.2 ++ replicate
               (length (filter (λ id, lt_size size_type id size = false)
                          ((λ r, refId (pool r)) <$> refs)))
               warnTower).
Proof.
  revert st. induction refs as [|r refs IH]; intros st.
  - simpl. rewrite app_nil_r. destruct st as [ids log]. simpl. f_equal.
    by rewrite (left_id_L ∅ (∪)).
  - cbn [foldl]. rewrite IH. cbv zeta. rewrite fmap_cons.
    destruct (lt_size size_type (refId (pool r)) size) eqn:Hlt.
    + rewrite filter_cons_True by done.
      rewrite filter_cons_False by (rewrite Hlt; discriminate).
      cbn [fst snd]. f_equal. rewrite list_to_set_cons. set_solver.
    + rewrite filter_cons_False by (rewrite Hlt; discriminate).
      rewrite filter_cons_True by done.
      cbn [fst snd length replicate]. f_equal.
      by rewrite <- app_assoc.
Qed.

Lemma towerStep_cluster_order colMC cand cand' out :
  fillCore cand = fillCore cand' →
  GetCandidates cand ≡ₚ GetCandidates cand' →
  towerStep size_type pool colMC cand out = towerStep size_type pool colMC cand' out.
Proof.
  intros Hcore Hperm. unfold towerStep.
  assert (Hrefs : towerRefCands pool cand ≡ₚ towerRefCands pool cand').
  { unfold towerRefCands. by rewrite Hperm. }
  rewrite !towerRefs_flat, !towerRefs_raw, Hcore. cbn [fst snd].
  assert (Hset : ∀ P `{∀ x, Decision (P x)},
            filter P ((λ r, refId (pool r)) <$> towerRefCands pool cand)
            ≡ₚ filter P ((λ r, refId (pool r)) <$> towerRefCands pool cand')).
  { intros P ?. by rewrite Hrefs. }
  rewrite (list_to_set_perm_L _ _ (Hset _ _)).
  by rewrite (Permutation_length (Hset _ _)).
Qed.

(** *** X7 *)

(** X7 : the output of [ConvertTowers] does not depend on the order in which
    a tower lists its clusters. Two arrays whose entries agree in the copied
    kinematics and list the same clusters, in any order, give the same
    particles, the same relations in the same order, and the same log; and
    when one run faults, so does the other. (The indices are gathered in a
    set and the warnings are all alike.) *)
Theorem X7_ConvertTowers_cluster_order Input Input' colMC out :
  Forall2 (λ cand cand',
             fillCore cand = fillCore cand'
             ∧ GetCandidates cand ≡ₚ GetCandidates cand') Input Input' →
  ConvertTowers size_type pool Input colMC out
  = ConvertTowers size_type pool Input' colMC out.
Proof.
  unfold ConvertTowers. intros Hall. revert out.
  induction Hall as [|cand cand' Input Input' [Hcore Hperm] Hall IH]; intros out.
  - reflexivity.
  - cbn [for_each]. rewrite (towerStep_cluster_order _ _ _ _ Hcore Hperm).
    destruct (towerStep size_type pool colMC cand' out) as [out1|]; [|reflexivity].
    cbn [mbind option_bind]. apply IH.
Qed.

End TracksTowers.

(** ** [ConvertMCParticles]: faults *)

Lemma propagateMothers_length j mothers (vec vec' : list (Z * Z)) :
  propagateMothers j mothers vec = Some vec' → length vec' = length vec.
Proof.
  unfold propagateMothers. revert vec.
  induction mothers as [|m0 mothers IH]; intros vec; cbn [for_each].
  - by intros [= <-].
  - destruct (zlookup vec m0) as [slot|]; [|discriminate].
    cbn [mbind option_bind]. intros Hrest. rewrite (IH _ Hrest).
    destruct (decide (slot.2 = -1)); [apply zupdate_length | done].
Qed.

Lemma propagateDaughters_length j daughters (vec vec' : list (Z * Z)) :
  propagateDaughters j daughters vec = Some vec' → length vec' = length vec.
Proof.
  unfold propagateDaughters. revert vec.
  induction daughters as [|d0 daughters IH]; intros vec; cbn [for_each].
  - by intros [= <-].
  - destruct (decide (0 ≤ d0)).
    + destruct (zlookup vec d0) as [slot|]; [|discriminate].
      cbn [mbind option_bind]. intros Hrest. rewrite (IH _ Hrest).
      destruct (decide (slot.1 = -1)); [apply zupdate_length | done].
    + cbn [mbind option_bind]. apply IH.
Qed.

Lemma propagateMothers_bounds j mothers (vec vec' : list (Z * Z)) :
  propagateMothers j mothers vec = Some vec' →
  ∀ m, m ∈ mothers → 0 ≤ m < Z.of_nat (length vec).
Proof.
  unfold propagateMothers. revert vec.
  induction mothers as [|m0 mothers IH]; intros vec; cbn [for_each].
  - intros _ m Hm. by apply elem_of_nil in Hm.
  - destruct (zlookup vec m0) as [slot|] eqn:Hat; [|discriminate].
    cbn [mbind option_bind]. intros Hrest m Hm.
    apply elem_of_cons in Hm as [->|Hm].
    + by apply zlookup_Some in Hat as [? _].
    + specialize (IH _ Hrest m Hm). destruct (decide (slot.2 = -1));
        [by rewrite zupdate_length in IH | done].
Qed.

Lemma propagateMothers_total j mothers (vec : list (Z * Z)) :
  (∀ m, m ∈ mothers → 0 ≤ m < Z.of_nat (length vec)) →
  is_Some (propagateMothers j mothers vec).
Proof.
  unfold propagateMothers. revert vec.
  induction mothers as [|m0 mothers IH]; intros vec Hin; cbn [for_each]; [by eauto|].
  destruct (zlookup_is_Some vec m0) as [slot ->]; [apply Hin; left|].
  cbn [mbind option_bind]. apply IH. intros m Hm.
  destruct (decide (slot.2 = -1)); rewrite ?zupdate_length; apply Hin; by right.
Qed.

Lemma propagateDaughters_bounds j daughters (vec vec' : list (Z * Z)) :
  propagateDaughters j daughters vec = Some vec' →
  ∀ d, d ∈ daughters → 0 ≤ d → d < Z.of_nat (length vec).
Proof.
  unfold propagateDaughters. revert vec.
  induction daughters as [|d0 daughters IH]; intros vec; cbn [for_each].
  - intros _ d Hd. by apply elem_of_nil in Hd.
  - destruct (decide (0 ≤ d0)) as [Hpos|Hneg].
    + destruct (zlookup vec d0) as [slot|] eqn:Hat; [|discriminate].
      cbn [mbind option_bind]. intros Hrest d Hd Hd0.
      apply elem_of_cons in Hd as [->|Hd].
      * by apply zlookup_Some in Hat as [[_ ?] _].
      * specialize (IH _ Hrest d Hd Hd0). destruct (decide (slot.1 = -1));
          [by rewrite zupdate_length in IH | done].
    + cbn [mbind option_bind]. intros Hrest d Hd Hd0.
      apply elem_of_cons in Hd as [->|Hd]; [done|]. by apply (IH _ Hrest).
Qed.

Lemma propagateDaughters_total j daughters (vec : list (Z * Z)) :
  (∀ d, d ∈ daughters → 0 ≤ d → d < Z.of_nat (length vec)) →
  is_Some (propagateDaughters j daughters vec).
Proof.
  unfold propagateDaughters. revert vec.
  induction daughters as [|d0 daughters IH]; intros vec Hin; cbn [for_each];
    [by eauto|].
  destruct (decide (0 ≤ d0)) as [Hpos|Hneg].
  - destruct (zlookup_is_Some vec d0) as [slot ->].
    { split; [done|]. apply Hin; [left|done]. }
    cbn [mbind option_bind]. apply IH. intros d Hd.
    destruct (decide (slot.1 = -1)); rewrite ?zupdate_length; apply Hin; by right.
  - cbn [mbind option_bind]. apply IH. intros d Hd. apply Hin. by right.
Qed.

Section MCFaults.
Context `{FM : FloatModel}.
Variable Input : list Candidate.

(** A visit that returns has found every mother of the range, and every
    daughter of the range of a candidate that has mothers, inside the
    array. *)
Lemma mcStep_bounds prim j st st' cand :
  mcStep Input prim j st = Some st' →
  length (vecPartProdVtxIDDecVtxID st) = length Input →
  Input !! j = Some cand →
  (M1 cand ≠ -1 → ∀ m, M1 cand ≤ m ≤ M2 cand → 0 ≤ m < Z.of_nat (length Input))
  ∧ (M1 cand ≠ -1 → D1 cand ≠ -1 →
     ∀ d, D1 cand ≤ d ≤ D2 cand → 0 ≤ d → d < Z.of_nat (length Input)).
Proof.
  intros Hstep Hvec Hcand. unfold mcStep in Hstep. rewrite Hcand in Hstep.
  cbn [mbind option_bind] in Hstep.
  destruct (productionVertex j cand _) as [st1|] eqn:Hprod; [|discriminate].
  cbn [mbind option_bind] in Hstep.
  assert (Hprod' : length (vecPartProdVtxIDDecVtxID st1) = length Input
            ∧ (M1 cand ≠ -1 → ∀ m, M1 cand ≤ m ≤ M2 cand →
                               0 ≤ m < Z.of_nat (length Input))).
  { revert Hprod. unfold productionVertex.
    destruct (decide (M1 cand ≠ -1)) as [HM|HM]; [|by intros [= <-]].
    cbn [vecPartProdVtxIDDecVtxID colMCParticles colGenVertices].
    destruct (vecPartProdVtxIDDecVtxID st !! j) as [slot|]; [|discriminate].
    cbn [mbind option_bind].
    destruct (decide (slot.1 ≠ -1)).
    - destruct (zlookup _ slot.1) as [p|]; [|discriminate].
      cbn [mbind option_bind vecPartProdVtxIDDecVtxID].
      destruct (propagateMothers _ _ _) as [vec|] eqn:Hm; [|discriminate].
      cbn [mbind option_bind]. intros [= <-].
      cbn [vecPartProdVtxIDDecVtxID].
      pose proof (propagateMothers_bounds _ _ _ _ Hm) as Hb.
      pose proof (propagateMothers_length _ _ _ _ Hm) as Hl. rewrite Hvec in Hb.
      split; [congruence|]. intros _ m Hm'. apply Hb. by apply elem_of_int_range.
    - cbn [mbind option_bind vecPartProdVtxIDDecVtxID].
      destruct (propagateMothers _ _ _) as [vec|] eqn:Hm; [|discriminate].
      cbn [mbind option_bind]. intros [= <-].
      cbn [vecPartProdVtxIDDecVtxID].
      pose proof (propagateMothers_bounds _ _ _ _ Hm) as Hb.
      pose proof (propagateMothers_length _ _ _ _ Hm) as Hl.
      rewrite length_insert in Hb, Hl. rewrite Hvec in Hb.
      split; [congruence|]. intros _ m Hm'. apply Hb. by apply elem_of_int_range. }
  destruct Hprod' as [Hvec1 HM]. split; [exact HM|].
  intros HM1 HD1 d Hd Hpos. revert Hstep. unfold decayVertex.
  rewrite (decide_True _ _ HD1).
  destruct (vecPartProdVtxIDDecVtxID st1 !! j) as [slot|]; [|discriminate].
  cbn [mbind option_bind].
  destruct (decide (slot.2 ≠ -1)).
  - destruct (zlookup _ slot.2) as [p|]; [|discriminate].
    cbn [mbind option_bind vecPartProdVtxIDDecVtxID].
    rewrite (decide_False (P := M1 cand = -1)) by done.
    destruct (propagateDaughters _ _ _) as [vec|] eqn:Hp; [|discriminate].
    intros _. pose proof (propagateDaughters_bounds _ _ _ _ Hp d) as Hb.
    rewrite Hvec1 in Hb. apply Hb; [by apply elem_of_int_range|done].
  - destruct (zlookup Input (D1 cand)) as [daughter|]; [|discriminate].
    cbn [mbind option_bind vecPartProdVtxIDDecVtxID].
    rewrite (decide_False (P := M1 cand = -1)) by done.
    destruct (propagateDaughters _ _ _) as [vec|] eqn:Hp; [|discriminate].
    intros _. pose proof (propagateDaughters_bounds _ _ _ _ Hp d) as Hb.
    rewrite length_insert, Hvec1 in Hb. apply Hb; [by apply elem_of_int_range|done].
Qed.

(** *** X9 *)

(** X9 : [ConvertMCParticles] faults on a mother range that leaves the
    array, below or above, and on a daughter range of a candidate with
    mothers that leaves it above: the slot vector is indexed with [operator[]]
    at every index of the range. (A negative daughter index is skipped by the
    test of line 562; a negative mother index is not tested.) *)
Theorem X9_ConvertMCParticles_range_fault j cand :
  Input !! j = Some cand →
  M1 cand ≠ -1 →
  (∃ m, M1 cand ≤ m ≤ M2 cand ∧ ¬ 0 ≤ m < Z.of_nat (length Input))
  ∨ (D1 cand ≠ -1 ∧ ∃ d, D1 cand ≤ d ≤ D2 cand ∧ Z.of_nat (length Input) ≤ d) →
  ConvertMCParticles Input = None.
Proof.
  intros Hcand HM1 Hout.
  destruct (ConvertMCParticles Input) as [res|] eqn:Hrun; [exfalso|reflexivity].
  destruct (mcLoop_visit Input (primaryDaughters Input) (length Input) res j Hrun)
    as (st & st' & _ & Hstep & Hinv & _).
  { by apply lookup_lt_Some in Hcand. }
  destruct (mcStep_bounds _ _ _ _ _ Hstep (inv_vec _ _ _ _ Hinv) Hcand) as [HM HD].
  destruct Hout as [(m & Hm & Hbad)|(HD1 & d & Hd & Hbad)].
  - apply Hbad. by apply HM.
  - specialize (HD HM1 HD1 d Hd). lia.
Qed.

(** Under the invariant a visit returns when the ranges of the visited
    candidate stay inside the array. *)
Lemma mcStep_total j st :
  rangesInBounds Input →
  Inv Input (primaryDaughters Input) j st →
  (j < length Input)%nat →
  is_Some (mcStep Input (primaryDaughters Input) j st).
Proof.
  intros Hwf [Hparts Hvec Hle Hpart Hfirst Hsecond] Hj.
  destruct (lookup_lt_is_Some_2 Input j Hj) as [cand Hcand].
  destruct (Hwf j cand Hcand) as [HM HD].
  destruct (lookup_lt_is_Some_2 (vecPartProdVtxIDDecVtxID st) j) as [s Hs]; [lia|].
  unfold mcStep. rewrite Hcand. cbn [mbind option_bind].
  set (p0 := mkMCParticle (withBits (fillCore cand) (mcBits cand)) None None).
  set (st0 := mkMCState _ _ _).
  assert (Hprod : is_Some (productionVertex j cand st0)).
  { unfold productionVertex.
    destruct (decide (M1 cand ≠ -1)) as [HM1|HM1]; [|by eauto].
    subst st0. cbn [vecPartProdVtxIDDecVtxID colMCParticles colGenVertices].
    rewrite Hs. cbn [mbind option_bind].
    destruct (decide (s.1 ≠ -1)) as [Hset|Hunset].
    - destruct (Hfirst j s Hs Hset) as (k & ck & Hk & Hlt & _).
      rewrite Hk, zlookup_of_nat.
      destruct (lookup_lt_is_Some_2 (colMCParticles st) k) as [q Hq]; [lia|].
      rewrite (lookup_app_l_Some _ _ _ _ Hq).
      cbn [mbind option_bind vecPartProdVtxIDDecVtxID].
      destruct (propagateMothers_total (Z.of_nat j) (int_range (M1 cand) (M2 cand))
                  (vecPartProdVtxIDDecVtxID st)) as [vec Hvec'].
      { intros m Hm. rewrite Hvec. apply (HM HM1). by apply elem_of_int_range. }
      rewrite Hvec'. cbn [mbind option_bind]. by eauto.
    - cbn [mbind option_bind vecPartProdVtxIDDecVtxID].
      destruct (propagateMothers_total (Z.of_nat j) (int_range (M1 cand) (M2 cand))
                  (<[j := (Z.of_nat j, s.2)]> (vecPartProdVtxIDDecVtxID st)))
        as [vec Hvec'].
      { intros m Hm. rewrite length_insert, Hvec. apply (HM HM1).
        by apply elem_of_int_range. }
      rewrite Hvec'. cbn [mbind option_bind]. by eauto. }
  destruct Hprod as [st1 Hst1]. rewrite Hst1. cbn [mbind option_bind].
  destruct (productionVertex_spec (primaryDaughters Input) j cand st0 st1
              (colMCParticles st) p0 s Hst1
              eq_refl Hparts Hs)
    as (p1 & newStart & Hp1 & _ & _ & Hlen1 & Hslots).
  specialize (Hslots j s Hs).
  assert (Hvec1 : length (vecPartProdVtxIDDecVtxID st1) = length Input).
  { by rewrite Hlen1. }
  unfold decayVertex.
  destruct (decide (D1 cand ≠ -1)) as [HD1|HD1]; [|by eauto].
  destruct (HD HD1) as [HDin HDrange].
  rewrite Hslots. cbn [mbind option_bind fst snd].
  assert (Hprop : ∀ vec : list (Z * Z), length vec = length Input →
            is_Some
              (if decide (M1 cand = -1) then
                 if decide (j = 0%nat)
                 then propagateDaughters (Z.of_nat j)
                        (set_order (primaryDaughters Input).1) vec
                 else if decide (j = 1%nat)
                 then propagateDaughters (Z.of_nat j)
                        (set_order (primaryDaughters Input).2) vec
                 else Some vec
               else propagateDaughters (Z.of_nat j)
                      (int_range (D1 cand) (D2 cand)) vec)).
  { intros vec Hlen.
    destruct (primaryDaughters_spec Input) as [Hp1' Hp2'].
    destruct (decide (M1 cand = -1)) as [HM1|HM1].
    - destruct (decide (j = 0%nat)); [|destruct (decide (j = 1%nat)); [|by eauto]].
      + apply propagateDaughters_total. intros d Hd _.
        apply set_order_elem_of, Hp1' in Hd as (i & c & -> & Hi & _).
        apply lookup_lt_Some in Hi. lia.
      + apply propagateDaughters_total. intros d Hd _.
        apply set_order_elem_of, Hp2' in Hd as (i & c & -> & Hi & _).
        apply lookup_lt_Some in Hi. lia.
    - apply propagateDaughters_total. intros d Hd _. rewrite Hlen.
      apply (HDrange HM1). by apply elem_of_int_range. }
  match goal with
  | |- context [decide (?x ≠ -1)] =>
      match x with
      | (if _ then _ else _) => destruct (decide (x ≠ -1)) as [Hset|Hunset]
      end
  end.
  - assert (Hq : is_Some (zlookup (colMCParticles st1)
                (if decide (M1 cand ≠ -1 ∧ s.2 = -1 ∧ M1 cand ≤ Z.of_nat j ≤ M2 cand)
                 then Z.of_nat j else s.2))).
    { rewrite Hp1. destruct (decide (M1 cand ≠ -1 ∧ s.2 = -1 ∧ _)) as [Hself|Hother].
      - rewrite zlookup_of_nat, lookup_app_r by lia.
        rewrite Hparts, Nat.sub_diag. by eauto.
      - destruct (Hsecond j s Hs Hset) as (k & ck & Hlt & _ & [(Hk & _)|(Hk & _)]);
          [|lia].
        rewrite Hk, zlookup_of_nat.
        destruct (lookup_lt_is_Some_2 (colMCParticles st) k) as [q Hq]; [lia|].
        rewrite (lookup_app_l_Some _ _ _ _ Hq). by eauto. }
    destruct Hq as [q Hq]. rewrite Hq.
    cbn [mbind option_bind vecPartProdVtxIDDecVtxID colMCParticles colGenVertices].
    destruct (Hprop (vecPartProdVtxIDDecVtxID st1) Hvec1) as [vec Hv].
    rewrite Hv. cbn [mbind option_bind]. by eauto.
  - destruct (zlookup_is_Some Input (D1 cand) HDin) as [daughter Hd]. rewrite Hd.
    cbn [mbind option_bind vecPartProdVtxIDDecVtxID colMCParticles colGenVertices].
    edestruct Hprop as [vec Hv]; [|rewrite Hv; cbn [mbind option_bind]; by eauto].
    by rewrite length_insert.
Qed.

Lemma mcLoop_total n :
  rangesInBounds Input →
  (n ≤ length Input)%nat →
  is_Some (mcLoop Input (primaryDaughters Input) n (mcInit Input)).
Proof.
  intros Hwf. induction n as [|n IH]; intros Hn; [by eexists|].
  destruct IH as [st Hst]; [lia|]. cbn [mcLoop]. rewrite Hst.
  cbn [mbind option_bind]. apply mcStep_total; [done| |lia].
  by apply mcLoop_Inv.
Qed.

(** *** X8 *)

(** X8 : [ConvertMCParticles] returns, with one particle per candidate, for
    every array whose mother and daughter ranges stay inside it: every index
    of the mother range of a candidate that has mothers; the first daughter
    of a candidate that has daughters; and every index of the daughter range
    of a candidate that has both. *)
Theorem X8_ConvertMCParticles_returns :
  rangesInBounds Input →
  ∃ res,
    ConvertMCParticles Input = Some res
    ∧ length (colMCParticles res) = length Input.
Proof.
  intros Hwf. unfold ConvertMCParticles.
  destruct (mcLoop_total (length Input) Hwf) as [res Hres]; [lia|].
  exists res. split; [exact Hres|].
  by destruct (mcLoop_Inv _ _ _ _ Hres).
Qed.

End MCFaults.

(** ** [ConvertMCParticles]: the shape of the output *)

Section MCShape.
Context `{FM : FloatModel}.
Variable Input : list Candidate.

(** *** X10 *)

(** X10 : in the output of [ConvertMCParticles] particle [j] is made from
    candidate [j]: it has the candidate's type, charge and position; it has
    a start vertex exactly when the candidate has mothers ([M1] is not -1)
    and an end vertex exactly when it has daughters ([D1] is not -1); and
    both handles point into the collection of vertices. *)
Theorem X10_ConvertMCParticles_handles res :
  ConvertMCParticles Input = Some res →
  length (colMCParticles res) = length Input
  ∧ ∀ j cand, Input !! j = Some cand →
      ∃ p, colMCParticles res !! j = Some p
           ∧ coreType (Core p) = PID cand
           ∧ coreCharge (Core p) = Charge cand
           ∧ coreVertex (Core p) = candPoint cand
           ∧ (StartVertex p = None ↔ M1 cand = -1)
           ∧ (EndVertex p = None ↔ D1 cand = -1)
           ∧ ∀ v, StartVertex p = Some v ∨ EndVertex p = Some v →
                  (v < length (colGenVertices res))%nat.
Proof.
  intros Hrun.
  destruct (mcLoop_Inv _ _ _ _ Hrun) as [Hparts _ _ Hpart _ _].
  split; [exact Hparts|]. intros j cand Hcand.
  destruct (lookup_lt_is_Some_2 (colMCParticles res) j) as [p Hp].
  { rewrite Hparts. by apply lookup_lt_Some in Hcand. }
  destruct (Hpart j p Hp) as (c & Hc & Hcore & HS0 & HS1 & HE0 & HE1).
  rewrite Hcand in Hc. injection Hc as <-.
  exists p. split; [exact Hp|]. rewrite Hcore. repeat split; try reflexivity.
  - intros Hnone. destruct (decide (M1 cand = -1)) as [|HM]; [done|].
    destruct (HS1 HM) as (v & Hv & _). congruence.
  - exact HS0.
  - intros Hnone. destruct (decide (D1 cand = -1)) as [|HD]; [done|].
    destruct (HE1 HD) as (v & Hv & _). congruence.
  - exact HE0.
  - intros v [Hv|Hv].
    + destruct (decide (M1 cand = -1)) as [HM|HM]; [rewrite HS0 in Hv; done|].
      destruct (HS1 HM) as (v' & Hv' & Hlt). congruence.
    + destruct (decide (D1 cand = -1)) as [HD|HD]; [rewrite HE0 in Hv; done|].
      destruct (HE1 HD) as (v' & Hv' & Hlt). congruence.
Qed.

(** After [n] iterations every vertex is attached to a particle, and the
    vertices are no more than the ends the first [n] candidates declare. *)
Lemma mcLoop_vertices_used n st :
  mcLoop Input (primaryDaughters Input) n (mcInit Input) = Some st →
  (∀ v, (v < length (colGenVertices st))%nat →
        ∃ j p, colMCParticles st !! j = Some p
               ∧ (StartVertex p = Some v ∨ EndVertex p = Some v))
  ∧ (length (colGenVertices st)
     ≤ length (filter (λ c, (M1 c ≠ -1)%Z) (take n Input))
       + length (filter (λ c, (D1 c ≠ -1)%Z) (take n Input)))%nat.
Proof.
  revert st. induction n as [|n IH]; intros st'.
  - intros [= <-]. simpl. split; [intros v Hv; lia | lia].
  - cbn [mcLoop].
    destruct (mcLoop Input (primaryDaughters Input) n (mcInit Input))
      as [st|] eqn:Hst; [|discriminate].
    cbn [mbind option_bind]. intros Hstep.
    destruct (IH st eq_refl) as [Hused Hcount].
    destruct (mcLoop_Inv _ _ _ _ Hst) as [Hparts Hvec _ _ _ _].
    destruct (mcStep_spec _ _ _ _ _ Hstep Hparts Hvec)
      as (cand & s & p & newStart & newEnd & Hcand & _ & Hp & _ & Hv & HS & HE & _).
    rewrite Hp, Hv. split.
    + intros v Hlt. destruct (decide (v < length (colGenVertices st))%nat) as [Hold|Hnew].
      * destruct (Hused v Hold) as (j & q & Hq & Hor).
        exists j, q. split; [by apply lookup_app_l_Some|exact Hor].
      * exists n, p. split.
        { rewrite lookup_app_r by lia. by rewrite Hparts, Nat.sub_diag. }
        rewrite !length_app in Hlt.
        destruct HS as [(_ & _ & ->)|[(_ & _ & -> & _)|(_ & _ & -> & HSv)]];
          destruct HE as [(_ & _ & ->)|[(_ & _ & -> & _)
                                       |(_ & _ & d & _ & -> & HEv)]];
          simpl in Hlt; try lia.
        -- right. rewrite HEv, length_app. simpl. f_equal. lia.
        -- right. rewrite HEv, length_app. simpl. f_equal. lia.
        -- left. rewrite HSv. f_equal. lia.
        -- left. rewrite HSv. f_equal. lia.
        -- destruct (decide (v = length (colGenVertices st))) as [->|Hne].
           ++ by left.
           ++ right. rewrite HEv, length_app. simpl. f_equal. lia.
    + rewrite (take_S_r _ _ _ Hcand), !filter_app, !length_app.
      assert (HnS : (length newStart
                     ≤ length (filter (λ c, (M1 c ≠ -1)%Z) [cand]))%nat).
      { destruct HS as [(_ & _ & ->)|[(_ & _ & -> & _)|(HM & _ & -> & _)]];
          [simpl; lia..|].
        rewrite filter_cons_True by done. simpl. lia. }
      assert (HnE : (length newEnd
                     ≤ length (filter (λ c, (D1 c ≠ -1)%Z) [cand]))%nat).
      { destruct HE as [(_ & _ & ->)|[(_ & _ & -> & _)|(HD & _ & d & _ & -> & _)]];
          [simpl; lia..|].
        rewrite filter_cons_True by done. simpl. lia. }
      lia.
Qed.

Lemma filter_none {A} (P : A → Prop) `{∀ x, Decision (P x)} (l : list A) :
  (∀ x, x ∈ l → ¬ P x) → filter P l = [].
Proof.
  induction l as [|x l IH]; intros Hnot; [done|].
  rewrite filter_cons_False by (apply Hnot; left).
  apply IH. intros y Hy. apply Hnot. by right.
Qed.

(** *** X11 *)

(** X11 : [ConvertMCParticles] creates no vertex that nothing refers to:
    every vertex of the output is the start vertex or the end vertex of some
    particle. There are at most as many vertices as candidates with mothers
    plus candidates with daughters; an event in which no candidate declares
    either has no vertex at all. *)
Theorem X11_ConvertMCParticles_vertices_used res :
  ConvertMCParticles Input = Some res →
  (∀ v, (v < length (colGenVertices res))%nat →
        ∃ j p, colMCParticles res !! j = Some p
               ∧ (StartVertex p = Some v ∨ EndVertex p = Some v))
  ∧ (length (colGenVertices res)
     ≤ length (filter (λ c, (M1 c ≠ -1)%Z) Input)
       + length (filter (λ c, (D1 c ≠ -1)%Z) Input))%nat
  ∧ ((∀ c, c ∈ Input → M1 c = -1 ∧ D1 c = -1) → colGenVertices res = []).
Proof.
  intros Hrun. destruct (mcLoop_vertices_used _ _ Hrun) as [Hused Hcount].
  rewrite firstn_all in Hcount. split; [exact Hused|]. split; [exact Hcount|].
  intros Hnone. apply length_zero_iff_nil.
  assert (HM : filter (λ c, (M1 c ≠ -1)%Z) Input = []).
  { apply filter_none. intros c Hc. destruct (Hnone c Hc) as [HM _]. intros Hn. apply Hn, HM. }
  assert (HD : filter (λ c, (D1 c ≠ -1)%Z) Input = []).
  { apply filter_none. intros c Hc. destruct (Hnone c Hc) as [_ HD]. intros Hn. apply Hn, HD. }
  rewrite HM, HD in Hcount. simpl in Hcount. lia.
Qed.

(** *** X12 *)

(** X12 : where the start vertex of a candidate with mothers comes from, in
    terms of the input alone. A candidate lists another as a daughter when it
    declares a decay and the other lies in its daughter range (for the two
    colliding particles: is found by the pre-pass). If some earlier
    candidate lists candidate [i], the start vertex of particle [i] is the
    end vertex of the first candidate that does. If no earlier candidate
    lists it, the start vertex is a vertex of its own, at the candidate's
    position and with the candidate's time. *)
Theorem X12_start_vertex_origin res i ci :
  ConvertMCParticles Input = Some res →
  Input !! i = Some ci →
  M1 ci ≠ -1 →
  (∀ k, (k < i)%nat → listsDaughter Input k i →
        (∀ k', (k' < k)%nat → ¬ listsDaughter Input k' i) →
        ∃ p q v, colMCParticles res !! i = Some p
                 ∧ colMCParticles res !! k = Some q
                 ∧ StartVertex p = Some v ∧ EndVertex q = Some v)
  ∧ ((∀ k, (k < i)%nat → ¬ listsDaughter Input k i) →
     ∃ p v, colMCParticles res !! i = Some p
            ∧ StartVertex p = Some v
            ∧ colGenVertices res !! v
              = Some (mkGenVertex (candPoint ci) (narrow (E (Position ci))))).
Proof.
  intros Hrun Hcand HM.
  destruct (ConvertMCParticles_visit Input res i ci Hrun Hcand)
    as (st & st' & s & p & newStart & newEnd & Hst & Hinv & Hs & Hp & Hv & Hpre
        & Hvtx & HS & _).
  pose proof (start_slot_first_lister Input i st i s Hst ltac:(lia) Hs) as Hslot.
  split.
  - intros k Hk Hlists Hmin.
    destruct Hslot as [[_ Hnone]|(k0 & Hk0 & Hlt0 & Hlists0 & Hmin0)].
    { by destruct (Hnone k Hk). }
    assert (k0 = k) as ->.
    { destruct (Nat.lt_trichotomy k0 k) as [Hlt|[Heq|Hgt]]; [|done|].
      - by destruct (Hmin k0 Hlt).
      - by destruct (Hmin0 k Hgt). }
    destruct HS as [(HM1 & _)|[(_ & _ & _ & k1 & ck & q & v & Hk1 & _ & _ & _ & _
                                & Hq & HEq & _ & HSp)|(_ & Hunset & _)]].
    + done.
    + assert (k1 = k) as -> by lia.
      exists p, q, v. split; [exact Hp|]. split; [by apply Hpre|]. by split.
    + lia.
  - intros Hnone.
    destruct Hslot as [[Hunset _]|(k0 & Hk0 & Hlt0 & Hlists0 & _)].
    2:{ by destruct (Hnone k0 Hlt0). }
    destruct HS as [(HM1 & _)|[(_ & Hset & _)|(_ & _ & HnS & HSp)]]; [done..|].
    exists p, (length (colGenVertices st)). split; [exact Hp|]. split; [exact HSp|].
    apply Hvtx. rewrite Hv, HnS. rewrite lookup_app_r by lia.
    by rewrite Nat.sub_diag.
Qed.

(** *** X13 *)

(** X13 : where the end vertex of a candidate with daughters comes from when
    its daughters are stored before it. If some earlier candidate names
    candidate [k] as a mother, the end vertex of particle [k] is the start
    vertex of the first candidate that does. If no earlier candidate names
    it, and it does not name itself, the end vertex is a vertex of its own,
    at the position of its first daughter and with its own time. *)
Theorem X13_end_vertex_origin res k ck :
  ConvertMCParticles Input = Some res →
  Input !! k = Some ck →
  D1 ck ≠ -1 →
  (∀ i, (i < k)%nat → namesMother Input i k →
        (∀ i', (i' < i)%nat → ¬ namesMother Input i' k) →
        ∃ p q v, colMCParticles res !! k = Some p
                 ∧ colMCParticles res !! i = Some q
                 ∧ EndVertex p = Some v ∧ StartVertex q = Some v)
  ∧ ((∀ i, (i ≤ k)%nat → ¬ namesMother Input i k) →
     ∃ p v daughter,
       colMCParticles res !! k = Some p
       ∧ EndVertex p = Some v
       ∧ zlookup Input (D1 ck) = Some daughter
       ∧ colGenVertices res !! v
         = Some (mkGenVertex (candPoint daughter) (narrow (E (Position ck))))).
Proof.
  intros Hrun Hcand HD.
  destruct (ConvertMCParticles_visit Input res k ck Hrun Hcand)
    as (st & st' & s & p & newStart & newEnd & Hst & Hinv & Hs & Hp & Hv & Hpre
        & Hvtx & _ & HE).
  pose proof (end_slot_first_namer Input k st k s Hst ltac:(lia) Hs) as Hslot.
  split.
  - intros i Hi Hnames Hmin.
    destruct Hslot as [[_ Hnone]|(i0 & Hi0 & Hlt0 & Hnames0 & Hmin0)].
    { by destruct (Hnone i Hi). }
    assert (i0 = i) as ->.
    { destruct (Nat.lt_trichotomy i0 i) as [Hlt|[Heq|Hgt]]; [|done|].
      - by destruct (Hmin i0 Hlt).
      - by destruct (Hmin0 i Hgt). }
    destruct HE as [(HD1 & _)|[(_ & _ & _ & i1 & ci & q & v & Hi1 & _ & _ & _ & _
                                & Hq & HSq & _ & HEp)
                              |[(_ & Hunset & _)|(_ & Hunset & _)]]].
    + done.
    + assert (i1 = i) as -> by lia.
      exists p, q, v. split; [exact Hp|]. split; [by apply Hpre|]. by split.
    + lia.
    + lia.
  - intros Hnone.
    destruct Hslot as [[Hunset _]|(i0 & Hi0 & Hlt0 & Hnames0 & _)].
    2:{ destruct (Hnone i0); [lia|done]. }
    destruct HE as [(HD1 & _)|[(_ & Hset & _)
                              |[(_ & _ & Hself & _)
                               |(_ & _ & _ & daughter & Hd & HnE & HEp)]]].
    + done.
    + done.
    + destruct (Hnone k); [lia|]. by exists ck.
    + exists p, (length (colGenVertices st ++ newStart)), daughter.
      split; [exact Hp|]. split; [exact HEp|]. split; [exact Hd|].
      apply Hvtx. rewrite Hv, HnE, app_assoc. rewrite lookup_app_r by lia.
      by rewrite Nat.sub_diag.
Qed.

End MCShape.

(** ** [execute]: the collections of one event *)

Section ExecuteProps.
Context `{FM : FloatModel}.
Variable size_type : SizeType.
Variable msgDebug : bool.
Variable pool : Pool.

Lemma whenPresent_inv {A S : Type} (P : S → Prop) (array : option A)
    (convert : A → S → option S) (s r : S) :
  whenPresent array convert s = Some r →
  P s →
  (∀ Input, array = Some Input → convert Input s = Some r → P r) →
  P r.
Proof.
  destruct array as [Input|]; simpl.
  - intros Hrun _ Hconv. by apply (Hconv Input).
  - by intros [= <-].
Qed.

(** The steps of [fillCollections], one by one. *)
Lemma fillCollections_inv fuel names arrays ev :
  fillCollections size_type msgDebug fuel pool names arrays = Some ev →
  ∃ gen mu el ch ne ph je me,
    whenPresent (allPartOutArray arrays) (λ Input _, ConvertMCParticles Input)
      (mkMCState [] [] []) = Some gen
    ∧ whenPresent (muonOutArray arrays)
        (λ Input, ConvertTracks size_type msgDebug pool Input (colMCParticles gen))
        (mkTrackOut [] [] []) = Some mu
    ∧ whenPresent (electronOutArray arrays)
        (λ Input, ConvertTracks size_type msgDebug pool Input (colMCParticles gen))
        (mkTrackOut [] [] (trackLog mu)) = Some el
    ∧ whenPresent (chargedOutArray arrays)
        (λ Input, ConvertTracks size_type msgDebug pool Input (colMCParticles gen))
        (mkTrackOut [] [] (trackLog el)) = Some ch
    ∧ whenPresent (neutralOutArray arrays)
        (λ Input, ConvertTowers size_type pool Input (colMCParticles gen))
        (mkTrackOut [] [] (trackLog ch)) = Some ne
    ∧ whenPresent (photonOutArray arrays)
        (λ Input, ConvertTowers size_type pool Input (colMCParticles gen))
        (mkTrackOut [] [] (trackLog ne)) = Some ph
    ∧ whenPresent (jetOutArray arrays)
        (λ Input, ConvertJets fuel pool Input (colMCParticles gen))
        (mkJetOut [] [] [] [] [] [] (trackLog ph)) = Some je
    ∧ match metOutArray arrays, shtOutArray arrays with
      | Some InputMET, Some InputSHT => ConvertMET InputMET InputSHT ([], jetLog je)
      | _, _ => Some ([], jetLog je)
      end = Some me
    ∧ genParticles ev = colMCParticles gen
    ∧ genVertices ev = colGenVertices gen
    ∧ (recMuons ev = colParticles mu ∧ recMuonsToMC ev = ascColParticlesToMC mu)
    ∧ (recElectrons ev = colParticles el
       ∧ recElectronsToMC ev = ascColParticlesToMC el)
    ∧ (recCharged ev = colParticles ch ∧ recChargedToMC ev = ascColParticlesToMC ch)
    ∧ (recNeutral ev = colParticles ne ∧ recNeutralToMC ev = ascColParticlesToMC ne)
    ∧ (recPhotons ev = colParticles ph ∧ recPhotonsToMC ev = ascColParticlesToMC ph)
    ∧ (recJets ev = colJets je ∧ recJetsToMC ev = ascColJetsToMC je)
    ∧ (recBTags ev = colBTags je ∧ recJetsToBTags ev = ascColJetsToBTags je)
    ∧ (recTauTags ev = colTauTags je ∧ recJetsToTauTags ev = ascColJetsToTauTags je)
    ∧ recMETs ev = me.1
    ∧ messages ev = me.2.
Proof.
  unfold fillCollections. intros Hrun.
  destruct (whenPresent (allPartOutArray arrays) _ _) as [gen|] eqn:Hgen;
    [|discriminate].
  cbn [mbind option_bind] in Hrun.
  destruct (whenPresent (muonOutArray arrays) _ _) as [mu|] eqn:Hmu; [|discriminate].
  cbn [mbind option_bind] in Hrun.
  destruct (whenPresent (electronOutArray arrays) _ _) as [el|] eqn:Hel;
    [|discriminate].
  cbn [mbind option_bind] in Hrun.
  destruct (whenPresent (chargedOutArray arrays) _ _) as [ch|] eqn:Hch;
    [|discriminate].
  cbn [mbind option_bind] in Hrun.
  destruct (whenPresent (neutralOutArray arrays) _ _) as [ne|] eqn:Hne;
    [|discriminate].
  cbn [mbind option_bind] in Hrun.
  destruct (whenPresent (photonOutArray arrays) _ _) as [ph|] eqn:Hph;
    [|discriminate].
  cbn [mbind option_bind] in Hrun.
  destruct (whenPresent (jetOutArray arrays) _ _) as [je|] eqn:Hje; [|discriminate].
  cbn [mbind option_bind] in Hrun.
  match type of Hrun with
  | mbind _ ?m = _ => destruct m as [me|] eqn:Hme; [|discriminate]
  end.
  cbn [mbind option_bind] in Hrun. injection Hrun as <-.
  exists gen, mu, el, ch, ne, ph, je, me. cbn.
  repeat (split; [first [reflexivity | assumption | split; reflexivity]|]).
  reflexivity.
Qed.

(** *** Handles of the relations *)

Lemma relationsValid_nil (particles : list Particle) (colMC : list MCParticle) b :
  relationsValid particles [] colMC b.
Proof. intros r Hr. by apply elem_of_nil in Hr. Qed.

Lemma relationsValid_app (particles particles' : list Particle) relations relations'
    (colMC : list MCParticle) b :
  relationsValid particles relations colMC b →
  (length particles ≤ length particles')%nat →
  relationsValid particles' relations' colMC b →
  relationsValid particles' (relations ++ relations') colMC b.
Proof.
  intros Hold Hlen Hnew r Hr. apply elem_of_app in Hr as [Hr|Hr]; [|by apply Hnew].
  destruct (Hold r Hr) as [?|(p & s & ? & ? & ? & ?)]; [by left|].
  right. exists p, s. repeat split; [done..|lia|done].
Qed.

Lemma ConvertTracks_valid Input colMC out out' :
  ConvertTracks size_type msgDebug pool Input colMC out = Some out' →
  relationsValid (colParticles out) (ascColParticlesToMC out) colMC true →
  relationsValid (colParticles out') (ascColParticlesToMC out') colMC true.
Proof.
  unfold ConvertTracks. revert out.
  induction Input as [|cand Input IH]; intros out; cbn [for_each].
  - by intros [= <-].
  - destruct (trackStep size_type msgDebug pool colMC cand out) as [out1|] eqn:Hstep;
      [|discriminate].
    cbn [mbind option_bind]. intros Hrest Hvalid. apply (IH _ Hrest).
    destruct (trackStep_appends _ _ _ _ _ _ _ Hstep)
      as (bits & relation & -> & -> & Hcase).
    eapply relationsValid_app; [exact Hvalid|rewrite length_app; lia|].
    intros r Hr. apply list_elem_of_singleton in Hr as ->.
    destruct Hcase as [(_ & _ & refCand & rest & _ & _ & [q Hq] & ->)
                      |(_ & _ & -> & _)]; [|by left].
    right. eexists _, _. split; [done|]. split; [done|].
    rewrite length_app. simpl. split; [lia|].
    apply zlookup_Some in Hq as [Hq _]. lia.
Qed.

Lemma saveRelations_inv (colMC : list MCParticle) particle (ids : list Z) asc asc' :
  saveRelations colMC particle ids asc = Some asc' →
  asc' = asc ++ ((λ id, mkAssoc (Some particle) (Some (Z.to_nat id))) <$> ids)
  ∧ ∀ id, id ∈ ids → 0 ≤ id < Z.of_nat (length colMC).
Proof.
  unfold saveRelations. revert asc.
  induction ids as [|id ids IH]; intros asc; cbn [for_each fmap list_fmap].
  - intros [= <-]. split; [by rewrite app_nil_r|]. intros id Hid.
    by apply elem_of_nil in Hid.
  - destruct (zlookup colMC id) as [p|] eqn:Hat; [|discriminate].
    cbn [mbind option_bind]. intros Hrest.
    destruct (IH _ Hrest) as [-> Hin]. split; [by rewrite <- app_assoc|].
    intros i Hi. apply elem_of_cons in Hi as [->|Hi]; [|by apply Hin].
    by apply zlookup_Some in Hat as [? _].
Qed.

Lemma ConvertTowers_valid Input colMC out out' :
  ConvertTowers size_type pool Input colMC out = Some out' →
  relationsValid (colParticles out) (ascColParticlesToMC out) colMC false →
  relationsValid (colParticles out') (ascColParticlesToMC out') colMC false.
Proof.
  unfold ConvertTowers. revert out.
  induction Input as [|cand Input IH]; intros out; cbn [for_each].
  - by intros [= <-].
  - destruct (towerStep size_type pool colMC cand out) as [out1|] eqn:Hstep;
      [|discriminate].
    cbn [mbind option_bind]. intros Hrest Hvalid. apply (IH _ Hrest).
    revert Hstep. unfold towerStep.
    destruct (saveRelations _ _ _ _) as [asc|] eqn:Hsave; [|discriminate].
    cbn [mbind option_bind]. intros [= <-].
    cbn [colParticles ascColParticlesToMC].
    destruct (saveRelations_inv _ _ _ _ _ Hsave) as [-> Hin].
    eapply relationsValid_app; [exact Hvalid|rewrite length_app; lia|].
    intros r Hr. apply list_elem_of_fmap in Hr as (id & -> & Hid).
    right. eexists _, _. split; [done|]. split; [done|].
    rewrite length_app. simpl. split; [lia|]. specialize (Hin id Hid). lia.
Qed.

Lemma ConvertJets_valid fuel Input colMC out out' :
  ConvertJets fuel pool Input colMC out = Some out' →
  jetRelationsValid (colJets out) (ascColJetsToMC out) colMC
  ∧ tagRelationsValid (colJets out) (colBTags out) (ascColJetsToBTags out)
  ∧ tagRelationsValid (colJets out) (colTauTags out) (ascColJetsToTauTags out) →
  jetRelationsValid (colJets out') (ascColJetsToMC out') colMC
  ∧ tagRelationsValid (colJets out') (colBTags out') (ascColJetsToBTags out')
  ∧ tagRelationsValid (colJets out') (colTauTags out') (ascColJetsToTauTags out').
Proof.
  unfold ConvertJets. revert out.
  induction Input as [|cand Input IH]; intros out; cbn [for_each].
  - by intros [= <-].
  - destruct (jetStep fuel pool colMC cand out) as [out1|] eqn:Hstep; [|discriminate].
    cbn [mbind option_bind]. intros Hrest (HJ & HB & HT). apply (IH _ Hrest).
    destruct (jetStep_spec _ _ _ _ _ _ Hstep)
      as (ids & k & _ & Hin & -> & -> & -> & -> & -> & -> & _).
    split; [|split].
    + intros r Hr. apply elem_of_app in Hr as [Hr|Hr].
      * destruct (HJ r Hr) as (j & s & ? & ? & ? & ?). exists j, s.
        rewrite length_app. repeat split; [done..|lia|done].
      * apply list_elem_of_fmap in Hr as (id & -> & Hid).
        apply set_order_elem_of, Hin in Hid.
        eexists _, _. split; [done|]. split; [done|].
        rewrite length_app. simpl. split; lia.
    + intros r Hr. apply elem_of_app in Hr as [Hr|Hr].
      * destruct (HB r Hr) as (j & t & ? & ? & ? & ?). exists j, t.
        rewrite !length_app. repeat split; [done..|lia|lia].
      * apply list_elem_of_singleton in Hr as ->.
        eexists _, _. split; [done|]. split; [done|].
        rewrite !length_app. simpl. split; lia.
    + intros r Hr. apply elem_of_app in Hr as [Hr|Hr].
      * destruct (HT r Hr) as (j & t & ? & ? & ? & ?). exists j, t.
        rewrite !length_app. repeat split; [done..|lia|lia].
      * apply list_elem_of_singleton in Hr as ->.
        eexists _, _. split; [done|]. split; [done|].
        rewrite !length_app. simpl. split; lia.
Qed.

Lemma ConvertMCParticles_vertexHandlesValid Input res :
  ConvertMCParticles Input = Some res →
  vertexHandlesValid (colMCParticles res) (colGenVertices res).
Proof.
  intros Hrun p v Hp Hv.
  destruct (mcLoop_Inv _ _ _ _ Hrun) as [_ _ _ Hpart _ _].
  apply list_elem_of_lookup_1 in Hp as [i Hp].
  destruct (Hpart i p Hp) as (c & _ & _ & HS0 & HS1 & HE0 & HE1).
  destruct Hv as [Hv|Hv].
  - destruct (decide (M1 c = -1)) as [HM|HM]; [rewrite HS0 in Hv; done|].
    destruct (HS1 HM) as (v' & Hv' & Hlt). congruence.
  - destruct (decide (D1 c = -1)) as [HD|HD]; [rewrite HE0 in Hv; done|].
    destruct (HE1 HD) as (v' & Hv' & Hlt). congruence.
Qed.

(** *** X14 *)

(** X14 : in the collections that [execute] fills for one event no handle
    dangles. Every start and end vertex of a generated particle points into
    the collection of vertices. Every relation of a muon, electron or charged
    hadron is either empty (the unmatched case) or links a particle of its
    own collection to a generated particle of this event; every relation of a
    neutral hadron or photon, and every relation of a jet, is of the second
    kind; every relation from a jet to a tag links a jet and a tag of this
    event. All converters are handed the one collection of generated
    particles that [ConvertMCParticles] has just filled. *)
Theorem X14_fillCollections_handles fuel names arrays ev :
  fillCollections size_type msgDebug fuel pool names arrays = Some ev →
  vertexHandlesValid (genParticles ev) (genVertices ev)
  ∧ relationsValid (recMuons ev) (recMuonsToMC ev) (genParticles ev) true
  ∧ relationsValid (recElectrons ev) (recElectronsToMC ev) (genParticles ev) true
  ∧ relationsValid (recCharged ev) (recChargedToMC ev) (genParticles ev) true
  ∧ relationsValid (recNeutral ev) (recNeutralToMC ev) (genParticles ev) false
  ∧ relationsValid (recPhotons ev) (recPhotonsToMC ev) (genParticles ev) false
  ∧ jetRelationsValid (recJets ev) (recJetsToMC ev) (genParticles ev)
  ∧ tagRelationsValid (recJets ev) (recBTags ev) (recJetsToBTags ev)
  ∧ tagRelationsValid (recJets ev) (recTauTags ev) (recJetsToTauTags ev).
Proof.
  intros Hrun.
  destruct (fillCollections_inv _ _ _ _ Hrun)
    as (gen & mu & el & ch & ne & ph & je & me & Hgen & Hmu & Hel & Hch & Hne
        & Hph & Hje & _ & -> & -> & [-> ->] & [-> ->] & [-> ->] & [-> ->]
        & [-> ->] & [-> ->] & [-> ->] & [-> ->] & _).
  split.
  { apply (whenPresent_inv
             (λ gen, vertexHandlesValid (colMCParticles gen) (colGenVertices gen))
             _ _ _ _ Hgen).
    - intros p v Hp. by apply elem_of_nil in Hp.
    - intros Input _. apply ConvertMCParticles_vertexHandlesValid. }
  assert (Htracks : ∀ array log out,
            whenPresent array
              (λ Input, ConvertTracks size_type msgDebug pool Input (colMCParticles gen))
              (mkTrackOut [] [] log) = Some out →
            relationsValid (colParticles out) (ascColParticlesToMC out)
              (colMCParticles gen) true).
  { intros array log out Hout.
    apply (whenPresent_inv
             (λ out, relationsValid (colParticles out) (ascColParticlesToMC out)
                       (colMCParticles gen) true) _ _ _ _ Hout).
    - apply relationsValid_nil.
    - intros Input _ Hconv. apply (ConvertTracks_valid _ _ _ _ Hconv).
      apply relationsValid_nil. }
  assert (Htowers : ∀ array log out,
            whenPresent array
              (λ Input, ConvertTowers size_type pool Input (colMCParticles gen))
              (mkTrackOut [] [] log) = Some out →
            relationsValid (colParticles out) (ascColParticlesToMC out)
              (colMCParticles gen) false).
  { intros array log out Hout.
    apply (whenPresent_inv
             (λ out, relationsValid (colParticles out) (ascColParticlesToMC out)
                       (colMCParticles gen) false) _ _ _ _ Hout).
    - apply relationsValid_nil.
    - intros Input _ Hconv. apply (ConvertTowers_valid _ _ _ _ Hconv).
      apply relationsValid_nil. }
  split; [by eapply Htracks|]. split; [by eapply Htracks|].
  split; [by eapply Htracks|]. split; [by eapply Htowers|].
  split; [by eapply Htowers|].
  apply (whenPresent_inv
           (λ je, jetRelationsValid (colJets je) (ascColJetsToMC je)
                    (colMCParticles gen)
                  ∧ tagRelationsValid (colJets je) (colBTags je)
                      (ascColJetsToBTags je)
                  ∧ tagRelationsValid (colJets je) (colTauTags je)
                      (ascColJetsToTauTags je)) _ _ _ _ Hje).
  - repeat split; intros r Hr; by apply elem_of_nil in Hr.
  - intros Input _ Hconv. apply (ConvertJets_valid _ _ _ _ _ Hconv).
    repeat split; intros r Hr; by apply elem_of_nil in Hr.
Qed.

(** *** Sizes *)

Lemma ConvertJets_lengths fuel Input colMC out out' :
  ConvertJets fuel pool Input colMC out = Some out' →
  length (colJets out') = (length (colJets out) + length Input)%nat
  ∧ length (colBTags out') = (length (colBTags out) + length Input)%nat
  ∧ length (colTauTags out') = (length (colTauTags out) + length Input)%nat
  ∧ length (ascColJetsToBTags out')
    = (length (ascColJetsToBTags out) + length Input)%nat
  ∧ length (ascColJetsToTauTags out')
    = (length (ascColJetsToTauTags out) + length Input)%nat.
Proof.
  unfold ConvertJets. revert out.
  induction Input as [|cand Input IH]; intros out; cbn [for_each].
  - intros [= <-]. simpl. lia.
  - destruct (jetStep fuel pool colMC cand out) as [out1|] eqn:Hstep; [|discriminate].
    cbn [mbind option_bind]. intros Hrest.
    destruct (IH _ Hrest) as (-> & -> & -> & -> & ->).
    destruct (jetStep_spec _ _ _ _ _ _ Hstep)
      as (ids & k & _ & _ & -> & _ & -> & -> & -> & -> & _).
    rewrite !length_app. simpl. lia.
Qed.

Lemma ConvertMET_returns InputMET InputSHT (out : list MET * list string) :
  ∃ res, ConvertMET InputMET InputSHT out = Some res
         ∧ length res.1 = (length out.1 + length InputMET)%nat.
Proof.
  unfold ConvertMET. case_bool_decide as Hlen.
  - rewrite (metLoop_paired [] InputSHT) by (simpl; lia).
    eexists. split; [done|]. cbn [fst]. rewrite length_app, length_zip_with. lia.
  - rewrite metLoop_unpaired. eexists. split; [done|]. cbn [fst].
    by rewrite length_app, length_fmap.
Qed.

(** *** X15 *)

(** X15 : the sizes of the collections that [execute] fills. Every array of
    reconstructed objects gives one object per entry, and an array that
    Delphes does not provide gives an empty collection: the generated
    particles; the muons, electrons and charged hadrons, each with as many
    relation objects as particles; the neutral hadrons and photons; the jets,
    with as many b-tags, tau-tags and relations to either as jets. The
    missing-energy collection has one entry per entry of the missing-energy
    array when the scalar-sum array exists as well, and is empty when either
    of the two arrays is missing. *)
Theorem X15_fillCollections_sizes fuel names arrays ev :
  fillCollections size_type msgDebug fuel pool names arrays = Some ev →
  length (genParticles ev) = entries (allPartOutArray arrays)
  ∧ (length (recMuons ev) = entries (muonOutArray arrays)
     ∧ length (recMuonsToMC ev) = entries (muonOutArray arrays))
  ∧ (length (recElectrons ev) = entries (electronOutArray arrays)
     ∧ length (recElectronsToMC ev) = entries (electronOutArray arrays))
  ∧ (length (recCharged ev) = entries (chargedOutArray arrays)
     ∧ length (recChargedToMC ev) = entries (chargedOutArray arrays))
  ∧ length (recNeutral ev) = entries (neutralOutArray arrays)
  ∧ length (recPhotons ev) = entries (photonOutArray arrays)
  ∧ (length (recJets ev) = entries (jetOutArray arrays)
     ∧ length (recBTags ev) = entries (jetOutArray arrays)
     ∧ length (recTauTags ev) = entries (jetOutArray arrays)
     ∧ length (recJetsToBTags ev) = entries (jetOutArray arrays)
     ∧ length (recJetsToTauTags ev) = entries (jetOutArray arrays))
  ∧ length (recMETs ev)
    = match metOutArray arrays, shtOutArray arrays with
      | Some InputMET, Some _ => length InputMET
      | _, _ => 0%nat
      end.
Proof.
  intros Hrun.
  destruct (fillCollections_inv _ _ _ _ Hrun)
    as (gen & mu & el & ch & ne & ph & je & me & Hgen & Hmu & Hel & Hch & Hne
        & Hph & Hje & Hme & -> & _ & [-> ->] & [-> ->] & [-> ->] & [-> _]
        & [-> _] & [-> _] & [-> ->] & [-> ->] & -> & _).
  assert (Htracks : ∀ array colMC log out,
            whenPresent array (λ Input, ConvertTracks size_type msgDebug pool Input colMC)
              (mkTrackOut [] [] log) = Some out →
            length (colParticles out) = entries array
            ∧ length (ascColParticlesToMC out) = entries array).
  { intros [Input|] colMC log out; simpl; [|by intros [= <-]].
    intros Hconv.
    by destruct (ConvertTracks_lengths _ _ _ _ _ _ _ Hconv) as [-> ->]. }
  assert (Htowers : ∀ array colMC log out,
            whenPresent array (λ Input, ConvertTowers size_type pool Input colMC)
              (mkTrackOut [] [] log) = Some out →
            length (colParticles out) = entries array).
  { intros [Input|] colMC log out; simpl; [|by intros [= <-]].
    intros Hconv. rewrite (ConvertTowers_particles _ _ _ _ _ _ Hconv).
    by rewrite length_app, length_fmap. }
  split.
  { destruct (allPartOutArray arrays) as [Input|]; simpl in *.
    - by destruct (mcLoop_Inv _ _ _ _ Hgen).
    - by injection Hgen as <-. }
  split; [by eapply Htracks|]. split; [by eapply Htracks|].
  split; [by eapply Htracks|]. split; [by eapply Htowers|].
  split; [by eapply Htowers|]. split.
  { destruct (jetOutArray arrays) as [Input|]; simpl in *.
    - by destruct (ConvertJets_lengths _ _ _ _ _ Hje) as (-> & -> & -> & -> & ->).
    - by injection Hje as <-. }
  destruct (metOutArray arrays) as [InputMET|];
    [destruct (shtOutArray arrays) as [InputSHT|]|].
  - destruct (ConvertMET_returns InputMET InputSHT ([], jetLog je))
      as (res & Hres & Hlen).
    rewrite Hres in Hme. by injection Hme as <-.
  - by injection Hme as <-.
  - by injection Hme as <-.
Qed.

(** *** Faults *)

Lemma ConvertTracks_is_Some Input colMC out :
  Z.of_nat (length colMC) ≤ 2 ^ 31 →
  (∀ q, 0 ≤ refId (pool q)) →
  msgDebug = false
  ∨ (∀ cand, cand ∈ Input → is_Some (trackIndex pool (length colMC) cand)) →
  is_Some (ConvertTracks size_type msgDebug pool Input colMC out).
Proof.
  intros Hsize Hpos. unfold ConvertTracks. revert out.
  induction Input as [|cand Input IH]; intros out Hdbg; cbn [for_each]; [by eauto|].
  rewrite trackStep_returns; [|done|intros _ r _; apply Hpos|].
  2:{ destruct Hdbg as [Hoff|Hall]; [by left|right; apply Hall; left]. }
  cbn [mbind option_bind]. apply IH.
  destruct Hdbg as [Hoff|Hall]; [by left|].
  right. intros c Hc. apply Hall. by right.
Qed.

Lemma ConvertTowers_is_Some Input colMC out :
  Z.of_nat (length colMC) ≤ 2 ^ 31 →
  (∀ q, 0 ≤ refId (pool q)) →
  is_Some (ConvertTowers size_type pool Input colMC out).
Proof.
  intros Hsize Hpos. unfold ConvertTowers. revert out.
  induction Input as [|cand Input IH]; intros out; cbn [for_each]; [by eauto|].
  rewrite towerStep_spec.
  2:{ intros ref _. apply lt_size_spec; [apply to_int_range|done|].
      intros _. apply Hpos. }
  cbn [mbind option_bind]. apply IH.
Qed.

Lemma ConvertJets_is_Some rank fuel Input colMC out :
  acyclic pool rank →
  (∀ q, (rank q < fuel)%nat) →
  Z.of_nat (length colMC) < 2 ^ 31 →
  (∀ q, 0 ≤ refId (pool q)) →
  is_Some (ConvertJets fuel pool Input colMC out).
Proof.
  intros Hacyc Hrank Hsize Hpos. unfold ConvertJets. revert out.
  induction Input as [|cand Input IH]; intros out; cbn [for_each]; [by eauto|].
  destruct (jetStep_is_Some pool rank fuel colMC cand out) as [out1 Hstep];
    [done|by intros|done|by intros|].
  rewrite Hstep. cbn [mbind option_bind]. apply IH.
Qed.

(** *** X16 *)

(** X16 : [execute] fills the collections of an event without a fault when
    the relation graph of the candidates is acyclic (and the fuel of the
    model exceeds every rank), every candidate has an identifier from 1
    upwards that fits an [int], the array of generated particles, when there
    is one, has fewer than 2^31 entries and mother and daughter ranges that
    stay inside it, and the debug block of [ConvertTracks] does not run or
    every muon, electron and charged hadron is matched to a generated
    particle of the event. Any of the arrays of reconstructed objects may be
    missing. *)
Theorem X16_fillCollections_returns rank fuel names arrays :
  acyclic pool rank →
  (∀ q, (rank q < fuel)%nat) →
  (∀ q, 0 ≤ refId (pool q)) →
  (∀ Input, allPartOutArray arrays = Some Input →
            rangesInBounds Input ∧ Z.of_nat (length Input) < 2 ^ 31) →
  msgDebug = false
  ∨ (∀ array Input cand,
       array ∈ [muonOutArray arrays; electronOutArray arrays;
                chargedOutArray arrays] →
       array = Some Input → cand ∈ Input →
       is_Some (trackIndex pool (entries (allPartOutArray arrays)) cand)) →
  ∃ ev, fillCollections size_type msgDebug fuel pool names arrays = Some ev.
Proof.
  intros Hacyc Hrank Hpos Hgenwf Hdbg.
  assert (Hgen : ∃ gen,
            whenPresent (allPartOutArray arrays) (λ Input _, ConvertMCParticles Input)
              (mkMCState [] [] []) = Some gen
            ∧ length (colMCParticles gen) = entries (allPartOutArray arrays)
            ∧ Z.of_nat (length (colMCParticles gen)) < 2 ^ 31).
  { destruct (allPartOutArray arrays) as [Input|]; simpl.
    - destruct (Hgenwf Input eq_refl) as [Hwf Hlen].
      destruct (mcLoop_total Input (length Input) Hwf) as [res Hres]; [lia|].
      exists res. split; [exact Hres|].
      destruct (mcLoop_Inv _ _ _ _ Hres) as [-> _ _ _ _ _]. by split.
    - eexists. split; [reflexivity|]. simpl. split; [done|lia]. }
  destruct Hgen as (gen & Hgen & Hentries & Hsize).
  assert (Htracks : ∀ array log,
            array ∈ [muonOutArray arrays; electronOutArray arrays;
                     chargedOutArray arrays] →
            is_Some (whenPresent array
                       (λ Input, ConvertTracks size_type msgDebug pool Input
                                   (colMCParticles gen))
                       (mkTrackOut [] [] log))).
  { intros [Input|] log Harray; simpl; [|by eauto].
    apply ConvertTracks_is_Some; [lia|done|].
    destruct Hdbg as [Hoff|Hall]; [by left|].
    right. intros cand Hcand. rewrite Hentries. by apply (Hall (Some Input) Input). }
  assert (Htowers : ∀ array log,
            is_Some (whenPresent array
                       (λ Input, ConvertTowers size_type pool Input (colMCParticles gen))
                       (mkTrackOut [] [] log))).
  { intros [Input|] log; simpl; [|by eauto].
    apply ConvertTowers_is_Some; [lia|done]. }
  unfold fillCollections. rewrite Hgen. cbn [mbind option_bind].
  destruct (Htracks (muonOutArray arrays) []) as [mu ->]; [set_solver|].
  cbn [mbind option_bind].
  destruct (Htracks (electronOutArray arrays) (trackLog mu)) as [el ->];
    [set_solver|].
  cbn [mbind option_bind].
  destruct (Htracks (chargedOutArray arrays) (trackLog el)) as [ch ->];
    [set_solver|].
  cbn [mbind option_bind].
  destruct (Htowers (neutralOutArray arrays) (trackLog ch)) as [ne ->].
  cbn [mbind option_bind].
  destruct (Htowers (photonOutArray arrays) (trackLog ne)) as [ph ->].
  cbn [mbind option_bind].
  assert (Hjets : is_Some (whenPresent (jetOutArray arrays)
                    (λ Input, ConvertJets fuel pool Input (colMCParticles gen))
                    (mkJetOut [] [] [] [] [] [] (trackLog ph)))).
  { destruct (jetOutArray arrays) as [Input|]; simpl; [|by eauto].
    by apply (ConvertJets_is_Some rank). }
  destruct Hjets as [je ->]. cbn [mbind option_bind].
  destruct (metOutArray arrays) as [InputMET|];
    [destruct (shtOutArray arrays) as [InputSHT|]|]; cbn [mbind option_bind];
    [|by eauto..].
  destruct (ConvertMET_returns InputMET InputSHT ([], jetLog je)) as (me & -> & _).
  cbn [mbind option_bind]. by eauto.
Qed.

End ExecuteProps.

(** * Concrete events for the further properties *)

(** ** The recursive resolver *)

(** Constituent 3 of [ex_pool], linked to generated particle 5 through the
    pass-through node 1, resolved into a set that already holds index 7. *)
Lemma X1_findJetPartMC_accumulator_witness :
  ∃ res R W,
    findJetPartMC 3 ex_pool 3%nat 10 ({[7]}, [warnTower]) = Some res
    ∧ findJetPartMC 3 ex_pool 3%nat 10 (∅, []) = Some (R, W)
    ∧ res = (R ∪ {[7]}, [warnTower] ++ W)
    ∧ ∀ st' : gset Z * list string,
        findJetPartMC 3 ex_pool 3%nat 10 st' = Some (R ∪ st'.1, st'.2 ++ W).
Proof.
  assert (Hrun : ∃ res, findJetPartMC 3 ex_pool 3%nat 10 ({[7]}, [warnTower])
                        = Some res).
  { eexists. vm_compute. reflexivity. }
  destruct Hrun as [res Hrun].
  destruct (X1_findJetPartMC_accumulator ex_pool 10 3 3%nat _ res Hrun)
    as (R & W & H1 & H2 & H3).
  exists res, R, W. split; [exact Hrun|]. split; [exact H1|].
  split; [exact H2|exact H3].
Defined.

(** Constituent 7 of [ex_pool] leads to candidate 4 only, which has no
    related candidate: nothing is added and the log grows. *)
Lemma X2_findJetPartMC_only_adds_witness :
  ∃ res : gset Z * list string,
    findJetPartMC 3 ex_pool 7%nat 10 ({[7]}, []) = Some res
    ∧ ({[7]} : gset Z) ⊆ res.1
    ∧ (∀ id, id ∈ res.1 → id ∉ ({[7]} : gset Z) →
         id < 10 ∧ ∃ p q, q ∈ GetCandidates (ex_pool p) ∧ id = refId (ex_pool q))
    ∧ (∃ k, res.2 = [] ++ replicate k warnJet)
    ∧ ((∃ id, id ∈ res.1 ∧ id < 10) ∨ (length ([] : list string) < length res.2)%nat).
Proof.
  assert (Hrun : ∃ res, findJetPartMC 3 ex_pool 7%nat 10 ({[7]}, []) = Some res).
  { eexists. vm_compute. reflexivity. }
  destruct Hrun as [res Hrun]. exists res. split; [exact Hrun|].
  exact (X2_findJetPartMC_only_adds ex_pool 10 3 7%nat _ res Hrun).
Defined.

(** ** Jets *)

Lemma ex_event_pool_acyclic : acyclic ex_event_pool ex_event_rank.
Proof.
  intros p q. unfold ex_event_pool, ex_event_rank.
  do 9 (destruct p as [|p];
        [simpl; rewrite ?elem_of_cons, ?elem_of_nil;
         intros Hq; repeat (destruct Hq as [->|Hq]; [vm_compute; lia|]); done|]).
  simpl. by rewrite elem_of_nil.
Defined.

Lemma ex_event_rank_bound q : (ex_event_rank q < 10)%nat.
Proof. unfold ex_event_rank. destruct (decide (q < 9)%nat); lia. Defined.

Lemma ex_event_pool_ids q : 0 ≤ refId (ex_event_pool q).
Proof.
  unfold ex_event_pool.
  do 9 (destruct q as [|q]; [vm_compute; discriminate|]).
  vm_compute. discriminate.
Defined.

(** Two jets over [ex_event_pool]: the first has a constituent that leads to
    the generated particles 3 and 4 and one without related candidates, the
    second reaches particle 3 through a pass-through node and particle 4
    directly. *)
Lemma X3_ConvertJets_entries_witness :
  ∃ out',
    ConvertJets 10 ex_event_pool ex_jets ex_colMC noJets = Some out'
    ∧ colJets out' = [] ++ (jetOf <$> ex_jets)
    ∧ colBTags out' = [] ++ ((λ cand, mkTag (int2float (BTag cand))) <$> ex_jets)
    ∧ colTauTags out' = [] ++ ((λ cand, mkTag (int2float (TauTag cand))) <$> ex_jets)
    ∧ ascColJetsToBTags out'
      = [] ++ imap (λ j _, mkJetTag (Some (0 + j)%nat) (Some (0 + j)%nat)) ex_jets
    ∧ ascColJetsToTauTags out'
      = [] ++ imap (λ j _, mkJetTag (Some (0 + j)%nat) (Some (0 + j)%nat)) ex_jets.
Proof.
  assert (Hrun : ∃ out', ConvertJets 10 ex_event_pool ex_jets ex_colMC noJets
                         = Some out').
  { eexists. vm_compute. reflexivity. }
  destruct Hrun as [out' Hrun]. exists out'. split; [exact Hrun|].
  exact (X3_ConvertJets_entries ex_event_pool 10 ex_jets ex_colMC noJets out' Hrun).
Defined.

Lemma X4_ConvertJets_relations_witness :
  ∃ out' (sets : list (gset Z)),
    ConvertJets 10 ex_event_pool ex_jets ex_colMC noJets = Some out'
    ∧ length sets = length ex_jets
    ∧ ascColJetsToMC out'
      = [] ++ concat (imap (λ j ids,
                              (λ id, mkJetMC (Some (0 + j)%nat) (Some (Z.to_nat id)))
                                <$> set_order ids) sets)
    ∧ (∃ k, jetLog out' = [] ++ replicate k warnJet)
    ∧ ∀ j ids, sets !! j = Some ids →
        (∀ id, id ∈ ids → 0 ≤ id < Z.of_nat (length ex_colMC))
        ∧ StronglySorted Z.lt (set_order ids)
        ∧ NoDup (Z.to_nat <$> set_order ids)
        ∧ ∃ cand log log',
            ex_jets !! j = Some cand
            ∧ jetRefs 10 ex_event_pool (length ex_colMC) cand (∅, log)
              = Some (ids, log').
Proof.
  assert (Hrun : ∃ out', ConvertJets 10 ex_event_pool ex_jets ex_colMC noJets
                         = Some out').
  { eexists. vm_compute. reflexivity. }
  destruct Hrun as [out' Hrun].
  destruct (X4_ConvertJets_relations ex_event_pool 10 ex_jets ex_colMC noJets out' Hrun)
    as (sets & H1 & H2 & H3 & H4).
  exists out', sets. split; [exact Hrun|]. split; [exact H1|].
  split; [exact H2|]. split; [exact H3|exact H4].
Defined.

Lemma X5_ConvertJets_returns_witness :
  ∃ out',
    ConvertJets 10 ex_event_pool ex_jets ex_colMC noJets = Some out'
    ∧ length (colJets out') = (0 + 2)%nat.
Proof.
  apply (X5_ConvertJets_returns ex_event_pool ex_event_rank 10 ex_jets ex_colMC noJets).
  - exact ex_event_pool_acyclic.
  - intros cand jetPart _ _. apply ex_event_rank_bound.
  - vm_compute. reflexivity.
  - intros p q _. apply ex_event_pool_ids.
Defined.

(** ** Tracks and towers *)

(** A track matched to generated particle 3 and a track without related
    candidates: what the converter returns when the debug block does not
    run, and its fault when it does. *)
Lemma X6_ConvertTracks_returns_witness :
  (∃ out',
     ConvertTracks size_int false ex_event_pool
       [recCand 201 [3%nat]; recCand 202 []] ex_colMC noTracks = Some out'
     ∧ ascColParticlesToMC out'
       = [mkAssoc (Some 0%nat) (Some 3%nat); mkAssoc None None]
     ∧ trackLog out' = [warnTrack])
  ∧ ConvertTracks size_int true ex_event_pool
      [recCand 201 [3%nat]; recCand 202 []] ex_colMC noTracks = None.
Proof.
  split.
  - destruct (X6_ConvertTracks_returns size_int false ex_event_pool
                [recCand 201 [3%nat]; recCand 202 []] ex_colMC noTracks)
      as [Hreturns _].
    + vm_compute. discriminate.
    + intros _ cand refCand _ _. apply ex_event_pool_ids.
    + destruct Hreturns as (out' & Hrun & _ & Hasc & Hlog); [by left|].
      exists out'. split; [exact Hrun|]. rewrite Hasc, Hlog.
      split; vm_compute; reflexivity.
  - destruct (X6_ConvertTracks_returns size_int true ex_event_pool
                [recCand 201 [3%nat]; recCand 202 []] ex_colMC noTracks)
      as [_ Hfault].
    + vm_compute. discriminate.
    + intros _ cand refCand _ _. apply ex_event_pool_ids.
    + apply Hfault; [reflexivity|].
      exists (recCand 202 []). split; [|reflexivity]. right. left.
Defined.

(** A tower that lists the clusters 6 and 7, in either order. *)
Lemma X7_ConvertTowers_cluster_order_witness :
  ConvertTowers size_int ex_event_pool [recCand 204 [6; 7]%nat] ex_colMC noTracks
  = ConvertTowers size_int ex_event_pool [recCand 204 [7; 6]%nat] ex_colMC noTracks.
Proof.
  apply X7_ConvertTowers_cluster_order.
  constructor; [|constructor]. split; [reflexivity|]. apply perm_swap.
Defined.

(** ** Generated particles *)

Lemma ex_two_beams_in_bounds : rangesInBounds ex_two_beams.
Proof.
  intros j c Hj. unfold ex_two_beams in Hj.
  do 5 (destruct j as [|j];
        [injection Hj as <-; simpl;
         split; [intros; lia | intros; split; [lia | intros; lia]]|]).
  simpl in Hj. discriminate Hj.
Defined.

Lemma X8_ConvertMCParticles_returns_witness :
  ∃ res,
    ConvertMCParticles ex_two_beams = Some res
    ∧ length (colMCParticles res) = length ex_two_beams.
Proof. exact (X8_ConvertMCParticles_returns ex_two_beams ex_two_beams_in_bounds). Defined.

(** The only candidate names the indices 0 to 5 as its mothers. *)
Lemma X9_ConvertMCParticles_range_fault_witness :
  ConvertMCParticles ex_mother_outside = None.
Proof.
  apply (X9_ConvertMCParticles_range_fault ex_mother_outside 0
           (genCand 0 5 (-1) (-1) 0 0 0 0 1)).
  - reflexivity.
  - simpl. lia.
  - left. exists 5. simpl. lia.
Defined.

Lemma X10_ConvertMCParticles_handles_witness :
  ∃ res,
    ConvertMCParticles ex_two_beams = Some res
    ∧ length (colMCParticles res) = length ex_two_beams
    ∧ ∀ j cand, ex_two_beams !! j = Some cand →
        ∃ p, colMCParticles res !! j = Some p
             ∧ coreType (Core p) = PID cand
             ∧ coreCharge (Core p) = Charge cand
             ∧ coreVertex (Core p) = candPoint cand
             ∧ (StartVertex p = None ↔ M1 cand = -1)
             ∧ (EndVertex p = None ↔ D1 cand = -1)
             ∧ ∀ v, StartVertex p = Some v ∨ EndVertex p = Some v →
                    (v < length (colGenVertices res))%nat.
Proof.
  assert (Hrun : ∃ res, ConvertMCParticles ex_two_beams = Some res).
  { eexists. vm_compute. reflexivity. }
  destruct Hrun as [res Hrun]. exists res. split; [exact Hrun|].
  exact (X10_ConvertMCParticles_handles ex_two_beams res Hrun).
Defined.

Lemma X11_ConvertMCParticles_vertices_used_witness :
  ∃ res,
    ConvertMCParticles ex_two_beams = Some res
    ∧ (∀ v, (v < length (colGenVertices res))%nat →
            ∃ j p, colMCParticles res !! j = Some p
                   ∧ (StartVertex p = Some v ∨ EndVertex p = Some v))
    ∧ (length (colGenVertices res) ≤ 3 + 3)%nat.
Proof.
  assert (Hrun : ∃ res, ConvertMCParticles ex_two_beams = Some res).
  { eexists. vm_compute. reflexivity. }
  destruct Hrun as [res Hrun]. exists res. split; [exact Hrun|].
  destruct (X11_ConvertMCParticles_vertices_used ex_two_beams res Hrun)
    as (Hused & Hcount & _).
  split; [exact Hused|exact Hcount].
Defined.

(** In [ex_two_beams] candidate 2 is the first to list candidate 3. *)
Lemma X12_start_vertex_origin_witness :
  ∃ res p q v,
    ConvertMCParticles ex_two_beams = Some res
    ∧ colMCParticles res !! 3%nat = Some p
    ∧ colMCParticles res !! 2%nat = Some q
    ∧ StartVertex p = Some v ∧ EndVertex q = Some v.
Proof.
  assert (Hrun : ∃ res, ConvertMCParticles ex_two_beams = Some res).
  { eexists. vm_compute. reflexivity. }
  destruct Hrun as [res Hrun].
  destruct (X12_start_vertex_origin ex_two_beams res 3
              (genCand 2 2 (-1) (-1) 5 5 5 7 4) Hrun eq_refl) as [Hshare _].
  { simpl. lia. }
  destruct (Hshare 2%nat) as (p & q & v & Hp & Hq & HS & HE).
  - lia.
  - exists (genCand 0 1 3 4 0 0 0 0 3). split; [reflexivity|].
    split; [simpl; lia|]. apply elem_of_int_range. simpl. lia.
  - intros k' Hk' (ck & Hck & HD & Hin).
    destruct k' as [|[|k']]; [| |lia].
    + injection Hck as <-. vm_compute in Hin.
      apply list_elem_of_singleton in Hin. discriminate Hin.
    + injection Hck as <-. vm_compute in Hin.
      apply list_elem_of_singleton in Hin. discriminate Hin.
  - exists res, p, q, v. split; [exact Hrun|]. split; [exact Hp|].
    split; [exact Hq|]. split; [exact HS|exact HE].
Defined.

(** In [ex_children_first] candidate 2 is the first to name candidate 4 as
    its mother. *)
Lemma X13_end_vertex_origin_witness :
  ∃ res p q v,
    ConvertMCParticles ex_children_first = Some res
    ∧ colMCParticles res !! 4%nat = Some p
    ∧ colMCParticles res !! 2%nat = Some q
    ∧ EndVertex p = Some v ∧ StartVertex q = Some v.
Proof.
  assert (Hrun : ∃ res, ConvertMCParticles ex_children_first = Some res).
  { eexists. vm_compute. reflexivity. }
  destruct Hrun as [res Hrun].
  destruct (X13_end_vertex_origin ex_children_first res 4
              (genCand 0 1 2 3 0 0 0 0 5) Hrun eq_refl) as [Hshare _].
  { simpl. lia. }
  destruct (Hshare 2%nat) as (p & q & v & Hp & Hq & HE & HS).
  - lia.
  - exists (genCand 4 4 (-1) (-1) 5 5 5 7 3). split; [reflexivity|]. simpl. lia.
  - intros i' Hi' (ci & Hci & HM & _).
    destruct i' as [|[|i']]; [| |lia]; injection Hci as <-; simpl in HM; lia.
  - exists res, p, q, v. split; [exact Hrun|]. split; [exact Hp|].
    split; [exact Hq|]. split; [exact HE|exact HS].
Defined.

(** ** One event *)

Lemma X14_fillCollections_handles_witness :
  ∃ ev,
    fillCollections size_int false 10 ex_event_pool ex_names ex_arrays = Some ev
    ∧ vertexHandlesValid (genParticles ev) (genVertices ev)
    ∧ relationsValid (recMuons ev) (recMuonsToMC ev) (genParticles ev) true
    ∧ relationsValid (recNeutral ev) (recNeutralToMC ev) (genParticles ev) false
    ∧ jetRelationsValid (recJets ev) (recJetsToMC ev) (genParticles ev)
    ∧ tagRelationsValid (recJets ev) (recBTags ev) (recJetsToBTags ev).
Proof.
  assert (Hrun : ∃ ev, fillCollections size_int false 10 ex_event_pool ex_names ex_arrays
                       = Some ev).
  { eexists. vm_compute. reflexivity. }
  destruct Hrun as [ev Hrun]. exists ev. split; [exact Hrun|].
  destruct (X14_fillCollections_handles size_int false ex_event_pool 10 ex_names
              ex_arrays ev Hrun) as (H1 & H2 & _ & _ & H5 & _ & H7 & H8 & _).
  split; [exact H1|]. split; [exact H2|]. split; [exact H5|].
  split; [exact H7|exact H8].
Defined.

(** [ex_arrays] has no electron array. *)
Lemma X15_fillCollections_sizes_witness :
  ∃ ev,
    fillCollections size_int false 10 ex_event_pool ex_names ex_arrays = Some ev
    ∧ length (genParticles ev) = 5%nat
    ∧ length (recMuons ev) = 2%nat
    ∧ length (recElectrons ev) = 0%nat
    ∧ length (recJets ev) = 2%nat
    ∧ length (recMETs ev) = 1%nat.
Proof.
  assert (Hrun : ∃ ev, fillCollections size_int false 10 ex_event_pool ex_names ex_arrays
                       = Some ev).
  { eexists. vm_compute. reflexivity. }
  destruct Hrun as [ev Hrun]. exists ev. split; [exact Hrun|].
  destruct (X15_fillCollections_sizes size_int false ex_event_pool 10 ex_names
              ex_arrays ev Hrun)
    as (H1 & [H2 _] & [H3 _] & _ & _ & _ & (H7 & _) & H8).
  split; [exact H1|]. split; [exact H2|]. split; [exact H3|].
  split; [exact H7|exact H8].
Defined.

Lemma X16_fillCollections_returns_witness :
  (∃ ev, fillCollections size_int false 10 ex_event_pool ex_names ex_arrays = Some ev)
  ∧ (∃ ev, fillCollections size_int true 10 ex_event_pool ex_names ex_arrays_matched
           = Some ev).
Proof.
  split.
  - apply (X16_fillCollections_returns size_int false ex_event_pool ex_event_rank).
    + exact ex_event_pool_acyclic.
    + exact ex_event_rank_bound.
    + exact ex_event_pool_ids.
    + intros Input [= <-]. split; [exact ex_two_beams_in_bounds|].
      vm_compute. reflexivity.
    + by left.
  - apply (X16_fillCollections_returns size_int true ex_event_pool ex_event_rank).
    + exact ex_event_pool_acyclic.
    + exact ex_event_rank_bound.
    + exact ex_event_pool_ids.
    + intros Input [= <-]. split; [exact ex_two_beams_in_bounds|].
      vm_compute. reflexivity.
    + right. intros array Input cand Harray Hsome Hcand.
      repeat (apply elem_of_cons in Harray as [->|Harray]);
        [| |
         |by apply elem_of_nil in Harray].
      * injection Hsome as <-. apply list_elem_of_singleton in Hcand as ->.
        vm_compute. by eexists.
      * discriminate Hsome.
      * injection Hsome as <-. apply list_elem_of_singleton in Hcand as ->.
        vm_compute. by eexists.
Defined.
